(** * Lenia simulation engine: a shallow embedding of the update shaders,
      the parameter model and the preset store

    Numbers: the GLSL [float]s of the shaders and the JavaScript numbers of
    the engine classes are idealised as real numbers; grid coordinates and
    loop counters are integers.  A texture is read at texel centres only
    (the fragment position plus an integer number of texels), where the
    LINEAR filter returns the texel itself, so sampling is modelled on
    integer texel coordinates.  The context is WebGL 1: a texture that is
    not complete is sampled as (0, 0, 0, 1) whatever it holds.  The textures
    are RGBA UNSIGNED_BYTE; the rounding of a drawn colour to the nearest
    byte is not modelled: a texture of the model holds the colours as the
    shader outputs them, and what one tick computes is stated on the colour
    drawn. *)

From Stdlib Require Import Reals Lra Lia ZArith List Sorted.
From stdpp Require Import gmap strings pretty.
Import ListNotations.

Local Open Scope R_scope.

(** ** GLSL built-ins used by the shaders *)

Module Glsl.

(** [clamp(x, lo, hi) = min(max(x, lo), hi)] *)
Definition clamp (x lo hi : R) : R := Rmin (Rmax x lo) hi.

(** [smoothstep(edge0, edge1, x)] *)
Definition smoothstep (edge0 edge1 x : R) : R :=
  let t := clamp ((x - edge0) / (edge1 - edge0)) 0 1 in
  t * t * (3 - 2 * t).

Record vec3 := Vec3 { vx : R; vy : R; vz : R }.
Record vec4 := Vec4 { cr : R; cg : R; cb : R; ca : R }.

End Glsl.
Import Glsl.

(** ** The kernel and growth functions (identical text in both shaders) *)

(** [float kernel(float r) { float kr = 4.0 * r * (1.0 - r); return kr * kr; }] *)
Definition kernel (r : R) : R :=
  let kr := 4 * r * (1 - r) in
  kr * kr.

(** [float growth(float u, float mu, float sigma)]; the single-species shader
    reads [mu] and [sigma] from its uniforms. *)
Definition growth (u mu sigma : R) : R :=
  let diff := (u - mu) / sigma in
  2 * exp (- diff * diff / 2) - 1.

(** ** Exceptions

    A JavaScript call either returns or throws. *)

Inductive outcome (A : Type) : Type :=
  | Returned (a : A)
  | Threw (msg : string).
Arguments Returned {A} a.
Arguments Threw {A} msg.

(** ** Textures and sampling *)

Module Texture.

Inductive WrapMode := REPEAT | CLAMP_TO_EDGE.

(** A texture object: the wrap parameters set by [createTexture], its size
    and its texels. *)
Record texture := Tex {
  wrap_s : WrapMode;
  wrap_t : WrapMode;
  width : Z;
  height : Z;
  texels : Z -> Z -> vec4
}.

(** Texel index addressed by coordinate [i] along an axis of [n] texels. *)
Definition wrap_coord (m : WrapMode) (n i : Z) : Z :=
  match m with
  | REPEAT => (i mod n)%Z
  | CLAMP_TO_EDGE => Z.max 0 (Z.min (n - 1) i)
  end.

(** A positive power of two. *)
Definition is_pow2 (n : Z) : bool :=
  ((0 <? n) && (Z.land n (n - 1) =? 0))%Z.

(** Completeness under WebGL 1 with the LINEAR filters that both
    [createTexture] methods set: a texture of positive size is complete when
    both axes are CLAMP_TO_EDGE, or when its width and its height are powers
    of two. *)
Definition complete (t : texture) : bool :=
  ((0 <? width t) && (0 <? height t))%Z
  && match wrap_s t, wrap_t t with
     | CLAMP_TO_EDGE, CLAMP_TO_EDGE => true
     | _, _ => is_pow2 (width t) && is_pow2 (height t)
     end.

(** [texture2D(t, v_texCoord + vec2(i - x, j - y) * texelSize)] for the
    fragment of texel [(x, y)]; a texture that is not complete yields
    [(0, 0, 0, 1)]. *)
Definition texture2D (t : texture) (i j : Z) : vec4 :=
  if complete t
  then texels t (wrap_coord (wrap_s t) (width t) i)
                (wrap_coord (wrap_t t) (height t) j)
  else Vec4 0 0 0 1.

Definition in_grid (t : texture) (i j : Z) : bool :=
  (0 <=? i)%Z && (i <? width t)%Z && (0 <=? j)%Z && (j <? height t)%Z.

(** [gl.texImage2D(..., data)]: replaces the texels, keeps the parameters. *)
Definition texImage2D (t : texture) (data : Z -> Z -> vec4) : texture :=
  Tex (wrap_s t) (wrap_t t) (width t) (height t) data.

(** [gl.drawArrays] of the full-screen quad into the framebuffer of
    [target]: every texel of the viewport receives the fragment colour. *)
Definition drawArrays (target : texture) (frag : Z -> Z -> vec4) : texture :=
  Tex (wrap_s target) (wrap_t target) (width target) (height target)
      (fun i j => if in_grid target i j then frag i j else texels target i j).

End Texture.
Import Texture.

(** ** Loops with fixed integer bounds *)

Fixpoint zrange (lo : Z) (n : nat) : list Z :=
  match n with
  | O => []
  | S k => lo :: zrange (lo + 1) k
  end.

(** The values of [d] in [for (int d = -b; d <= b; d++)]. *)
Definition loop_range (b : Z) : list Z := zrange (- b) (Z.to_nat (2 * b + 1)).

(** [float dist = sqrt(fdx * fdx + fdy * fdy)] *)
Definition offset_dist (dx dy : Z) : R :=
  let fdx := IZR dx in
  let fdy := IZR dy in
  sqrt (fdx * fdx + fdy * fdy).

(** ** SIMULATION_SHADER (single species) *)

Module Sim.

Record uniforms := Uniforms {
  u_R : R;
  u_T : R;
  u_mu : R;
  u_sigma : R;
  u_dt : R;
  u_trail : R
}.

(** Body of the neighbourhood loop for one offset; [state dx dy] is the red
    channel of the sample at that offset, [acc] is [(total, kernelSum)]. *)
Definition accumulate (radius : R) (state : Z -> Z -> R)
    (acc : R * R) (dx dy : Z) : R * R :=
  let dist := offset_dist dx dy in
  if Rgt_dec dist radius then acc
  else
    let r := dist / radius in
    let k := kernel r in
    (fst acc + state dx dy * k, snd acc + k).

(** The two nested loops over [-bound .. bound]. *)
Definition convolve (bound : Z) (radius : R) (state : Z -> Z -> R) : R * R :=
  fold_left
    (fun acc dy =>
       fold_left (fun acc dx => accumulate radius state acc dx dy)
                 (loop_range bound) acc)
    (loop_range bound) (0, 0).

(** "Max kernel radius is 12, so we loop -12 to 12" *)
Definition LOOP_BOUND : Z := 12.

(** [float U = total / max(kernelSum, 0.001)] *)
Definition normalize (acc : R * R) : R := fst acc / Rmax (snd acc) 0.001.

Definition potential (u : uniforms) (u_state : texture) (x y : Z) : R :=
  normalize
    (convolve LOOP_BOUND (u_R u)
       (fun dx dy => cr (texture2D u_state (x + dx) (y + dy)))).

(** [main()] for the fragment of texel [(x, y)]. *)
Definition main (u : uniforms) (u_state : texture) (x y : Z) : vec4 :=
  let U := potential u u_state x y in
  let G := growth U (u_mu u) (u_sigma u) in
  let currentState := cr (texture2D u_state x y) in
  let newState := clamp (currentState + G * u_dt u / u_T u) 0 1 in
  let newState := newState * u_trail u in
  Vec4 newState newState newState 1.

End Sim.

(** ** The Lenia engine class (single species) *)

Module Engine.

Record GrowthParams := { mu : R; sigma : R }.

Record Species := {
  name : string;
  color : R * R * R;
  radius : R;          (* R *)
  timescale : R;       (* T *)
  beta : list R;       (* kernelParams.beta *)
  growthParams : GrowthParams
}.

(** The global SPECIES table as the file defines it. *)
Definition orbium : Species :=
  {| name := "Orbium"; color := (0.2, 0.6, 1); radius := 10; timescale := 10;
     beta := [1; 1; 1]; growthParams := {| mu := 0.15; sigma := 0.017 |} |}.
Definition geminium : Species :=
  {| name := "Geminium"; color := (1, 0.4, 0.6); radius := 8; timescale := 10;
     beta := [1; 0.5; 0.5]; growthParams := {| mu := 0.14; sigma := 0.016 |} |}.
Definition hydrogeminium : Species :=
  {| name := "Hydrogeminium"; color := (0.4, 1, 0.6); radius := 12;
     timescale := 10; beta := [1; 1 / 3; 1];
     growthParams := {| mu := 0.12; sigma := 0.015 |} |}.
Definition scutium : Species :=
  {| name := "Scutium"; color := (1, 0.8, 0.2); radius := 10; timescale := 8;
     beta := [0.5; 1; 1]; growthParams := {| mu := 0.16; sigma := 0.018 |} |}.
Definition gliderium : Species :=
  {| name := "Gliderium"; color := (0.8, 0.4, 1); radius := 11; timescale := 12;
     beta := [1; 0.8; 0.5]; growthParams := {| mu := 0.135; sigma := 0.015 |} |}.

Definition SPECIES0 : gmap string Species :=
  <["orbium" := orbium]> (<["geminium" := geminium]>
  (<["hydrogeminium" := hydrogeminium]> (<["scutium" := scutium]>
  (<["gliderium" := gliderium]> ∅)))).

(** The fields of a [Lenia] object that the simulation reads or writes,
    together with the global [SPECIES] table it edits.  [currentBuffer] is
    [false] for index 0 and [true] for index 1. *)
Record Lenia := {
  SPECIES : gmap string Species;
  textures : texture * texture;
  currentBuffer : bool;
  currentSpecies : string;
  mutationMode : bool;
  mutatedParams : option Species;
  mutationSpeed : R;
  timeScale : R;
  trailEnabled : bool;
  trailAmount : R
}.

Definition texture_at (e : Lenia) (i : bool) : texture :=
  if i then snd (textures e) else fst (textures e).

Definition current_texture (e : Lenia) : texture := texture_at e (currentBuffer e).

(** [createTexture()] of the class: both axes REPEAT, no data yet. *)
Definition createTexture (w h : Z) : texture :=
  Tex REPEAT REPEAT w h (fun _ _ => Vec4 0 0 0 0).

(** [new Lenia(canvas)]: the constructor's field values; [seed] is the state
    that [randomize()] uploads into the current texture. *)
Definition new (w h : Z) (seed : Z -> Z -> vec4) : Lenia :=
  {| SPECIES := SPECIES0;
     textures := (texImage2D (createTexture w h) seed, createTexture w h);
     currentBuffer := false;
     currentSpecies := "orbium";
     mutationMode := false;
     mutatedParams := None;
     mutationSpeed := 0.0005;
     timeScale := 1;
     trailEnabled := false;
     trailAmount := 0.95 |}.

Definition set_mutatedParams (p : option Species) (e : Lenia) : Lenia :=
  {| SPECIES := SPECIES e; textures := textures e;
     currentBuffer := currentBuffer e; currentSpecies := currentSpecies e;
     mutationMode := mutationMode e; mutatedParams := p;
     mutationSpeed := mutationSpeed e; timeScale := timeScale e;
     trailEnabled := trailEnabled e; trailAmount := trailAmount e |}.

(** The values of the five [Math.random()] calls of one [mutate()]. *)
Record Draws := {
  rand_R : R;
  rand_T : R;
  rand_mu : R;
  rand_sigma : R;
  rand_log : R
}.

(** [toggleMutation()] *)
Definition toggleMutation (e : Lenia) : outcome Lenia :=
  let mode := negb (mutationMode e) in
  let with_mode (p : option Species) : Lenia :=
    {| SPECIES := SPECIES e; textures := textures e;
       currentBuffer := currentBuffer e; currentSpecies := currentSpecies e;
       mutationMode := mode; mutatedParams := p;
       mutationSpeed := mutationSpeed e; timeScale := timeScale e;
       trailEnabled := trailEnabled e; trailAmount := trailAmount e |} in
  if mode then
    match SPECIES e !! currentSpecies e with
    | None => Threw "TypeError"
    | Some species =>
        Returned (with_mode (Some
          {| name := String.append (name species) " (Mutating)";
             color := color species;
             radius := radius species;
             timescale := timescale species;
             beta := beta species;
             growthParams := {| mu := mu (growthParams species);
                                sigma := sigma (growthParams species) |} |}))
    end
  else Returned (with_mode None).

(** [mutate()]: a random walk of the four tunables, each clamped with
    [Math.max(lo, Math.min(hi, v))]. *)
Definition mutate (d : Draws) (e : Lenia) : Lenia :=
  match mutatedParams e with
  | None => e
  | Some p =>
      let speed := mutationSpeed e in
      let R1 := radius p + (rand_R d - 0.5) * speed * 100 in
      let R2 := Rmax 5 (Rmin 20 R1) in
      let T1 := timescale p + (rand_T d - 0.5) * speed * 100 in
      let T2 := Rmax 5 (Rmin 20 T1) in
      let mu1 := mu (growthParams p) + (rand_mu d - 0.5) * speed in
      let mu2 := Rmax 0.05 (Rmin 0.3 mu1) in
      let sigma1 := sigma (growthParams p) + (rand_sigma d - 0.5) * speed * 0.1 in
      let sigma2 := Rmax 0.005 (Rmin 0.05 sigma1) in
      set_mutatedParams
        (Some {| name := name p; color := color p; radius := R2;
                 timescale := T2; beta := beta p;
                 growthParams := {| mu := mu2; sigma := sigma2 |} |}) e
  end.

(** [setSpeed(scale)] *)
Definition setSpeed (scale : R) (e : Lenia) : Lenia :=
  {| SPECIES := SPECIES e; textures := textures e;
     currentBuffer := currentBuffer e; currentSpecies := currentSpecies e;
     mutationMode := mutationMode e; mutatedParams := mutatedParams e;
     mutationSpeed := mutationSpeed e;
     timeScale := Rmax 0.1 (Rmin 5 scale);
     trailEnabled := trailEnabled e; trailAmount := trailAmount e |}.

(** [toggleTrail()] *)
Definition toggleTrail (e : Lenia) : Lenia :=
  {| SPECIES := SPECIES e; textures := textures e;
     currentBuffer := currentBuffer e; currentSpecies := currentSpecies e;
     mutationMode := mutationMode e; mutatedParams := mutatedParams e;
     mutationSpeed := mutationSpeed e; timeScale := timeScale e;
     trailEnabled := negb (trailEnabled e); trailAmount := trailAmount e |}.

(** The record passed to [setParameters]. *)
Record Params := { p_R : R; p_T : R; p_mu : R; p_sigma : R }.

(** [a || b] on numbers: [b] when [a] is 0, [a] otherwise. *)
Definition js_or (a b : R) : R := if Req_dec_T a 0 then b else a.

(** [setParameters(params)] *)
Definition setParameters (params : Params) (e : Lenia) : outcome Lenia :=
  match SPECIES e !! currentSpecies e with
  | None => Threw "TypeError"
  | Some baseSpecies =>
      let customSpecies :=
        {| name := "Custom";
           color := color baseSpecies;
           radius := js_or (p_R params) (radius baseSpecies);
           timescale := js_or (p_T params) (timescale baseSpecies);
           beta := beta baseSpecies;
           growthParams :=
             {| mu := js_or (p_mu params) (mu (growthParams baseSpecies));
                sigma := js_or (p_sigma params)
                               (sigma (growthParams baseSpecies)) |} |} in
      let mutated :=
        match mutationMode e, mutatedParams e with
        | true, Some m =>
            Some {| name := name m; color := color m;
                    radius := radius customSpecies;
                    timescale := timescale customSpecies;
                    beta := beta m;
                    growthParams :=
                      {| mu := mu (growthParams customSpecies);
                         sigma := sigma (growthParams customSpecies) |} |}
        | _, other => other
        end in
      Returned
        {| SPECIES := <["custom" := customSpecies]> (SPECIES e);
           textures := textures e;
           currentBuffer := currentBuffer e;
           currentSpecies := "custom";
           mutationMode := mutationMode e;
           mutatedParams := mutated;
           mutationSpeed := mutationSpeed e;
           timeScale := timeScale e;
           trailEnabled := trailEnabled e;
           trailAmount := trailAmount e |}
  end.

(** The uniforms [step()] hands to the shader. *)
Definition step_uniforms (params : Species) (e : Lenia) : Sim.uniforms :=
  {| Sim.u_R := radius params;
     Sim.u_T := timescale params;
     Sim.u_mu := mu (growthParams params);
     Sim.u_sigma := sigma (growthParams params);
     Sim.u_dt := timeScale e;
     Sim.u_trail := if trailEnabled e then trailAmount e else 1 |}.

(** [if (this.mutationMode) { this.mutate(); }]: the state in which the
    tick renders. *)
Definition tick_state (d : Draws) (e : Lenia) : Lenia :=
  if mutationMode e then mutate d e else e.

(** [const params = this.mutatedParams || species] after the mutation of the
    tick; [None] stands for [undefined]. *)
Definition step_params (d : Draws) (e : Lenia) : option Species :=
  let species := SPECIES e !! currentSpecies e in
  let e1 := tick_state d e in
  match mutatedParams e1 with
  | Some p => Some p
  | None => species
  end.

(** [step()]: mutate when the mode is on, pick [mutatedParams || species],
    draw into the other buffer and swap.  Reading [params.R] of [undefined]
    throws. *)
Definition step (d : Draws) (e : Lenia) : outcome Lenia :=
  let e1 := tick_state d e in
  match step_params d e with
  | None => Threw "TypeError"
  | Some params =>
      let nextBuffer := negb (currentBuffer e1) in
      let drawn :=
        drawArrays (texture_at e1 nextBuffer)
                   (Sim.main (step_uniforms params e1) (current_texture e1)) in
      Returned
        {| SPECIES := SPECIES e1;
           textures := if nextBuffer
                       then (fst (textures e1), drawn)
                       else (drawn, snd (textures e1));
           currentBuffer := nextBuffer;
           currentSpecies := currentSpecies e1;
           mutationMode := mutationMode e1;
           mutatedParams := mutatedParams e1;
           mutationSpeed := mutationSpeed e1;
           timeScale := timeScale e1;
           trailEnabled := trailEnabled e1;
           trailAmount := trailAmount e1 |}
  end.

(** Consecutive calls of [mutate()], one [Draws] per call. *)
Definition mutate_n (ds : list Draws) (e : Lenia) : Lenia :=
  fold_left (fun e d => mutate d e) ds e.

(** Consecutive ticks, one [Draws] per tick. *)
Fixpoint run (ds : list Draws) (e : Lenia) : outcome Lenia :=
  match ds with
  | [] => Returned e
  | d :: ds' =>
      match step d e with
      | Returned e' => run ds' e'
      | Threw msg => Threw msg
      end
  end.

End Engine.

(** ** ECOSYSTEM_SIMULATION_SHADER (three species in the R, G, B channels) *)

Module Eco.

Record uniforms := Uniforms {
  u_dt : R;
  u_R : vec3;
  u_T : vec3;
  u_mu : vec3;
  u_sigma : vec3;
  u_predation : R;
  u_benefit : R
}.

(** Body of the neighbourhood loop for one offset; [acc] is
    [(totals, kernelSums)]. *)
Definition accumulate (radii : vec3) (neighbor : Z -> Z -> vec4)
    (acc : vec3 * vec3) (dx dy : Z) : vec3 * vec3 :=
  let dist := offset_dist dx dy in
  if Rlt_dec dist 0.5 then acc
  else
    let nb := neighbor dx dy in
    let acc :=
      if Rle_dec dist (vx radii) then
        let r := dist / vx radii in
        let k := kernel r in
        (Vec3 (vx (fst acc) + cr nb * k) (vy (fst acc)) (vz (fst acc)),
         Vec3 (vx (snd acc) + k) (vy (snd acc)) (vz (snd acc)))
      else acc in
    let acc :=
      if Rle_dec dist (vy radii) then
        let r := dist / vy radii in
        let k := kernel r in
        (Vec3 (vx (fst acc)) (vy (fst acc) + cg nb * k) (vz (fst acc)),
         Vec3 (vx (snd acc)) (vy (snd acc) + k) (vz (snd acc)))
      else acc in
    if Rle_dec dist (vz radii) then
      let r := dist / vz radii in
      let k := kernel r in
      (Vec3 (vx (fst acc)) (vy (fst acc)) (vz (fst acc) + cb nb * k),
       Vec3 (vx (snd acc)) (vy (snd acc)) (vz (snd acc) + k))
    else acc.

(** [for (int dy = -15; dy <= 15; dy++) for (int dx = -15; dx <= 15; dx++)] *)
Definition LOOP_BOUND : Z := 15.

Definition convolve (radii : vec3) (neighbor : Z -> Z -> vec4) : vec3 * vec3 :=
  fold_left
    (fun acc dy =>
       fold_left (fun acc dx => accumulate radii neighbor acc dx dy)
                 (loop_range LOOP_BOUND) acc)
    (loop_range LOOP_BOUND) (Vec3 0 0 0, Vec3 0 0 0).

(** [vec3 U = totals / max(kernelSums, vec3(0.001))] *)
Definition normalize (acc : vec3 * vec3) : vec3 :=
  Vec3 (vx (fst acc) / Rmax (vx (snd acc)) 0.001)
       (vy (fst acc) / Rmax (vy (snd acc)) 0.001)
       (vz (fst acc) / Rmax (vz (snd acc)) 0.001).

Definition potentials (u : uniforms) (u_state : texture) (x y : Z) : vec3 :=
  normalize (convolve (u_R u) (fun dx dy => texture2D u_state (x + dx) (y + dy))).

(** [main()] for the fragment of texel [(x, y)]. *)
Definition main (u : uniforms) (u_state : texture) (x y : Z) : vec4 :=
  let current := texture2D u_state x y in
  let preyDensity := cr current in
  let predDensity := cg current in
  let apexDensity := cb current in
  let U := potentials u u_state x y in
  let preyGrowth := growth (vx U) (vx (u_mu u)) (vx (u_sigma u)) in
  let predGrowth := growth (vy U) (vy (u_mu u)) (vy (u_sigma u)) in
  let apexGrowth := growth (vz U) (vz (u_mu u)) (vz (u_sigma u)) in
  let localPrey := preyDensity in
  let localPred := predDensity in
  let localApex := apexDensity in
  let preyLoss := localPred * u_predation u * localPrey in
  let predGain := localPrey * u_benefit u * localPred * 0.5 in
  let predLoss := localApex * u_predation u * localPred in
  let apexGain := localPred * u_benefit u * localApex * 0.3 in
  let totalDensity := preyDensity + predDensity + apexDensity in
  let crowding := smoothstep 0.5 1.5 totalDensity * 0.1 in
  let newPrey := preyDensity + (preyGrowth * u_dt u / vx (u_T u))
                 - preyLoss - crowding * preyDensity in
  let newPred := predDensity + (predGrowth * u_dt u / vy (u_T u))
                 + predGain - predLoss - crowding * predDensity in
  let newApex := apexDensity + (apexGrowth * u_dt u / vz (u_T u))
                 + apexGain - crowding * apexDensity in
  let newPrey := clamp newPrey 0 1 in
  let newPred := clamp newPred 0 1 in
  let newApex := clamp newApex 0 1 in
  let newPrey := newPrey * 0.9995 in
  let newPred := newPred * 0.9993 in
  let newApex := newApex * 0.9990 in
  Vec4 newPrey newPred newApex 1.

End Eco.

(** ** The LeniaEcosystem engine class *)

Module Ecosystem.

Record SpeciesDef := {
  channel : Z;
  name : string;
  radius : R;          (* R *)
  timescale : R;       (* T *)
  mu : R;              (* growthParams.mu *)
  sigma : R;           (* growthParams.sigma *)
  eatenBy : list string;
  eats : list string
}.

(** ECOSYSTEM_SPECIES *)
Definition prey : SpeciesDef :=
  {| channel := 0; name := "Prey"; radius := 10; timescale := 15;
     mu := 0.14; sigma := 0.015; eatenBy := ["predator"]; eats := [] |}.
Definition predator : SpeciesDef :=
  {| channel := 1; name := "Predator"; radius := 12; timescale := 20;
     mu := 0.13; sigma := 0.012; eatenBy := ["apex"]; eats := ["prey"] |}.
Definition apex : SpeciesDef :=
  {| channel := 2; name := "Apex"; radius := 14; timescale := 25;
     mu := 0.12; sigma := 0.010; eatenBy := []; eats := ["predator"] |}.

Record LeniaEcosystem := {
  textures : texture * texture;
  currentBuffer : bool;
  predationStrength : R;
  benefitStrength : R;
  timeScale : R
}.

Definition texture_at (e : LeniaEcosystem) (i : bool) : texture :=
  if i then snd (textures e) else fst (textures e).

Definition current_texture (e : LeniaEcosystem) : texture :=
  texture_at e (currentBuffer e).

(** [createTexture()] of the class: both axes CLAMP_TO_EDGE. *)
Definition createTexture (w h : Z) : texture :=
  Tex CLAMP_TO_EDGE CLAMP_TO_EDGE w h (fun _ _ => Vec4 0 0 0 0).

(** [new LeniaEcosystem(canvas)]; [seed] is what [seedEcosystem()] uploads. *)
Definition new (w h : Z) (seed : Z -> Z -> vec4) : LeniaEcosystem :=
  {| textures := (texImage2D (createTexture w h) seed, createTexture w h);
     currentBuffer := false;
     predationStrength := 0.15;
     benefitStrength := 0.12;
     timeScale := 0.5 |}.

Definition step_uniforms (e : LeniaEcosystem) : Eco.uniforms :=
  {| Eco.u_dt := timeScale e;
     Eco.u_R := Vec3 (radius prey) (radius predator) (radius apex);
     Eco.u_T := Vec3 (timescale prey) (timescale predator) (timescale apex);
     Eco.u_mu := Vec3 (mu prey) (mu predator) (mu apex);
     Eco.u_sigma := Vec3 (sigma prey) (sigma predator) (sigma apex);
     Eco.u_predation := predationStrength e;
     Eco.u_benefit := benefitStrength e |}.

(** [step()] *)
Definition step (e : LeniaEcosystem) : LeniaEcosystem :=
  let nextBuffer := negb (currentBuffer e) in
  let drawn :=
    drawArrays (texture_at e nextBuffer)
               (Eco.main (step_uniforms e) (current_texture e)) in
  {| textures := if nextBuffer
                 then (fst (textures e), drawn)
                 else (drawn, snd (textures e));
     currentBuffer := nextBuffer;
     predationStrength := predationStrength e;
     benefitStrength := benefitStrength e;
     timeScale := timeScale e |}.

Fixpoint run (n : nat) (e : LeniaEcosystem) : LeniaEcosystem :=
  match n with
  | O => e
  | S k => run k (step e)
  end.

End Ecosystem.

(** ** The preset gallery (presets.js) *)

Module Presets.

(** The object literal handed to [savePreset]. *)
Record PresetParams := {
  name : string;
  p_R : R;
  p_T : R;
  p_mu : R;
  p_sigma : R;
  description : string
}.

(** [{ ...params, created: Date.now() }] *)
Record Preset := { params : PresetParams; created : Z }.

(** [this.presets] is a plain JavaScript object used as a map.  Its own
    properties are the saved presets.  A property read that finds no own
    property continues in the prototype, which is [Object.prototype] unless
    an assignment to [__proto__] has replaced it by a preset object
    ([proto = Some p]). *)
Record JsObject := {
  own : gmap string Preset;
  proto : option Preset
}.

(** The property names of [Object.prototype]; each holds a function, or for
    [__proto__] yields the prototype object, so each reads as truthy. *)
Definition object_prototype_names : list string :=
  [ "constructor"; "hasOwnProperty"; "isPrototypeOf"; "propertyIsEnumerable";
    "toLocaleString"; "toString"; "valueOf"; "__proto__";
    "__defineGetter__"; "__defineSetter__"; "__lookupGetter__";
    "__lookupSetter__" ].

(** Truthiness of the own property [id] of a preset object, [None] when it
    has no such property: a string is truthy unless empty, a number unless 0. *)
Definition preset_property_truthy (p : Preset) (id : string) : option bool :=
  if bool_decide (id = "name") then
    Some (negb (bool_decide (name (params p) = "")))
  else if bool_decide (id = "R") then
    Some (if Req_dec_T (p_R (params p)) 0 then false else true)
  else if bool_decide (id = "T") then
    Some (if Req_dec_T (p_T (params p)) 0 then false else true)
  else if bool_decide (id = "mu") then
    Some (if Req_dec_T (p_mu (params p)) 0 then false else true)
  else if bool_decide (id = "sigma") then
    Some (if Req_dec_T (p_sigma (params p)) 0 then false else true)
  else if bool_decide (id = "description") then
    Some (negb (bool_decide (description (params p) = "")))
  else if bool_decide (id = "created") then
    Some (negb (bool_decide (created p = 0%Z)))
  else None.

(** Truthiness of [o[id]]. *)
Definition get_truthy (o : JsObject) (id : string) : bool :=
  match own o !! id with
  | Some _ => true
  | None =>
      let inherited := bool_decide (id ∈ object_prototype_names) in
      match proto o with
      | None => inherited
      | Some p =>
          match preset_property_truthy p id with
          | Some b => b
          | None => inherited
          end
      end
  end.

(** [o[id] = v] for a preset object [v]: an own property is overwritten; a
    missing [__proto__] reaches the setter of [Object.prototype], which
    replaces the prototype; any other name becomes a new own property. *)
Definition assign (o : JsObject) (id : string) (v : Preset) : JsObject :=
  match own o !! id with
  | Some _ => {| own := <[id := v]> (own o); proto := proto o |}
  | None =>
      if bool_decide (id = "__proto__")
      then {| own := own o; proto := Some v |}
      else {| own := <[id := v]> (own o); proto := proto o |}
  end.

(** [Object.keys(o).length] *)
Definition keys_length (o : JsObject) : nat := size (own o).

(** A [PresetGallery] with the [lenia_presets] item of localStorage. *)
Record PresetGallery := {
  presets : JsObject;
  maxPresets : nat;
  stored : option (gmap string Preset)
}.

(** [savePresetsToStorage()]: [JSON.stringify] writes the own properties;
    a failing [setItem] (when [quota_ok] is false) is caught and logged. *)
Definition savePresetsToStorage (quota_ok : bool) (g : PresetGallery)
    : PresetGallery :=
  if quota_ok
  then {| presets := presets g; maxPresets := maxPresets g;
          stored := Some (own (presets g)) |}
  else g.

(** [savePreset(id, params)]; [now] is the value of [Date.now()].  The result
    pairs the outcome of the call with the gallery after it. *)
Definition savePreset (now : Z) (quota_ok : bool) (id : string)
    (ps : PresetParams) (g : PresetGallery) : outcome unit * PresetGallery :=
  if (maxPresets g <=? keys_length (presets g))%nat
     && negb (get_truthy (presets g) id)
  then (Threw ("Maximum " +:+ pretty (maxPresets g) +:+ " presets reached"), g)
  else
    let g1 := {| presets := assign (presets g) id
                              {| params := ps; created := now |};
                 maxPresets := maxPresets g;
                 stored := stored g |} in
    (Returned tt, savePresetsToStorage quota_ok g1).

Definition glider : Preset :=
  {| params := {| name := "Glider"; p_R := 12; p_T := 18; p_mu := 0.14;
                  p_sigma := 0.015; description := "Smooth gliding motion" |};
     created := 0 |}.
Definition pulse : Preset :=
  {| params := {| name := "Pulse"; p_R := 8; p_T := 12; p_mu := 0.18;
                  p_sigma := 0.020;
                  description := "Rhythmic pulsing pattern" |};
     created := 0 |}.
Definition chaotic : Preset :=
  {| params := {| name := "Chaotic"; p_R := 15; p_T := 8; p_mu := 0.12;
                  p_sigma := 0.008; description := "Unpredictable chaos" |};
     created := 0 |}.
Definition stable : Preset :=
  {| params := {| name := "Stable"; p_R := 10; p_T := 20; p_mu := 0.15;
                  p_sigma := 0.012; description := "Slow, stable growth" |};
     created := 0 |}.

Definition with_created (now : Z) (p : Preset) : Preset :=
  {| params := params p; created := now |}.

(** [addDefaultPresets()] *)
Definition addDefaultPresets (now : Z) (quota_ok : bool) (g : PresetGallery)
    : PresetGallery :=
  savePresetsToStorage quota_ok
    {| presets :=
         {| own := <["glider" := with_created now glider]>
                   (<["pulse" := with_created now pulse]>
                   (<["chaotic" := with_created now chaotic]>
                   (<["stable" := with_created now stable]> ∅)));
            proto := None |};
       maxPresets := maxPresets g;
       stored := stored g |}.

(** [new PresetGallery()]; [item] is the parsed [lenia_presets] item of
    localStorage, [None] when there is none or it does not parse. *)
Definition new (now : Z) (quota_ok : bool) (item : option (gmap string Preset))
    : PresetGallery :=
  let loaded := match item with Some m => m | None => ∅ end in
  let g := {| presets := {| own := loaded; proto := None |};
              maxPresets := 20; stored := item |} in
  if (keys_length (presets g) =? 0)%nat
  then addDefaultPresets now quota_ok g
  else g.

(** Saving a list of presets one after the other, stopping at a throw. *)
Fixpoint saveAll (now : Z) (l : list (string * PresetParams))
    (g : PresetGallery) : outcome unit * PresetGallery :=
  match l with
  | [] => (Returned tt, g)
  | (id, ps) :: l' =>
      match savePreset now true id ps g with
      | (Returned _, g') => saveAll now l' g'
      | failed => failed
      end
  end.

End Presets.

(** ** Vocabulary of the statements *)

Definition unit_vec4 (c : vec4) : Prop :=
  0 <= cr c <= 1 /\ 0 <= cg c <= 1 /\ 0 <= cb c <= 1.

(** Every cell of the field holds values in [0,1]. *)
Definition unit_range (t : texture) : Prop :=
  forall i j, in_grid t i j = true -> unit_vec4 (texels t i j).

(** The ranges that [mutate()] declares for the four tunables. *)
Definition in_mutation_range (p : Engine.Species) : Prop :=
  5 <= Engine.radius p <= 20
  /\ 5 <= Engine.timescale p <= 20
  /\ 0.05 <= Engine.mu (Engine.growthParams p) <= 0.3
  /\ 0.005 <= Engine.sigma (Engine.growthParams p) <= 0.05.

(** The offsets [(dx, dy)] visited by the two nested loops over
    [-b .. b], in the order of the loops. *)
Definition offsets (b : Z) : list (Z * Z) :=
  flat_map (fun dy => map (fun dx => (dx, dy)) (loop_range b)) (loop_range b).

(** The offset lies within Euclidean distance [radius]. *)
Definition within (radius : R) (o : Z * Z) : bool :=
  if Rgt_dec (offset_dist (fst o) (snd o)) radius then false else true.

Definition Rsum (l : list R) : R := fold_right Rplus 0 l.

(** Following the spec (4.2 and 4.4, step 1): the neighbourhood is the disc
    of the offsets at Euclidean distance at most [radius]; [up radius] is an
    integer above [radius], so the square searched contains the disc. *)
Definition disc_offsets (radius : R) : list (Z * Z) :=
  List.filter (within radius) (offsets (Z.max 0 (up radius))).

(** Following the spec: the weight [w(r) = (4r(1-r))^2] at [r = distance/R]. *)
Definition disc_weight (radius : R) (o : Z * Z) : R :=
  kernel (offset_dist (fst o) (snd o) / radius).

(** Following the spec: the potential is the weighted sum over the disc
    divided by the sum of the weights, the denominator kept above a small
    epsilon. *)
Definition disc_potential (radius : R) (state : Z -> Z -> R) : R :=
  Rsum (map (fun o => state (fst o) (snd o) * disc_weight radius o)
            (disc_offsets radius))
  / Rmax (Rsum (map (disc_weight radius) (disc_offsets radius))) 0.001.

(** Both axes of the texture repeat. *)
Definition repeat_wrapped (t : texture) : Prop :=
  wrap_s t = REPEAT /\ wrap_t t = REPEAT.

(** Both axes of the texture clamp to the edge. *)
Definition edge_clamped (t : texture) : Prop :=
  wrap_s t = CLAMP_TO_EDGE /\ wrap_t t = CLAMP_TO_EDGE.

(** [t'] has the wrap parameters and the size of [t]. *)
Definition same_shape (t t' : texture) : Prop :=
  wrap_s t' = wrap_s t /\ wrap_t t' = wrap_t t
  /\ width t' = width t /\ height t' = height t.

(** Sampling addresses the field as a torus. *)
Definition reads_torus (t : texture) : Prop :=
  forall i j : Z,
    texture2D t i j = texels t (i mod width t)%Z (j mod height t)%Z.

(** Sampling outside the field reads the nearest edge cell. *)
Definition reads_edge (t : texture) : Prop :=
  forall i j : Z,
    texture2D t i j = texels t (Z.max 0 (Z.min (width t - 1) i))
                               (Z.max 0 (Z.min (height t - 1) j)).

(** The field [t] moved cyclically by [(a, b)]. *)
Definition torus_shift (a b : Z) (t : texture) : texture :=
  Tex (wrap_s t) (wrap_t t) (width t) (height t)
      (fun i j => texels t ((i + a) mod width t)%Z ((j + b) mod height t)%Z).

(** Following the spec (4.4, steps 2 and 3): the single-species update of
    one cell from its value and its potential. *)
Definition single_species_update (current U mu sigma dt T : R) : R :=
  clamp (current + growth U mu sigma * dt / T) 0 1.

(** The single-species field that holds one channel of an ecosystem field. *)
Definition channel_field (channel : vec4 -> R) (t : texture) : texture :=
  texImage2D (Engine.createTexture (width t) (height t))
             (fun i j => let v := channel (texels t i j) in Vec4 v v v 1).

(** The uniforms of a single-species step with one species' R, T, mu and
    sigma, the ecosystem's time step, and no trail. *)
Definition species_uniforms (sp : Ecosystem.SpeciesDef) (dt : R) : Sim.uniforms :=
  {| Sim.u_R := Ecosystem.radius sp; Sim.u_T := Ecosystem.timescale sp;
     Sim.u_mu := Ecosystem.mu sp; Sim.u_sigma := Ecosystem.sigma sp;
     Sim.u_dt := dt; Sim.u_trail := 1 |}.

(** Three independent single-species steps, one per channel, at a cell. *)
Definition three_single_steps (e : Ecosystem.LeniaEcosystem) (x y : Z) : vec4 :=
  let t := Ecosystem.current_texture e in
  let dt := Ecosystem.timeScale e in
  Vec4 (cr (Sim.main (species_uniforms Ecosystem.prey dt) (channel_field cr t) x y))
       (cr (Sim.main (species_uniforms Ecosystem.predator dt) (channel_field cg t) x y))
       (cr (Sim.main (species_uniforms Ecosystem.apex dt) (channel_field cb t) x y))
       1.

(** [u] with another predation strength. *)
Definition with_predation (p : R) (u : Eco.uniforms) : Eco.uniforms :=
  {| Eco.u_dt := Eco.u_dt u; Eco.u_R := Eco.u_R u; Eco.u_T := Eco.u_T u;
     Eco.u_mu := Eco.u_mu u; Eco.u_sigma := Eco.u_sigma u;
     Eco.u_predation := p; Eco.u_benefit := Eco.u_benefit u |}.

(** The crowding coefficient of a cell. *)
Definition crowding_of (c : vec4) : R :=
  smoothstep 0.5 1.5 (cr c + cg c + cb c) * 0.1.

(** [setParameters] rejects a record when the call throws. *)
Definition rejects (params : Engine.Params) (e : Engine.Lenia) : Prop :=
  exists msg, Engine.setParameters params e = Threw msg.

(** ** Sample inputs *)

Definition grey_seed : Z -> Z -> vec4 := fun _ _ => Vec4 0.5 0.5 0.5 1.

Definition mid_draws : Engine.Draws :=
  {| Engine.rand_R := 0.5; Engine.rand_T := 0.5; Engine.rand_mu := 0.5;
     Engine.rand_sigma := 0.5; Engine.rand_log := 0.5 |}.

Definition high_draws : Engine.Draws :=
  {| Engine.rand_R := 0.9; Engine.rand_T := 0.1; Engine.rand_mu := 0.9;
     Engine.rand_sigma := 0.1; Engine.rand_log := 0.5 |}.

Definition engine0 : Engine.Lenia := Engine.new 64 64 grey_seed.

(** An engine on a 60 x 60 canvas: a size that is no power of two. *)
Definition engine60 : Engine.Lenia := Engine.new 60 60 grey_seed.

(** [engine0] with mutation mode on, as [toggleMutation()] leaves it. *)
Definition mutating_orbium : Engine.Species :=
  {| Engine.name := "Orbium (Mutating)";
     Engine.color := Engine.color Engine.orbium;
     Engine.radius := 10; Engine.timescale := 10;
     Engine.beta := [1; 1; 1];
     Engine.growthParams := {| Engine.mu := 0.15; Engine.sigma := 0.017 |} |}.

Definition engine_mutating : Engine.Lenia :=
  {| Engine.SPECIES := Engine.SPECIES0;
     Engine.textures := Engine.textures engine0;
     Engine.currentBuffer := false;
     Engine.currentSpecies := "orbium";
     Engine.mutationMode := true;
     Engine.mutatedParams := Some mutating_orbium;
     Engine.mutationSpeed := 0.0005;
     Engine.timeScale := 1;
     Engine.trailEnabled := false;
     Engine.trailAmount := 0.95 |}.

Definition zero_params : Engine.Params :=
  {| Engine.p_R := 0; Engine.p_T := 0; Engine.p_mu := 0.15;
     Engine.p_sigma := 0 |}.

Definition negative_params : Engine.Params :=
  {| Engine.p_R := -3; Engine.p_T := -1; Engine.p_mu := 0.15;
     Engine.p_sigma := -0.01 |}.

Definition ecosystem0 : Ecosystem.LeniaEcosystem :=
  Ecosystem.new 64 64 grey_seed.

(** A field that is 1 in the single cell [(cx, cy)] and 0 elsewhere. *)
Definition spot_seed (cx cy : Z) : Z -> Z -> vec4 :=
  fun i j => if ((i =? cx) && (j =? cy))%Z then Vec4 1 1 1 1 else Vec4 0 0 0 1.

(** A 64 x 64 single-species field whose only non-zero cell is [(13, 0)]. *)
Definition spot_field : texture :=
  texImage2D (Engine.createTexture 64 64) (spot_seed 13 0).

(** Uniforms with kernel radius 14, a value [mutate()] reaches. *)
Definition radius14 : Sim.uniforms :=
  {| Sim.u_R := 14; Sim.u_T := 10; Sim.u_mu := 0.15; Sim.u_sigma := 0.017;
     Sim.u_dt := 1; Sim.u_trail := 1 |}.

(** A 4 x 4 ecosystem whose only non-zero cell is [(0, 0)]. *)
Definition corner_ecosystem : Ecosystem.LeniaEcosystem :=
  Ecosystem.new 4 4 (spot_seed 0 0).

(** An ecosystem with predation and benefit strength 0 on the field [seed]. *)
Definition neutral_ecosystem (w h : Z) (seed : Z -> Z -> vec4)
    : Ecosystem.LeniaEcosystem :=
  {| Ecosystem.textures := Ecosystem.textures (Ecosystem.new w h seed);
     Ecosystem.currentBuffer := false;
     Ecosystem.predationStrength := 0;
     Ecosystem.benefitStrength := 0;
     Ecosystem.timeScale := 0.5 |}.

(** A field that holds [c] in the single cell [(32, 32)] and 0 elsewhere. *)
Definition cell_seed (c : vec4) : Z -> Z -> vec4 :=
  fun i j => if ((i =? 32) && (j =? 32))%Z then c else Vec4 0 0 0 1.

Definition crowded_cell : vec4 := Vec4 0.4 1 1 1.
Definition lone_prey_cell : vec4 := Vec4 0.4 0 0 1.
Definition sparse_cell : vec4 := Vec4 0.2 0.1 0.1 1.

(** What the "Save Current" button passes for the sliders' default values. *)
Definition user_params (n : string) : Presets.PresetParams :=
  {| Presets.name := n; Presets.p_R := 13; Presets.p_T := 10;
     Presets.p_mu := 0.15; Presets.p_sigma := 0.015;
     Presets.description := "User saved preset" |}.

Definition sixteen_names : list string :=
  [ "a01"; "a02"; "a03"; "a04"; "a05"; "a06"; "a07"; "a08";
    "a09"; "a10"; "a11"; "a12"; "a13"; "a14"; "a15"; "a16" ].

(** A gallery that holds 20 presets: the four defaults and sixteen saved. *)
Definition full_gallery : Presets.PresetGallery :=
  snd (Presets.saveAll 1 (map (fun n => (n, user_params n)) sixteen_names)
         (Presets.new 0 true None)).

(** ** Further methods of the Lenia class *)

Module LeniaOps.
Import Engine.

(** [clear()]: uploads an all-zero [Uint8Array] into the current texture. *)
Definition clear (e : Lenia) : Lenia :=
  let cleared := texImage2D (current_texture e) (fun _ _ => Vec4 0 0 0 0) in
  {| SPECIES := SPECIES e;
     textures := if currentBuffer e
                 then (fst (textures e), cleared)
                 else (cleared, snd (textures e));
     currentBuffer := currentBuffer e;
     currentSpecies := currentSpecies e;
     mutationMode := mutationMode e;
     mutatedParams := mutatedParams e;
     mutationSpeed := mutationSpeed e;
     timeScale := timeScale e;
     trailEnabled := trailEnabled e;
     trailAmount := trailAmount e |}.

End LeniaOps.

(** ** Further methods of the LeniaEcosystem class *)

Module EcosystemOps.
Import Ecosystem.

(** [clear()] *)
Definition clear (e : LeniaEcosystem) : LeniaEcosystem :=
  let cleared := texImage2D (current_texture e) (fun _ _ => Vec4 0 0 0 0) in
  {| textures := if currentBuffer e
                 then (fst (textures e), cleared)
                 else (cleared, snd (textures e));
     currentBuffer := currentBuffer e;
     predationStrength := predationStrength e;
     benefitStrength := benefitStrength e;
     timeScale := timeScale e |}.

End EcosystemOps.

(** ** Further methods of the PresetGallery class *)

Module PresetOps.
Import Presets.

(** The values a read of [this.presets[id]] can yield. *)
Inductive JsValue :=
  | VPreset (p : Preset)        (* a preset object *)
  | VString (s : string)
  | VNumber (r : R)
  | VBuiltin (name : string)    (* a member of [Object.prototype] *)
  | VUndefined
  | VNull.

(** JavaScript truthiness. *)
Definition truthy (v : JsValue) : bool :=
  match v with
  | VPreset _ => true
  | VString s => negb (bool_decide (s = ""))
  | VNumber r => if Req_dec_T r 0 then false else true
  | VBuiltin _ => true
  | VUndefined => false
  | VNull => false
  end.

(** The own property [id] of a preset object [{ ...params, created }]. *)
Definition preset_property (p : Preset) (id : string) : option JsValue :=
  if bool_decide (id = "name") then Some (VString (name (params p)))
  else if bool_decide (id = "R") then Some (VNumber (p_R (params p)))
  else if bool_decide (id = "T") then Some (VNumber (p_T (params p)))
  else if bool_decide (id = "mu") then Some (VNumber (p_mu (params p)))
  else if bool_decide (id = "sigma") then Some (VNumber (p_sigma (params p)))
  else if bool_decide (id = "description")
       then Some (VString (description (params p)))
  else if bool_decide (id = "created") then Some (VNumber (IZR (created p)))
  else None.

(** What [Object.prototype] yields for [id]. *)
Definition object_prototype_get (id : string) : JsValue :=
  if bool_decide (id ∈ object_prototype_names) then VBuiltin id else VUndefined.

(** [o[id]]: the own property, else the property of the prototype chain.
    [__proto__] read through the chain yields the prototype itself. *)
Definition get (o : JsObject) (id : string) : JsValue :=
  match own o !! id with
  | Some p => VPreset p
  | None =>
      match proto o with
      | None => object_prototype_get id
      | Some p =>
          match preset_property p id with
          | Some v => v
          | None =>
              if bool_decide (id = "__proto__") then VPreset p
              else object_prototype_get id
          end
      end
  end.

(** [loadPreset(id)]: [this.presets[id] || null] *)
Definition loadPreset (id : string) (g : PresetGallery) : JsValue :=
  let v := get (presets g) id in
  if truthy v then v else VNull.

(** [deletePreset(id)]: [delete] removes an own property only. *)
Definition deletePreset (quota_ok : bool) (id : string) (g : PresetGallery)
    : PresetGallery :=
  savePresetsToStorage quota_ok
    {| presets := {| own := delete id (own (presets g));
                     proto := proto (presets g) |};
       maxPresets := maxPresets g;
       stored := stored g |}.

(** What [JSON.parse] returns on text that parses.  An object whose values
    are presets is what [exportPresets] writes.  A string, an array or an
    object with other values would put values that are no presets into the
    gallery; they are outside this model. *)
Inductive JsonValue :=
  | JNull
  | JPrimitive                               (* a number or a boolean *)
  | JPresets (imported : gmap string Preset).

(** The own enumerable properties that a spread [...imported] copies. *)
Definition spread (imported : JsonValue) : gmap string Preset :=
  match imported with
  | JPresets m => m
  | JNull | JPrimitive => ∅
  end.

(** [Object.keys(imported).length]; [Object.keys(null)] throws a TypeError,
    whose message [null_message] the engine chooses. *)
Definition keys_count (null_message : string) (imported : JsonValue)
    : outcome nat :=
  match imported with
  | JNull => Threw null_message
  | JPrimitive => Returned 0%nat
  | JPresets m => Returned (size m)
  end.

(** [importPresets(jsonString)]; [parsed] is the result of [JSON.parse]: the
    message of its SyntaxError, or the value.  The spread
    [{ ...this.presets, ...imported }] builds a fresh plain object in which
    the imported entries win; it is assigned and written to storage before
    the keys are counted, and an exception of any of the three steps is
    thrown again as ['Invalid preset JSON: ' + e.message]. *)
Definition importPresets (quota_ok : bool) (null_message : string)
    (parsed : string + JsonValue) (g : PresetGallery)
    : outcome nat * PresetGallery :=
  match parsed with
  | inl message => (Threw ("Invalid preset JSON: " +:+ message), g)
  | inr imported =>
      let g1 := {| presets := {| own := spread imported ∪ own (presets g);
                                 proto := None |};
                   maxPresets := maxPresets g;
                   stored := stored g |} in
      let g2 := savePresetsToStorage quota_ok g1 in
      match keys_count null_message imported with
      | Returned n => (Returned n, g2)
      | Threw message => (Threw ("Invalid preset JSON: " +:+ message), g2)
      end
  end.

(** The comparator [(a, b) => b[1].created - a[1].created] puts [a] before
    [b] when it is not negative the other way round; [insert_newest]
    places an entry in front of the first one that is not newer, which is
    what a stable sort does with an entry that came earlier. *)
Fixpoint insert_newest (x : string * Preset) (l : list (string * Preset))
    : list (string * Preset) :=
  match l with
  | [] => [x]
  | y :: l' =>
      if (created (snd y) <=? created (snd x))%Z
      then x :: y :: l'
      else y :: insert_newest x l'
  end.

(** [getAllPresets()] on [entries], the list [Object.entries(this.presets)]
    in its enumeration order: the stable sort, newest first. *)
Definition getAllPresets (entries : list (string * Preset))
    : list (string * Preset) :=
  fold_right insert_newest [] entries.

End PresetOps.

(** ** CREATURE_TEMPLATES: the pattern generators *)

Module Templates.

(** [Math.atan2(y, x)] *)
Definition atan2 (y x : R) : R :=
  if Rlt_dec 0 x then atan (y / x)
  else if Rlt_dec x 0 then
    (if Rle_dec 0 y then atan (y / x) + PI else atan (y / x) - PI)
  else if Rlt_dec 0 y then PI / 2
  else if Rlt_dec y 0 then - (PI / 2)
  else 0.

(** [Math.pow(base, 1.5)] for a positive base. *)
Definition pow15 (base : R) : R := Rpower base 1.5.

(** Each generator is given by the value it stores in
    [pattern[y * size + x]]; [size], [x] and [y] are integers. *)

Definition orbium_cell (size x y : Z) : R :=
  let cx := IZR size / 2 in
  let cy := IZR size / 2 in
  let r1 := IZR size * 0.35 in
  let r2 := IZR size * 0.15 in
  let dx := IZR x - cx in
  let dy := IZR y - cy in
  let dist := sqrt (dx * dx + dy * dy) in
  if Rlt_dec dist r1 then exp (- ((dist - r2) / (r1 * 0.3)) ^ 2) else 0.

Definition geminium_cell (size x y : Z) : R :=
  let offset := IZR size * 0.15 in
  let dx1 := IZR x - (IZR size / 2 - offset) in
  let dy1 := IZR y - IZR size / 2 in
  let dx2 := IZR x - (IZR size / 2 + offset) in
  let dy2 := IZR y - IZR size / 2 in
  let r := IZR size * 0.25 in
  let d1 := sqrt (dx1 * dx1 + dy1 * dy1) in
  let d2 := sqrt (dx2 * dx2 + dy2 * dy2) in
  let v1 := if Rlt_dec d1 r then exp (- (d1 / (r * 0.5)) ^ 2) else 0 in
  let v2 := if Rlt_dec d2 r then exp (- (d2 / (r * 0.5)) ^ 2) else 0 in
  Rmax v1 v2.

(** One pass of the loop over the segments [s] of the trilobite. *)
Definition trilobite_segment (size x y : Z) (value : R) (s : Z) : R :=
  let segments := 5 in
  let cx := IZR size / 2 in
  let sy := (IZR s + 0.5) * (IZR size * 0.8) / segments + IZR size * 0.1 in
  let segmentR :=
    (IZR size * 0.15) * (1 - Rabs (IZR s - segments / 2) / segments) in
  let dx := IZR x - cx in
  let dy := IZR y - sy in
  let dist := sqrt (dx * dx + dy * dy) in
  if Rlt_dec dist segmentR
  then Rmax value (exp (- (dist / (segmentR * 0.6)) ^ 2))
  else value.

Definition trilobite_cell (size x y : Z) : R :=
  fold_left (trilobite_segment size x y) (zrange 0 5) 0.

Definition scutium_cell (size x y : Z) : R :=
  let cx := IZR size / 2 in
  let cy := IZR size / 2 in
  let dx := (IZR x - cx) / IZR size in
  let dy := (IZR y - cy) / IZR size in
  let r := 0.35 - dy * 0.15 in
  let dist := Rabs dx / r in
  let yDist := Rabs dy / 0.35 in
  if Rlt_dec dist 1 then
    if Rlt_dec yDist 1 then
      let edge := 1 - Rmax dist yDist in
      pow15 edge
    else 0
  else 0.

Definition pulsar_cell (size x y : Z) : R :=
  let cx := IZR size / 2 in
  let cy := IZR size / 2 in
  let dx := IZR x - cx in
  let dy := IZR y - cy in
  let dist := sqrt (dx * dx + dy * dy) in
  let angle := atan2 dy dx in
  let r1 := IZR size * 0.2 in
  let r2 := IZR size * 0.35 in
  if Rge_dec dist r1 then
    if Rle_dec dist r2 then
      let wave := sin (angle * 6) * 0.5 + 0.5 in
      wave * exp (- ((dist - (r1 + r2) / 2) / ((r2 - r1) * 0.4)) ^ 2)
    else 0
  else exp (- (dist / (r1 * 0.5)) ^ 2) * 0.5.

(** One pass of the loop over the tentacles [t] of the swimmer. *)
Definition swimmer_tentacle (size : Z) (dx dy : R) (value : R) (t : Z) : R :=
  let tentacleSpacing := IZR size * 0.15 in
  let tentacleWidth := IZR size * 0.05 in
  let tx := IZR t * tentacleSpacing in
  let tentacleDist := Rabs (dx - tx) in
  if Rlt_dec tentacleDist tentacleWidth then
    let wave := sin (dy * 0.3 + IZR t * 0.5) * tentacleWidth * 0.3 in
    let adjustedDist := Rabs (dx - tx - wave) in
    if Rlt_dec adjustedDist tentacleWidth then
      let tv := exp (- (adjustedDist / (tentacleWidth * 0.6)) ^ 2) in
      let falloff := 1 - dy / (IZR size * 0.5) in
      Rmax value (tv * falloff * 0.7)
    else value
  else value.

Definition swimmer_cell (size x y : Z) : R :=
  let cx := IZR size / 2 in
  let cy := IZR size * 0.4 in
  let dx := IZR x - cx in
  let dy := IZR y - cy in
  let bellR := IZR size * 0.3 in
  let dist := sqrt (dx * dx + dy * dy) in
  let value :=
    if Rlt_dec dy 0 then
      if Rlt_dec dist bellR then exp (- (dist / (bellR * 0.6)) ^ 2) else 0
    else 0 in
  if Rlt_dec 0 dy then
    if Rlt_dec dy (IZR size * 0.5) then
      fold_left (swimmer_tentacle size dx dy) (zrange (-1) 3) value
    else value
  else value.

(** The [params] of a template. *)
Record TemplateParams := {
  t_R : R; t_T : R; t_mu : R; t_sigma : R; t_b : list R
}.

Record Template := {
  name : string;
  description : string;
  params : TemplateParams;
  generate : Z -> Z -> Z -> R      (* size, x, y *)
}.

Definition CREATURE_TEMPLATES : list (string * Template) :=
  [ ("orbium",
     {| name := "Orbium";
        description := "A smooth, spherical glider that moves diagonally";
        params := {| t_R := 13; t_T := 10; t_mu := 0.15; t_sigma := 0.015;
                     t_b := [1; 1; 1] |};
        generate := orbium_cell |});
    ("geminium",
     {| name := "Geminium";
        description := "Twins that orbit each other";
        params := {| t_R := 10; t_T := 10; t_mu := 0.14; t_sigma := 0.014;
                     t_b := [1; 0.5; 0.5] |};
        generate := geminium_cell |});
    ("trilobite",
     {| name := "Trilobite";
        description := "A segmented crawler with bilateral symmetry";
        params := {| t_R := 15; t_T := 12; t_mu := 0.13; t_sigma := 0.013;
                     t_b := [0.8; 1; 0.8] |};
        generate := trilobite_cell |});
    ("scutium",
     {| name := "Scutium";
        description := "A defensive shield that pulses while moving";
        params := {| t_R := 12; t_T := 8; t_mu := 0.16; t_sigma := 0.016;
                     t_b := [0.5; 1; 1] |};
        generate := scutium_cell |});
    ("pulsar",
     {| name := "Pulsar";
        description := "A stationary creature that breathes in place";
        params := {| t_R := 10; t_T := 10; t_mu := 0.145; t_sigma := 0.0145;
                     t_b := [1; 0.7; 1] |};
        generate := pulsar_cell |});
    ("swimmer",
     {| name := "Swimmer";
        description := "A jellyfish that propels itself through pulsing";
        params := {| t_R := 14; t_T := 11; t_mu := 0.135; t_sigma := 0.0135;
                     t_b := [1; 1; 0.8] |};
        generate := swimmer_cell |}) ].

End Templates.

(** ** The pixel loops of Lenia.spawnCreature and Lenia.paint *)

Module PixelOps.

(** [Math.floor] *)
Definition floor (r : R) : Z := Int_part r.

(** A number stored into a [Uint8Array] is truncated towards zero and
    taken modulo 256. *)
Definition trunc (r : R) : Z :=
  if Rle_dec 0 r then Int_part r else (- Int_part (- r))%Z.

Definition ToUint8 (r : R) : Z := (trunc r mod 256)%Z.

(** The array [data] read by [gl.readPixels]: the byte at each index.  The
    loops below only touch indices of pixels inside the grid. *)
Definition bytes : Type := Z -> Z.

(** [data[idx] = v] for a byte [v]. *)
Definition write (data : bytes) (idx v : Z) : bytes :=
  fun k => if (k =? idx)%Z then v else data k.

(** The body of the two loops of [spawnCreature] at the pattern cell
    [(sx, sy)]; [patternSize] is 64. *)
Definition spawn_cell (w h px py : Z) (scale : R)
    (creature : Templates.Template) (data : bytes) (sx sy : Z) : bytes :=
  let patternSize := 64%Z in
  let value := Templates.generate creature patternSize sx sy in
  if Rlt_dec value 0.01 then data
  else
    let tx := (px + floor ((IZR sx - IZR patternSize / 2) * scale))%Z in
    let ty := (py + floor ((IZR sy - IZR patternSize / 2) * scale))%Z in
    if ((tx <? 0) || (tx >=? w) || (ty <? 0) || (ty >=? h))%Z then data
    else
      let idx := ((ty * w + tx) * 4)%Z in
      let newVal := Z.min 255 (floor (value * 255)) in
      let data1 := write data idx (ToUint8 (IZR (Z.max (data idx) newVal))) in
      let data2 := write data1 (idx + 1) (data1 idx) in
      let data3 := write data2 (idx + 2) (data2 idx) in
      write data3 (idx + 3) 255%Z.

(** [spawnCreature(creature, x, y, scale)] on a [w] x [h] canvas: the array
    uploaded, from the array [data] read back from the current buffer. *)
Definition spawnCreature (w h : Z) (data : bytes)
    (creature : Templates.Template) (x y scale : R) : bytes :=
  let px := floor (x * IZR w) in
  let py := floor ((1 - y) * IZR h) in
  fold_left
    (fun data sy =>
       fold_left (fun data sx => spawn_cell w h px py scale creature data sx sy)
                 (zrange 0 64) data)
    (zrange 0 64) data.

(** The body of the two loops of [paint] at the offset [(dx, dy)], for an
    integer [radius].  With [radius] 0 the falloff [1 - 0 / 0] is NaN, which
    [Math.min] hands on and the array stores as 0. *)
Definition paint_pixel (w h px py radius : Z) (intensity : R)
    (data : bytes) (dx dy : Z) : bytes :=
  let dist := offset_dist dx dy in
  if Rgt_dec dist (IZR radius) then data
  else
    let nx := (px + dx)%Z in
    let ny := (py + dy)%Z in
    if ((nx <? 0) || (nx >=? w) || (ny <? 0) || (ny >=? h))%Z then data
    else
      let falloff := 1 - dist / IZR radius in
      let add := intensity * falloff * falloff in
      let idx := ((ny * w + nx) * 4)%Z in
      let data1 :=
        write data idx
              (if (radius =? 0)%Z then 0%Z
               else ToUint8 (Rmin 255 (IZR (data idx) + add))) in
      let data2 := write data1 (idx + 1) (data1 idx) in
      write data2 (idx + 2) (data2 idx).

(** The two loops of [paint] around the centre pixel [(px, py)] that its
    lines [const px = ...] and [const py = ...] have computed. *)
Definition paint_at (w h : Z) (data : bytes) (px py radius : Z)
    (intensity : R) : bytes :=
  fold_left
    (fun data dy =>
       fold_left (fun data dx => paint_pixel w h px py radius intensity data dx dy)
                 (loop_range radius) data)
    (loop_range radius) data.

(** [paint(x, y, radius, intensity)] on a [w] x [h] canvas, for an integer
    [radius] as in [paint(x, y)] and [paint(x, y, 15, 150)]: the array
    uploaded, from the array [data] read back from the current buffer. *)
Definition paint (w h : Z) (data : bytes) (x y : R) (radius : Z)
    (intensity : R) : bytes :=
  let px := floor (x * IZR w) in
  let py := floor ((1 - y) * IZR h) in
  paint_at w h data px py radius intensity.

End PixelOps.

(** ** The pixel loops of LeniaEcosystem.paint *)

Module EcoPixelOps.
Import PixelOps.

(** [{ prey: 0, predator: 1, apex: 2 }[species] || 0].  A name that the
    literal lacks is looked up in [Object.prototype]; what is found there is
    truthy and no number ([None]), and a name found nowhere gives 0. *)
Definition channel_of (species : string) : option Z :=
  if bool_decide (species = "prey") then Some 0%Z
  else if bool_decide (species = "predator") then Some 1%Z
  else if bool_decide (species = "apex") then Some 2%Z
  else if bool_decide (species ∈ Presets.object_prototype_names) then None
  else Some 0%Z.

(** The body of the two loops at the offset [(dx, dy)], for an integer
    [radius].  With [radius] 0 the ring distance [0 / 0] is NaN, which
    reaches the array and is stored as 0.  With a [channel] that is no number
    [idx + channel] is no index, and the first assignment changes no byte. *)
Definition paint_pixel (w h px py radius : Z) (intensity : R)
    (channel : option Z) (data : bytes) (dx dy : Z) : bytes :=
  let innerR := IZR radius * 0.4 in
  let ringCenter := IZR radius * 0.7 in
  let ringWidth := IZR radius * 0.3 in
  let dist := offset_dist dx dy in
  if Rgt_dec dist (IZR radius) then data
  else
    let nx := (px + dx)%Z in
    let ny := (py + dy)%Z in
    if ((nx <? 0) || (nx >=? w) || (ny <? 0) || (ny >=? h))%Z then data
    else
      let ringDist := Rabs (dist - ringCenter) / ringWidth in
      let ringVal := exp (- ringDist * ringDist * 1.5) in
      let coreVal :=
        if Rlt_dec dist innerR
        then exp (- (dist / innerR) ^ 2 * 2) * 0.5 else 0 in
      let value := Rmax ringVal coreVal * intensity in
      let idx := ((ny * w + nx) * 4)%Z in
      let data1 :=
        match channel with
        | Some c =>
            write data (idx + c)
                  (if (radius =? 0)%Z then 0%Z
                   else ToUint8 (Rmin 255 (IZR (data (idx + c)%Z) + value)))
        | None => data
        end in
      write data1 (idx + 3) 255%Z.

(** [paint(x, y, species, radius, intensity)] on a [w] x [h] canvas, for an
    integer [radius] as in [paint(x, y, this.paintSpecies)] and
    [paint(x, y, this.paintSpecies, 15, 120)]: the array uploaded, from the
    array [data] read back from the current buffer. *)
Definition paint (w h : Z) (data : bytes) (x y : R) (species : string)
    (radius : Z) (intensity : R) : bytes :=
  let channel := channel_of species in
  let px := floor (x * IZR w) in
  let py := floor ((1 - y) * IZR h) in
  fold_left
    (fun data dy =>
       fold_left
         (fun data dx => paint_pixel w h px py radius intensity channel data dx dy)
         (loop_range radius) data)
    (loop_range radius) data.

End EcoPixelOps.

(** ** LeniaEcosystem.getPopulationStats *)

Module EcoStats.
Import PixelOps.

(** The loop [for (let i = 0; i < data.length; i += 4)] over the array of a
    [w] x [h] canvas, with the three running sums. *)
Definition population_sums (w h : Z) (data : bytes) : Z * Z * Z :=
  fold_left
    (fun acc i =>
       let '(prey, pred, apex) := acc in
       (prey + data i, pred + data (i + 1), apex + data (i + 2))%Z)
    (map (fun n => (4 * n)%Z) (zrange 0 (Z.to_nat (w * h))))
    (0, 0, 0)%Z.

(** The three numbers that [getPopulationStats] formats with [toFixed(4)]. *)
Record PopulationStats := { prey : R; predator : R; apex : R }.

Definition getPopulationStats (w h : Z) (data : bytes) : PopulationStats :=
  let '(prey, pred, apex) := population_sums w h data in
  let pixels := IZR (w * h) in
  {| prey := IZR prey / pixels / 255;
     predator := IZR pred / pixels / 255;
     apex := IZR apex / pixels / 255 |}.

End EcoStats.

(** ** Vocabulary of the further statements *)

(** The two buffers of an engine have one and the same positive size. *)
Definition sized (current other : texture) : Prop :=
  (0 < width current)%Z /\ (0 < height current)%Z
  /\ width other = width current /\ height other = height current.

Definition well_sized (e : Engine.Lenia) : Prop :=
  sized (Engine.current_texture e)
        (Engine.texture_at e (negb (Engine.currentBuffer e))).

Definition eco_well_sized (e : Ecosystem.LeniaEcosystem) : Prop :=
  sized (Ecosystem.current_texture e)
        (Ecosystem.texture_at e (negb (Ecosystem.currentBuffer e))).

(** A channel is 0 in every cell of the field. *)
Definition channel_zero (channel : vec4 -> R) (t : texture) : Prop :=
  forall i j, in_grid t i j = true -> channel (texels t i j) = 0.

(** Every cell of the field holds [c] in the red channel. *)
Definition uniform_field (c : R) (t : texture) : Prop :=
  forall i j, in_grid t i j = true -> cr (texels t i j) = c.

(** [u] with another benefit strength. *)
Definition with_benefit (b : R) (u : Eco.uniforms) : Eco.uniforms :=
  {| Eco.u_dt := Eco.u_dt u; Eco.u_R := Eco.u_R u; Eco.u_T := Eco.u_T u;
     Eco.u_mu := Eco.u_mu u; Eco.u_sigma := Eco.u_sigma u;
     Eco.u_predation := Eco.u_predation u; Eco.u_benefit := b |}.

(** The three colour channels are 0 in every cell of the field. *)
Definition empty_field (t : texture) : Prop :=
  channel_zero cr t /\ channel_zero cg t /\ channel_zero cb t.

(** The entry [a] is listed before [b]: it is at least as new. *)
Definition newer_or_equal (a b : string * Presets.Preset) : Prop :=
  (Presets.created (snd b) <= Presets.created (snd a))%Z.

(** A store that has its original prototype and an id that no member of
    [Object.prototype] is named after. *)
Definition ordinary_id (id : string) : Prop :=
  id ∉ Presets.object_prototype_names.

(** Saving one preset after the other as the Save button does: a call that
    throws is caught and leaves the gallery as it was. *)
Definition save_sequence (calls : list (Z * string * Presets.PresetParams))
    (g : Presets.PresetGallery) : Presets.PresetGallery :=
  fold_left (fun g c => snd (Presets.savePreset (fst (fst c)) true
                                                (snd (fst c)) (snd c) g))
            calls g.

(** Every entry of the array is a byte. *)
Definition byte_array (data : PixelOps.bytes) : Prop :=
  forall k, (0 <= data k <= 255)%Z.

(** The index of the red byte of the pixel [(i, j)] of a canvas of width [w]. *)
Definition pixel_index (w i j : Z) : Z := ((j * w + i) * 4)%Z.

(** The red byte a brush of radius [radius] leaves on a pixel at distance
    [dist] from its centre whose red byte was [old]. *)
Definition brushed (radius : Z) (intensity : R) (old : Z) (dist : R) : Z :=
  PixelOps.ToUint8
    (Rmin 255 (IZR old
               + intensity * (1 - dist / IZR radius) * (1 - dist / IZR radius))).

(** The four bytes of the pixel with red index [idx] are the same in [a]
    and [b]. *)
Definition same_pixel (a b : PixelOps.bytes) (idx : Z) : Prop :=
  a idx = b idx /\ a (idx + 1)%Z = b (idx + 1)%Z
  /\ a (idx + 2)%Z = b (idx + 2)%Z /\ a (idx + 3)%Z = b (idx + 3)%Z.

(** The pixel with red index [idx] is grey in [a]: green and blue equal red. *)
Definition grey_pixel (a : PixelOps.bytes) (idx : Z) : Prop :=
  a (idx + 1)%Z = a idx /\ a (idx + 2)%Z = a idx.
(** ** Elementary facts *)

Lemma clamp_bounds (x lo hi : R) : lo <= hi -> lo <= clamp x lo hi <= hi.
Proof.
  intros Hle. unfold clamp, Rmin, Rmax.
  destruct (Rle_dec x lo); destruct (Rle_dec _ hi); lra.
Qed.

Lemma clamp_unit (x : R) : 0 <= clamp x 0 1 <= 1.
Proof. apply clamp_bounds; lra. Qed.

Lemma clamp_id (x lo hi : R) : lo <= x <= hi -> clamp x lo hi = x.
Proof.
  intros [H1 H2]. unfold clamp, Rmin, Rmax.
  destruct (Rle_dec x lo); destruct (Rle_dec _ hi); lra.
Qed.

Lemma clamp_mono (x y lo hi : R) : x <= y -> clamp x lo hi <= clamp y lo hi.
Proof.
  intros Hxy. unfold clamp.
  apply Rle_min_compat_r, Rle_max_compat_r, Hxy.
Qed.

Lemma growth_exponent_nonpos (d : R) : - d * d / 2 <= 0.
Proof. nra. Qed.

Lemma growth_upper (u mu sigma : R) : growth u mu sigma <= 1.
Proof.
  unfold growth.
  set (d := (u - mu) / sigma).
  assert (H : exp (- d * d / 2) <= 1).
  { destruct (Req_dec (- d * d / 2) 0) as [E | E].
    - rewrite E, exp_0; lra.
    - left. rewrite <- exp_0. apply exp_increasing.
      pose proof (growth_exponent_nonpos d). lra. }
  lra.
Qed.

Lemma growth_lower (u mu sigma : R) : -1 < growth u mu sigma.
Proof.
  unfold growth.
  pose proof (exp_pos (- ((u - mu) / sigma) * ((u - mu) / sigma) / 2)). lra.
Qed.

(** C8: the growth function [2*exp(-((u-mu)/sigma)^2/2) - 1] takes the value 1
    at [u = mu], which is its maximum; it is even about [mu], that is
    [growth (mu - k*sigma) = growth (mu + k*sigma)] for every real [k]; and all
    its values lie in the half-open interval (-1, 1]. *)
Theorem growth_peak_symmetry_range (mu sigma k : R) (Hsigma : 0 < sigma) :
  growth mu mu sigma = 1
  /\ (forall u, growth u mu sigma <= growth mu mu sigma)
  /\ growth (mu - k * sigma) mu sigma = growth (mu + k * sigma) mu sigma
  /\ (forall u, -1 < growth u mu sigma <= 1).
Proof.
  assert (Hpeak : growth mu mu sigma = 1).
  { unfold growth.
    replace (- ((mu - mu) / sigma) * ((mu - mu) / sigma) / 2) with 0
      by (field; lra).
    rewrite exp_0. lra. }
  split; [exact Hpeak|].
  split; [intro u; rewrite Hpeak; apply growth_upper|].
  split.
  - unfold growth. f_equal. f_equal. f_equal. field. lra.
  - intro u. split; [apply growth_lower | apply growth_upper].
Qed.

Lemma growth_peak_symmetry_range_witness :
  0 < 0.017
  /\ growth 0.15 0.15 0.017 = 1
  /\ growth (0.15 - 2 * 0.017) 0.15 0.017 = growth (0.15 + 2 * 0.017) 0.15 0.017.
Proof.
  assert (H : 0 < 0.017) by lra.
  split; [exact H|].
  destruct (growth_peak_symmetry_range 0.15 0.017 2 H) as (H1 & _ & H3 & _).
  split; [exact H1 | exact H3].
Defined.

(** ** Texture addressing *)

Lemma in_grid_spec (t : texture) (i j : Z) :
  in_grid t i j = true <-> (0 <= i < width t)%Z /\ (0 <= j < height t)%Z.
Proof. unfold in_grid. rewrite !andb_true_iff. lia. Qed.

Lemma wrap_coord_in_range (m : WrapMode) (n i : Z) :
  (0 <= i < n)%Z -> wrap_coord m n i = i.
Proof.
  intros Hi. destruct m; simpl.
  - apply Z.mod_small; lia.
  - lia.
Qed.

Lemma texture2D_complete (t : texture) (i j : Z) :
  complete t = true ->
  texture2D t i j = texels t (wrap_coord (wrap_s t) (width t) i)
                             (wrap_coord (wrap_t t) (height t) j).
Proof. intros H. unfold texture2D. rewrite H. reflexivity. Qed.

Lemma texture2D_incomplete (t : texture) (i j : Z) :
  complete t = false -> texture2D t i j = Vec4 0 0 0 1.
Proof. intros H. unfold texture2D. rewrite H. reflexivity. Qed.

Lemma texture2D_in_grid (t : texture) (i j : Z) :
  complete t = true -> in_grid t i j = true -> texture2D t i j = texels t i j.
Proof.
  intros Hc H. apply in_grid_spec in H as [Hi Hj].
  rewrite texture2D_complete by exact Hc.
  rewrite !wrap_coord_in_range by assumption. reflexivity.
Qed.

Lemma complete_same (t t' : texture) :
  wrap_s t' = wrap_s t -> wrap_t t' = wrap_t t ->
  width t' = width t -> height t' = height t ->
  complete t' = complete t.
Proof. intros Hs Ht Hw Hh. unfold complete. rewrite Hs, Ht, Hw, Hh. reflexivity. Qed.

Lemma complete_drawArrays (target : texture) (frag : Z -> Z -> vec4) :
  complete (drawArrays target frag) = complete target.
Proof. reflexivity. Qed.

Lemma complete_clamped (t : texture) :
  wrap_s t = CLAMP_TO_EDGE -> wrap_t t = CLAMP_TO_EDGE ->
  (0 < width t)%Z -> (0 < height t)%Z -> complete t = true.
Proof.
  intros Hs Ht Hw Hh. unfold complete. rewrite Hs, Ht.
  apply Z.ltb_lt in Hw, Hh. rewrite Hw, Hh. reflexivity.
Qed.

Lemma is_pow2_pos (n : Z) : is_pow2 n = true -> (0 < n)%Z.
Proof.
  unfold is_pow2. intros H. apply andb_true_iff in H as [H _].
  apply Z.ltb_lt in H. exact H.
Qed.

Lemma complete_pow2 (t : texture) :
  is_pow2 (width t) = true -> is_pow2 (height t) = true -> complete t = true.
Proof.
  intros Hw Hh. unfold complete. rewrite Hw, Hh.
  apply is_pow2_pos, Z.ltb_lt in Hw. apply is_pow2_pos, Z.ltb_lt in Hh.
  rewrite Hw, Hh. destruct (wrap_s t), (wrap_t t); reflexivity.
Qed.

Lemma incomplete_repeat (t : texture) :
  wrap_s t = REPEAT \/ wrap_t t = REPEAT ->
  is_pow2 (width t) = false \/ is_pow2 (height t) = false ->
  complete t = false.
Proof.
  intros Hwrap Hsize. unfold complete.
  assert (Hp : is_pow2 (width t) && is_pow2 (height t) = false)
    by (destruct Hsize as [-> | ->];
        [reflexivity | apply andb_false_r]).
  destruct Hwrap as [-> | ->]; [|destruct (wrap_s t)];
    rewrite Hp; apply andb_false_r.
Qed.

Lemma drawArrays_texel (target : texture) (frag : Z -> Z -> vec4) (i j : Z) :
  in_grid target i j = true -> texels (drawArrays target frag) i j = frag i j.
Proof. intros H. simpl. rewrite H. reflexivity. Qed.

Lemma in_grid_drawArrays (target : texture) (frag : Z -> Z -> vec4) (i j : Z) :
  in_grid (drawArrays target frag) i j = in_grid target i j.
Proof. reflexivity. Qed.

(** ** The single-species engine *)

Section EngineFacts.
Import Engine.

Lemma main_texel (u : Sim.uniforms) (t : texture) (x y : Z) :
  Sim.main u t x y =
  let v := clamp (cr (texture2D t x y)
                  + growth (Sim.potential u t x y) (Sim.u_mu u) (Sim.u_sigma u)
                    * Sim.u_dt u / Sim.u_T u) 0 1 * Sim.u_trail u in
  Vec4 v v v 1.
Proof. reflexivity. Qed.

Lemma main_unit (u : Sim.uniforms) (t : texture) (x y : Z) :
  0 <= Sim.u_trail u <= 1 -> unit_vec4 (Sim.main u t x y).
Proof.
  intros Htrail. rewrite main_texel. cbv zeta. unfold unit_vec4; simpl.
  match goal with |- context [clamp ?a 0 1] =>
    pose proof (clamp_unit a) as Hc; set (c := clamp a 0 1) in * end.
  repeat split; nra.
Qed.

Lemma mutate_fields (d : Draws) (e : Lenia) :
  SPECIES (mutate d e) = SPECIES e
  /\ textures (mutate d e) = textures e
  /\ currentBuffer (mutate d e) = currentBuffer e
  /\ currentSpecies (mutate d e) = currentSpecies e
  /\ mutationMode (mutate d e) = mutationMode e
  /\ mutationSpeed (mutate d e) = mutationSpeed e
  /\ timeScale (mutate d e) = timeScale e
  /\ trailEnabled (mutate d e) = trailEnabled e
  /\ trailAmount (mutate d e) = trailAmount e.
Proof. unfold mutate. destruct (mutatedParams e); simpl; repeat split. Qed.

Lemma tick_state_fields (d : Draws) (e : Lenia) :
  SPECIES (tick_state d e) = SPECIES e
  /\ textures (tick_state d e) = textures e
  /\ currentBuffer (tick_state d e) = currentBuffer e
  /\ currentSpecies (tick_state d e) = currentSpecies e
  /\ timeScale (tick_state d e) = timeScale e
  /\ trailEnabled (tick_state d e) = trailEnabled e
  /\ trailAmount (tick_state d e) = trailAmount e.
Proof.
  unfold tick_state. destruct (mutationMode e); [|repeat split].
  pose proof (mutate_fields d e) as H. tauto.
Qed.

Lemma current_texture_swap (e : Lenia) (t : texture) (b : bool) (S0 : gmap string Species)
    cs mm mp ms ts te ta :
  current_texture
    {| SPECIES := S0;
       textures := if b then (fst (textures e), t) else (t, snd (textures e));
       currentBuffer := b; currentSpecies := cs; mutationMode := mm;
       mutatedParams := mp; mutationSpeed := ms; timeScale := ts;
       trailEnabled := te; trailAmount := ta |} = t.
Proof. unfold current_texture, texture_at; simpl. destruct b; reflexivity. Qed.

(** What one successful tick does to the fields the statements look at. *)
Lemma step_returned (d : Draws) (e : Lenia) (params : Species) :
  step_params d e = Some params ->
  exists e',
    step d e = Returned e'
    /\ current_texture e' =
         drawArrays (texture_at e (negb (currentBuffer e)))
                    (Sim.main (step_uniforms params (tick_state d e))
                              (current_texture e))
    /\ texture_at e' (negb (currentBuffer e')) = current_texture e
    /\ SPECIES e' = SPECIES e
    /\ currentSpecies e' = currentSpecies e
    /\ trailAmount e' = trailAmount e.
Proof.
  intros Hp. unfold step. rewrite Hp.
  destruct (tick_state_fields d e) as (HS & HT & HB & HC & _ & _ & HA).
  eexists. split; [reflexivity|].
  rewrite current_texture_swap.
  unfold current_texture, texture_at; simpl. rewrite HT, HB, HS, HC, HA.
  repeat split.
  destruct (currentBuffer e); reflexivity.
Qed.

Lemma step_uniforms_trail (params : Species) (e : Lenia) :
  0 <= trailAmount e <= 1 -> 0 <= Sim.u_trail (step_uniforms params e) <= 1.
Proof. intros H. simpl. destruct (trailEnabled e); lra. Qed.

Lemma step_params_defined (d : Draws) (e : Lenia) :
  is_Some (SPECIES e !! currentSpecies e) -> is_Some (step_params d e).
Proof.
  intros [sp Hsp]. unfold step_params. rewrite Hsp.
  destruct (mutatedParams _); eauto.
Qed.

(** Boundedness over any number of ticks of the single-species engine. *)
Lemma run_unit_range (ds : list Draws) :
  forall e : Lenia,
    unit_range (current_texture e) ->
    0 <= trailAmount e <= 1 ->
    is_Some (SPECIES e !! currentSpecies e) ->
    exists e', run ds e = Returned e' /\ unit_range (current_texture e').
Proof.
  induction ds as [|d ds IH]; intros e Hunit Htrail Hsp.
  - exists e. split; [reflexivity | exact Hunit].
  - destruct (step_params_defined d e Hsp) as [params Hparams].
    destruct (step_returned d e params Hparams)
      as (e1 & Hstep & Hcur & _ & HS & HC & HA).
    simpl. rewrite Hstep. apply IH.
    + rewrite Hcur. intros i j Hij. rewrite in_grid_drawArrays in Hij.
      rewrite drawArrays_texel by exact Hij.
      apply main_unit, step_uniforms_trail.
      destruct (tick_state_fields d e) as (_ & _ & _ & _ & _ & _ & HA').
      rewrite HA'. exact Htrail.
    + rewrite HA. exact Htrail.
    + rewrite HS, HC. exact Hsp.
Qed.

End EngineFacts.

(** ** The ecosystem engine *)

Section EcosystemFacts.
Import Ecosystem.

Lemma eco_main_unit (u : Eco.uniforms) (t : texture) (x y : Z) :
  unit_vec4 (Eco.main u t x y).
Proof.
  unfold Eco.main. cbv zeta. unfold unit_vec4; simpl.
  repeat match goal with |- context [clamp ?a 0 1] =>
    let Hc := fresh "Hc" in
    pose proof (clamp_unit a) as Hc;
    let c := fresh "c" in set (c := clamp a 0 1) in *; clearbody c end.
  repeat split; lra.
Qed.

Lemma eco_step_current (e : LeniaEcosystem) :
  current_texture (step e) =
  drawArrays (texture_at e (negb (currentBuffer e)))
             (Eco.main (step_uniforms e) (current_texture e)).
Proof.
  unfold step, current_texture, texture_at; simpl.
  destruct (currentBuffer e); reflexivity.
Qed.

Lemma eco_step_unit_range (e : LeniaEcosystem) :
  unit_range (current_texture (step e)).
Proof.
  rewrite eco_step_current. intros i j Hij.
  rewrite in_grid_drawArrays in Hij.
  rewrite drawArrays_texel by exact Hij. apply eco_main_unit.
Qed.

Lemma eco_run_unit_range (n : nat) :
  forall e : LeniaEcosystem,
    unit_range (current_texture e) -> unit_range (current_texture (run n e)).
Proof.
  induction n as [|n IH]; intros e He; simpl.
  - exact He.
  - apply IH, eco_step_unit_range.
Qed.

End EcosystemFacts.

(** ** Boundedness *)

(** C1: from a field whose cells all hold values in [0,1], any number of
    ticks of the single-species engine (trail multiplication included, its
    factor being in [0,1]) returns a field whose cells all hold values in
    [0,1], and so does any number of ticks of the ecosystem engine (decay
    factors included); a single update step is the case of one tick. *)
Theorem field_stays_in_unit_range :
  (forall (e : Engine.Lenia) (ds : list Engine.Draws),
      unit_range (Engine.current_texture e) ->
      0 <= Engine.trailAmount e <= 1 ->
      is_Some (Engine.SPECIES e !! Engine.currentSpecies e) ->
      exists e', Engine.run ds e = Returned e'
                 /\ unit_range (Engine.current_texture e'))
  /\ (forall (e : Ecosystem.LeniaEcosystem) (n : nat),
      unit_range (Ecosystem.current_texture e) ->
      unit_range (Ecosystem.current_texture (Ecosystem.run n e))).
Proof.
  split.
  - intros e ds. apply run_unit_range.
  - intros e n. apply eco_run_unit_range.
Qed.

Lemma grey_seed_unit (w h : Z) (m : WrapMode) :
  unit_range (Tex m m w h grey_seed).
Proof. intros i j _. unfold unit_vec4, grey_seed; simpl. lra. Qed.

Lemma engine0_species : Engine.SPECIES engine0 !! Engine.currentSpecies engine0
                        = Some Engine.orbium.
Proof. reflexivity. Qed.

Lemma field_stays_in_unit_range_witness :
  (exists e', Engine.run [mid_draws; high_draws] engine0 = Returned e'
              /\ unit_range (Engine.current_texture e'))
  /\ unit_range (Ecosystem.current_texture (Ecosystem.run 2 ecosystem0)).
Proof.
  destruct field_stays_in_unit_range as [Hsingle Heco].
  split.
  - apply Hsingle.
    + apply grey_seed_unit.
    + simpl. lra.
    + rewrite engine0_species. eexists. reflexivity.
  - apply Heco. apply grey_seed_unit.
Defined.

(** ** The update rule of one tick *)



(** ** Mutation *)

Section MutationFacts.
Import Engine.

Lemma js_clamp_range (lo hi v : R) : lo <= hi -> lo <= Rmax lo (Rmin hi v) <= hi.
Proof.
  intros H. unfold Rmax, Rmin.
  destruct (Rle_dec hi v); destruct (Rle_dec lo _); lra.
Qed.

Lemma mutate_params (d : Draws) (e : Lenia) (p : Species) :
  mutatedParams e = Some p ->
  exists p',
    mutatedParams (mutate d e) = Some p'
    /\ radius p' = Rmax 5 (Rmin 20 (radius p + (rand_R d - 0.5) * mutationSpeed e * 100))
    /\ timescale p' = Rmax 5 (Rmin 20 (timescale p + (rand_T d - 0.5) * mutationSpeed e * 100))
    /\ mu (growthParams p') =
         Rmax 0.05 (Rmin 0.3 (mu (growthParams p) + (rand_mu d - 0.5) * mutationSpeed e))
    /\ sigma (growthParams p') =
         Rmax 0.005 (Rmin 0.05 (sigma (growthParams p)
                                + (rand_sigma d - 0.5) * mutationSpeed e * 0.1)).
Proof.
  intros Hp. unfold mutate. rewrite Hp. eexists. split; [reflexivity|].
  simpl. repeat split.
Qed.

Lemma mutate_in_range (d : Draws) (e : Lenia) (p : Species) :
  mutatedParams e = Some p ->
  exists p', mutatedParams (mutate d e) = Some p' /\ in_mutation_range p'.
Proof.
  intros Hp. destruct (mutate_params d e p Hp) as (p' & H & HR & HT & Hmu & Hsig).
  exists p'. split; [exact H|].
  unfold in_mutation_range. rewrite HR, HT, Hmu, Hsig.
  repeat split; apply js_clamp_range; lra.
Qed.

Lemma mutate_n_in_range (ds : list Draws) :
  forall (e : Lenia) (p : Species),
    mutatedParams e = Some p -> in_mutation_range p ->
    exists p', mutatedParams (mutate_n ds e) = Some p' /\ in_mutation_range p'.
Proof.
  induction ds as [|d ds IH]; intros e p Hp Hrange.
  - exists p. split; assumption.
  - destruct (mutate_in_range d e p Hp) as (p1 & Hp1 & Hrange1).
    exact (IH (mutate d e) p1 Hp1 Hrange1).
Qed.

End MutationFacts.

(** C7: from working parameters with R and T in [5,20], mu in [0.05,0.3] and
    sigma in [0.005,0.05], one call of [mutate()] adds
    [(rand - 0.5) * speed * scale] to each tunable (scale 100 for R and T, 1
    for mu, 0.1 for sigma) and clamps the sum to the tunable's range; after any
    number of calls, with any draws, the four tunables are within their
    ranges. *)
Theorem mutation_walk_stays_in_range
    (e : Engine.Lenia) (p : Engine.Species) (ds : list Engine.Draws) :
  Engine.mutatedParams e = Some p ->
  in_mutation_range p ->
  (forall d : Engine.Draws,
      exists p',
        Engine.mutatedParams (Engine.mutate d e) = Some p'
        /\ Engine.radius p' =
             Rmax 5 (Rmin 20 (Engine.radius p
                              + (Engine.rand_R d - 0.5) * Engine.mutationSpeed e * 100))
        /\ Engine.timescale p' =
             Rmax 5 (Rmin 20 (Engine.timescale p
                              + (Engine.rand_T d - 0.5) * Engine.mutationSpeed e * 100))
        /\ Engine.mu (Engine.growthParams p') =
             Rmax 0.05 (Rmin 0.3 (Engine.mu (Engine.growthParams p)
                                  + (Engine.rand_mu d - 0.5) * Engine.mutationSpeed e))
        /\ Engine.sigma (Engine.growthParams p') =
             Rmax 0.005 (Rmin 0.05 (Engine.sigma (Engine.growthParams p)
                                    + (Engine.rand_sigma d - 0.5)
                                      * Engine.mutationSpeed e * 0.1)))
  /\ exists p', Engine.mutatedParams (Engine.mutate_n ds e) = Some p'
                /\ in_mutation_range p'.
Proof.
  intros Hp Hrange. split.
  - intro d. apply mutate_params, Hp.
  - apply (mutate_n_in_range ds e p Hp Hrange).
Qed.

Lemma mutating_orbium_in_range : in_mutation_range mutating_orbium.
Proof. unfold in_mutation_range, mutating_orbium; simpl. lra. Qed.

Lemma mutation_walk_stays_in_range_witness :
  exists p',
    Engine.mutatedParams
      (Engine.mutate_n [high_draws; mid_draws; high_draws] engine_mutating)
    = Some p'
    /\ in_mutation_range p'.
Proof.
  apply (mutation_walk_stays_in_range engine_mutating mutating_orbium
           [high_draws; mid_draws; high_draws]).
  - reflexivity.
  - exact mutating_orbium_in_range.
Defined.

Lemma toggleMutation_engine0 :
  Engine.toggleMutation engine0 = Returned engine_mutating.
Proof. reflexivity. Qed.

(** ** Parameter assignment *)

Section SetParametersFacts.
Import Engine.

Lemma js_or_zero (b : R) : js_or 0 b = b.
Proof. unfold js_or. destruct (Req_dec_T 0 0); [reflexivity | lra]. Qed.

Lemma js_or_nonzero (a b : R) : a <> 0 -> js_or a b = a.
Proof. intros H. unfold js_or. destruct (Req_dec_T a 0); [contradiction | reflexivity]. Qed.

Lemma setParameters_returns (params : Params) (e : Lenia) (base : Species) :
  SPECIES e !! currentSpecies e = Some base ->
  exists e',
    setParameters params e = Returned e'
    /\ currentSpecies e' = "custom"
    /\ textures e' = textures e
    /\ SPECIES e' !! "custom" =
       Some {| name := "Custom";
               color := color base;
               radius := js_or (p_R params) (radius base);
               timescale := js_or (p_T params) (timescale base);
               beta := beta base;
               growthParams :=
                 {| mu := js_or (p_mu params) (mu (growthParams base));
                    sigma := js_or (p_sigma params)
                                   (sigma (growthParams base)) |} |}.
Proof.
  intros Hbase. unfold setParameters. rewrite Hbase.
  eexists. split; [reflexivity|]. simpl.
  repeat split. apply lookup_insert_eq.
Qed.

End SetParametersFacts.

(** C4, as the code has it: [setParameters] has no validation.  For every
    parameter record, those with R <= 0, T <= 0 or sigma <= 0 included, and
    every engine whose current species is in the table, the call returns
    normally, stores the species [custom] and makes it the current one.  Of
    R, T, mu and sigma, a field equal to 0 is replaced by the value of the
    species that was current, and every other value, a negative one
    included, is stored as given; name, colour and kernel parameters are
    'Custom' and those of the species that was current. *)
Theorem setParameters_never_rejects
    (params : Engine.Params) (e : Engine.Lenia) (base : Engine.Species) :
  Engine.SPECIES e !! Engine.currentSpecies e = Some base ->
  ~ rejects params e
  /\ exists e' custom,
       Engine.setParameters params e = Returned e'
       /\ Engine.currentSpecies e' = "custom"
       /\ Engine.SPECIES e' = <["custom" := custom]> (Engine.SPECIES e)
       /\ Engine.SPECIES e' !! "custom" = Some custom
       /\ Engine.name custom = "Custom"
       /\ Engine.color custom = Engine.color base
       /\ Engine.beta custom = Engine.beta base
       /\ (Engine.p_R params = 0 -> Engine.radius custom = Engine.radius base)
       /\ (Engine.p_R params <> 0 -> Engine.radius custom = Engine.p_R params)
       /\ (Engine.p_T params = 0 -> Engine.timescale custom = Engine.timescale base)
       /\ (Engine.p_T params <> 0 -> Engine.timescale custom = Engine.p_T params)
       /\ (Engine.p_mu params = 0 ->
           Engine.mu (Engine.growthParams custom)
           = Engine.mu (Engine.growthParams base))
       /\ (Engine.p_mu params <> 0 ->
           Engine.mu (Engine.growthParams custom) = Engine.p_mu params)
       /\ (Engine.p_sigma params = 0 ->
           Engine.sigma (Engine.growthParams custom)
           = Engine.sigma (Engine.growthParams base))
       /\ (Engine.p_sigma params <> 0 ->
           Engine.sigma (Engine.growthParams custom) = Engine.p_sigma params).
Proof.
  intros Hbase.
  destruct (setParameters_returns params e base Hbase)
    as (e' & Hret & Hcur & _ & Hcustom).
  split.
  - intros [msg Hthrew]. rewrite Hret in Hthrew. discriminate.
  - eexists e', _. split; [exact Hret|]. split; [exact Hcur|].
    split.
    { unfold Engine.setParameters in Hret. rewrite Hbase in Hret.
      injection Hret as <-. reflexivity. }
    split; [exact Hcustom|]. simpl.
    repeat split; try (intros H);
      solve [ reflexivity | rewrite H; apply js_or_zero | apply js_or_nonzero, H ].
Qed.

Lemma setParameters_never_rejects_witness :
  ~ rejects negative_params engine0
  /\ exists e' custom,
       Engine.setParameters negative_params engine0 = Returned e'
       /\ Engine.SPECIES e' !! "custom" = Some custom
       /\ Engine.radius custom = -3
       /\ Engine.timescale custom = -1
       /\ Engine.mu (Engine.growthParams custom) = 0.15
       /\ Engine.sigma (Engine.growthParams custom) = -0.01.
Proof.
  destruct (setParameters_never_rejects negative_params engine0 Engine.orbium
              engine0_species)
    as (Hnot & e' & custom & Hret & _ & _ & Hcustom & _ & _ & _
        & _ & HR & _ & HT & _ & Hmu & _ & Hsig).
  split; [exact Hnot|].
  exists e', custom. split; [exact Hret|]. split; [exact Hcustom|].
  split; [|split; [|split]].
  - apply HR. simpl. lra.
  - apply HT. simpl. lra.
  - apply Hmu. simpl. lra.
  - apply Hsig. simpl. lra.
Defined.

(** C4 as stated fails: a record with R = 0, T = 0 and sigma = 0 is not
    rejected; the call returns, and the zero radius, time scale and width
    are replaced behind the caller's back by those of Orbium (10, 10 and
    0.017). *)
Lemma setParameters_zero_record_accepted :
  Engine.p_R zero_params <= 0
  /\ ~ rejects zero_params engine0
  /\ exists e' custom,
       Engine.setParameters zero_params engine0 = Returned e'
       /\ Engine.SPECIES e' !! Engine.currentSpecies e' = Some custom
       /\ Engine.radius custom = 10
       /\ Engine.timescale custom = 10
       /\ Engine.sigma (Engine.growthParams custom) = 0.017.
Proof.
  destruct (setParameters_returns zero_params engine0 Engine.orbium
              engine0_species) as (e' & Hret & Hcur & _ & Hcustom).
  split; [simpl; lra|]. split.
  - intros [msg Hthrew]. rewrite Hret in Hthrew. discriminate.
  - eexists e', _. split; [exact Hret|]. rewrite Hcur.
    split; [exact Hcustom|]. simpl. rewrite !js_or_zero. repeat split.
Qed.

(** ** Loops as sums *)

Section Folds.
Context {A B : Type}.

Lemma fold_left_nested {C : Type} (F : A -> B -> C -> A) (xs : list B) (ys : list C) :
  forall a : A,
    fold_left (fun acc y => fold_left (fun acc x => F acc x y) xs acc) ys a
    = fold_left (fun acc o => F acc (fst o) (snd o))
                (flat_map (fun y => map (fun x => (x, y)) xs) ys) a.
Proof.
  induction ys as [|y ys IH]; intros a; simpl; [reflexivity|].
  rewrite fold_left_app, IH. f_equal.
  clear IH. revert a. induction xs as [|x xs IHx]; intros a; simpl; [reflexivity|].
  apply IHx.
Qed.

Lemma fold_left_related {A' : Type} (Rel : A -> A' -> Prop)
    (f : A -> B -> A) (g : A' -> B -> A') (l : list B) :
  (forall a a' x, Rel a a' -> Rel (f a x) (g a' x)) ->
  forall a a', Rel a a' -> Rel (fold_left f l a) (fold_left g l a').
Proof.
  intros Hstep. induction l as [|x l IH]; intros a a' Ha; simpl; [exact Ha|].
  apply IH, Hstep, Ha.
Qed.

End Folds.

Lemma fold_left_guarded_sum (P : Z * Z -> bool) (f g : Z * Z -> R)
    (l : list (Z * Z)) :
  forall acc : R * R,
    fold_left (fun acc o => if P o then (fst acc + f o, snd acc + g o) else acc)
              l acc
    = (fst acc + Rsum (map f (List.filter P l)),
       snd acc + Rsum (map g (List.filter P l))).
Proof.
  induction l as [|o l IH]; intros [a b]; simpl.
  - f_equal; lra.
  - rewrite IH. destruct (P o); simpl; f_equal; lra.
Qed.

Lemma Rsum_app (l1 l2 : list R) : Rsum (l1 ++ l2) = Rsum l1 + Rsum l2.
Proof. induction l1 as [|x l1 IH]; simpl; [lra | rewrite IH; lra]. Qed.

Lemma Rsum_nonneg (l : list R) : (forall x, In x l -> 0 <= x) -> 0 <= Rsum l.
Proof.
  induction l as [|x l IH]; intros H; simpl; [lra|].
  assert (0 <= x) by (apply H; left; reflexivity).
  assert (0 <= Rsum l) by (apply IH; intros z Hz; apply H; right; exact Hz).
  lra.
Qed.

Lemma Rsum_ge_member (l : list R) (x : R) :
  (forall z, In z l -> 0 <= z) -> In x l -> x <= Rsum l.
Proof.
  induction l as [|z l IH]; intros Hpos Hin; [destruct Hin|].
  simpl. destruct Hin as [-> | Hin].
  - assert (0 <= Rsum l) by (apply Rsum_nonneg; intros w Hw; apply Hpos; right; exact Hw).
    lra.
  - assert (0 <= z) by (apply Hpos; left; reflexivity).
    assert (x <= Rsum l) by (apply IH; [intros w Hw; apply Hpos; right; exact Hw | exact Hin]).
    lra.
Qed.

Lemma Rsum_zero (l : list R) : (forall x, In x l -> x = 0) -> Rsum l = 0.
Proof.
  induction l as [|x l IH]; intros H; simpl; [reflexivity|].
  rewrite (H x) by (left; reflexivity).
  rewrite IH by (intros z Hz; apply H; right; exact Hz). lra.
Qed.

(** ** The loop ranges *)

Lemma In_zrange (n : nat) : forall lo x : Z,
  In x (zrange lo n) <-> (lo <= x < lo + Z.of_nat n)%Z.
Proof.
  induction n as [|n IH]; intros lo x; simpl.
  - lia.
  - rewrite IH. lia.
Qed.

Lemma In_loop_range (b x : Z) : In x (loop_range b) <-> (- b <= x <= b)%Z.
Proof. unfold loop_range. rewrite In_zrange. lia. Qed.

Lemma In_offsets (b dx dy : Z) :
  In (dx, dy) (offsets b) <-> (- b <= dx <= b)%Z /\ (- b <= dy <= b)%Z.
Proof.
  unfold offsets. rewrite in_flat_map. split.
  - intros (y & Hy & Hin). apply in_map_iff in Hin as (x & Heq & Hx).
    inversion Heq; subst. rewrite In_loop_range in Hx, Hy. tauto.
  - intros [Hx Hy]. exists dy. rewrite In_loop_range. split; [exact Hy|].
    apply in_map_iff. exists dx. rewrite In_loop_range. tauto.
Qed.

Lemma zrange_app (n m : nat) : forall lo : Z,
  zrange lo (n + m) = zrange lo n ++ zrange (lo + Z.of_nat n) m.
Proof.
  induction n as [|n IH]; intros lo.
  - simpl. f_equal. lia.
  - cbn [Nat.add zrange app]. rewrite IH. do 3 f_equal. lia.
Qed.

Lemma loop_range_split (b1 b2 : Z) :
  (0 <= b1 <= b2)%Z ->
  loop_range b2 =
  zrange (- b2) (Z.to_nat (b2 - b1)) ++ loop_range b1
  ++ zrange (b1 + 1) (Z.to_nat (b2 - b1)).
Proof.
  intros H. unfold loop_range.
  replace (Z.to_nat (2 * b2 + 1))
    with (Z.to_nat (b2 - b1) + (Z.to_nat (2 * b1 + 1) + Z.to_nat (b2 - b1)))%nat
    by lia.
  rewrite !zrange_app. do 2 f_equal; [f_equal; lia|]. f_equal. lia.
Qed.

(** ** Distances of integer offsets *)

Lemma offset_dist_nonneg (dx dy : Z) : 0 <= offset_dist dx dy.
Proof. apply sqrt_pos. Qed.

Lemma offset_dist_ge_x (dx dy : Z) : Rabs (IZR dx) <= offset_dist dx dy.
Proof.
  unfold offset_dist. cbv zeta. rewrite <- sqrt_Rsqr_abs.
  apply sqrt_le_1_alt. unfold Rsqr. nra.
Qed.

Lemma offset_dist_ge_y (dx dy : Z) : Rabs (IZR dy) <= offset_dist dx dy.
Proof.
  unfold offset_dist. cbv zeta. rewrite <- sqrt_Rsqr_abs.
  apply sqrt_le_1_alt. unfold Rsqr. nra.
Qed.

Lemma offset_dist_axis (dx : Z) : (0 <= dx)%Z -> offset_dist dx 0 = IZR dx.
Proof.
  intros H. unfold offset_dist. cbv zeta.
  replace (IZR dx * IZR dx + 0 * 0) with (Rsqr (IZR dx)) by (unfold Rsqr; lra).
  apply sqrt_Rsqr. apply IZR_le in H. exact H.
Qed.

Lemma offset_dist_small (dx dy : Z) :
  offset_dist dx dy < 0.5 -> dx = 0%Z /\ dy = 0%Z.
Proof.
  intros H.
  pose proof (offset_dist_ge_x dx dy) as Hx.
  pose proof (offset_dist_ge_y dx dy) as Hy.
  assert (Hx1 : Rabs (IZR dx) < 1) by lra.
  assert (Hy1 : Rabs (IZR dy) < 1) by lra.
  rewrite <- abs_IZR in Hx1, Hy1.
  apply lt_IZR in Hx1, Hy1. lia.
Qed.

Lemma within_spec (radius : R) (o : Z * Z) :
  within radius o = true <-> offset_dist (fst o) (snd o) <= radius.
Proof.
  unfold within. destruct (Rgt_dec _ _) as [H | H]; split; intros H';
    try discriminate; try reflexivity; lra.
Qed.

Lemma within_bounded (radius : R) (b dx dy : Z) :
  radius <= IZR b -> within radius (dx, dy) = true ->
  (- b <= dx <= b)%Z /\ (- b <= dy <= b)%Z.
Proof.
  intros Hb Hw. apply within_spec in Hw. simpl in Hw.
  pose proof (offset_dist_ge_x dx dy) as Hx.
  pose proof (offset_dist_ge_y dx dy) as Hy.
  assert (Hx1 : Rabs (IZR dx) <= IZR b) by lra.
  assert (Hy1 : Rabs (IZR dy) <= IZR b) by lra.
  rewrite <- abs_IZR in Hx1, Hy1.
  apply le_IZR in Hx1, Hy1. lia.
Qed.

(** ** The sampled neighbourhood *)

Lemma filter_none {T : Type} (P : T -> bool) (l : list T) :
  (forall x, In x l -> P x = false) -> List.filter P l = [].
Proof.
  induction l as [|x l IH]; intros H; simpl; [reflexivity|].
  rewrite (H x) by (left; reflexivity).
  apply IH. intros z Hz. apply H. right. exact Hz.
Qed.

Lemma flat_map_none {T U : Type} (f : T -> list U) (l : list T) :
  (forall x, In x l -> f x = []) -> flat_map f l = [].
Proof.
  induction l as [|x l IH]; intros H; simpl; [reflexivity|].
  rewrite (H x) by (left; reflexivity).
  apply IH. intros z Hz. apply H. right. exact Hz.
Qed.

Lemma filter_flat_map {T U : Type} (P : U -> bool) (f : T -> list U) (l : list T) :
  List.filter P (flat_map f l) = flat_map (fun x => List.filter P (f x)) l.
Proof.
  induction l as [|x l IH]; simpl; [reflexivity|].
  rewrite List.filter_app, IH. reflexivity.
Qed.

Lemma within_false_x (radius : R) (b dx dy : Z) :
  radius <= IZR b -> (dx < - b \/ b < dx)%Z -> within radius (dx, dy) = false.
Proof.
  intros Hb Hdx. destruct (within radius (dx, dy)) eqn:E; [|reflexivity].
  apply (within_bounded radius b) in E; [lia | exact Hb].
Qed.

Lemma within_false_y (radius : R) (b dx dy : Z) :
  radius <= IZR b -> (dy < - b \/ b < dy)%Z -> within radius (dx, dy) = false.
Proof.
  intros Hb Hdy. destruct (within radius (dx, dy)) eqn:E; [|reflexivity].
  apply (within_bounded radius b) in E; [lia | exact Hb].
Qed.

(** The part of one row of the square that lies in the disc does not depend
    on the width of the square, once the square contains the disc. *)
Lemma disc_row_bound (radius : R) (b1 b2 dy : Z) :
  radius <= IZR b1 -> (0 <= b1 <= b2)%Z ->
  List.filter (within radius) (map (fun dx => (dx, dy)) (loop_range b2))
  = List.filter (within radius) (map (fun dx => (dx, dy)) (loop_range b1)).
Proof.
  intros Hr Hb. rewrite (loop_range_split b1 b2 Hb).
  rewrite !map_app, !List.filter_app.
  rewrite (filter_none _ (map _ (zrange (- b2) _))).
  2:{ intros o Ho. apply in_map_iff in Ho as (dx & <- & Hdx).
      apply In_zrange in Hdx. apply (within_false_x radius b1); [exact Hr | lia]. }
  rewrite (filter_none _ (map _ (zrange (b1 + 1) _))).
  2:{ intros o Ho. apply in_map_iff in Ho as (dx & <- & Hdx).
      apply In_zrange in Hdx. apply (within_false_x radius b1); [exact Hr | lia]. }
  rewrite app_nil_r. reflexivity.
Qed.

Lemma disc_in_square_bound (radius : R) (b1 b2 : Z) :
  radius <= IZR b1 -> (0 <= b1 <= b2)%Z ->
  List.filter (within radius) (offsets b2)
  = List.filter (within radius) (offsets b1).
Proof.
  intros Hr Hb. unfold offsets. rewrite !filter_flat_map.
  rewrite (flat_map_ext _ _ (fun dy => disc_row_bound radius b1 b2 dy Hr Hb)).
  rewrite (loop_range_split b1 b2 Hb), !flat_map_app.
  rewrite (flat_map_none _ (zrange (- b2) _)).
  2:{ intros dy Hdy. apply In_zrange in Hdy. apply filter_none.
      intros o Ho. apply in_map_iff in Ho as (dx & <- & _).
      apply (within_false_y radius b1); [exact Hr | lia]. }
  rewrite (flat_map_none _ (zrange (b1 + 1) _)).
  2:{ intros dy Hdy. apply In_zrange in Hdy. apply filter_none.
      intros o Ho. apply in_map_iff in Ho as (dx & <- & _).
      apply (within_false_y radius b1); [exact Hr | lia]. }
  rewrite app_nil_r. reflexivity.
Qed.

Lemma up_above (r : R) : r <= IZR (Z.max 0 (up r)).
Proof.
  destruct (archimed r) as [H _].
  assert (IZR (up r) <= IZR (Z.max 0 (up r))) by (apply IZR_le; lia).
  lra.
Qed.

(** The disc of the spec, found in any square that contains it. *)
Lemma disc_offsets_in_square (radius : R) (b : Z) :
  radius <= IZR b -> (0 <= b)%Z ->
  disc_offsets radius = List.filter (within radius) (offsets b).
Proof.
  intros Hr Hb. unfold disc_offsets.
  destruct (Z_le_gt_dec b (Z.max 0 (up radius))) as [Hle | Hgt].
  - apply disc_in_square_bound; [exact Hr | lia].
  - symmetry. apply disc_in_square_bound; [apply up_above | lia].
Qed.

Lemma disc_offsets_complete (radius : R) (dx dy : Z) :
  In (dx, dy) (disc_offsets radius) <-> offset_dist dx dy <= radius.
Proof.
  unfold disc_offsets. rewrite filter_In, within_spec, In_offsets. simpl.
  split; [tauto|]. intros H. split; [|exact H].
  apply (within_bounded radius); [apply up_above | apply within_spec; exact H].
Qed.

(** The two nested loops of the shader as sums over the part of the square
    that lies in the disc. *)
Lemma convolve_sums (b : Z) (radius : R) (state : Z -> Z -> R) :
  Sim.convolve b radius state =
  (Rsum (map (fun o => state (fst o) (snd o) * disc_weight radius o)
             (List.filter (within radius) (offsets b))),
   Rsum (map (disc_weight radius) (List.filter (within radius) (offsets b)))).
Proof.
  unfold Sim.convolve.
  rewrite (fold_left_nested (fun acc dx dy => Sim.accumulate radius state acc dx dy)).
  fold (offsets b).
  transitivity
    (fold_left
       (fun acc o =>
          if within radius o
          then (fst acc + state (fst o) (snd o) * disc_weight radius o,
                snd acc + disc_weight radius o)
          else acc)
       (offsets b) (0, 0)).
  - apply (fold_left_related eq); [|reflexivity].
    intros a a' o ->. unfold Sim.accumulate, within, disc_weight. cbv zeta.
    destruct (Rgt_dec _ _); reflexivity.
  - rewrite fold_left_guarded_sum. cbn [fst snd]. f_equal; lra.
Qed.

(** For radii up to the loop bound the shader's potential is the disc
    average of the spec. *)
Lemma potential_is_disc_average (u : Sim.uniforms) (t : texture) (x y : Z) :
  Sim.u_R u <= 12 ->
  Sim.potential u t x y
  = disc_potential (Sim.u_R u)
      (fun dx dy => cr (texture2D t (x + dx) (y + dy))).
Proof.
  intros HR. unfold Sim.potential, Sim.normalize, disc_potential.
  rewrite convolve_sums. cbn [fst snd].
  rewrite (disc_offsets_in_square (Sim.u_R u) Sim.LOOP_BOUND);
    [reflexivity | exact HR | unfold Sim.LOOP_BOUND; lia].
Qed.

Lemma kernel_nonneg (r : R) : 0 <= kernel r.
Proof. unfold kernel. cbv zeta. apply (Rle_0_sqr (4 * r * (1 - r))). Qed.

Lemma kernel_outside (r : R) : kernel 0 = 0 /\ kernel 1 = 0.
Proof. unfold kernel. cbv zeta. split; lra. Qed.

Lemma normalize_denominator_pos (s : R) : 0 < Rmax s 0.001.
Proof. pose proof (Rmax_r s 0.001). lra. Qed.

(** ** The kernel radius against the loop bound *)

Lemma spot_field_state (dx dy : Z) :
  cr (texture2D spot_field (0 + dx) (0 + dy))
  = if ((dx mod 64 =? 13) && (dy mod 64 =? 0))%Z then 1 else 0.
Proof.
  unfold spot_field, texture2D, texImage2D, Engine.createTexture, spot_seed.
  cbn [wrap_s wrap_t width height texels wrap_coord].
  rewrite !Z.add_0_l.
  destruct ((dx mod 64 =? 13) && (dy mod 64 =? 0))%Z; reflexivity.
Qed.

Lemma spot_field_state_nonneg (dx dy : Z) :
  0 <= cr (texture2D spot_field (0 + dx) (0 + dy)).
Proof. rewrite spot_field_state. destruct (_ && _)%bool; lra. Qed.

Lemma spot_field_dark_in_loop (dx dy : Z) :
  (-12 <= dx <= 12)%Z -> cr (texture2D spot_field (0 + dx) (0 + dy)) = 0.
Proof.
  intros Hdx. rewrite spot_field_state.
  destruct (dx mod 64 =? 13)%Z eqn:E; [|reflexivity].
  apply Z.eqb_eq in E. exfalso.
  destruct (Z_lt_le_dec dx 0) as [Hneg | Hpos].
  - assert (H : (dx mod 64 = dx + 64)%Z).
    { symmetry. apply (Z.mod_unique dx 64 (-1)); lia. }
    lia.
  - rewrite Z.mod_small in E; lia.
Qed.

Lemma kernel_at_13_of_14 : 0 < kernel (offset_dist 13 0 / 14).
Proof.
  rewrite offset_dist_axis by lia. unfold kernel. cbv zeta.
  replace (4 * (13 / 14) * (1 - 13 / 14) * (4 * (13 / 14) * (1 - 13 / 14)))
    with (169 / 2401) by field.
  lra.
Qed.

(** C5 at R = 14: the offset (13, 0) lies in the disc of radius 14 and has
    positive weight, the field is 1 there, and yet the shader, whose loops
    stop at 12, computes potential 0 for the cell (0, 0), where the disc
    average of the spec is positive. *)
Theorem potential_misses_disc_beyond_12 :
  offset_dist 13 0 <= Sim.u_R radius14
  /\ 0 < kernel (offset_dist 13 0 / Sim.u_R radius14)
  /\ cr (texture2D spot_field (0 + 13) (0 + 0)) = 1
  /\ Sim.potential radius14 spot_field 0 0 = 0
  /\ 0 < disc_potential (Sim.u_R radius14)
           (fun dx dy => cr (texture2D spot_field (0 + dx) (0 + dy))).
Proof.
  assert (Hd : offset_dist 13 0 <= 14) by (rewrite offset_dist_axis by lia; lra).
  assert (Hs : cr (texture2D spot_field (0 + 13) (0 + 0)) = 1) by reflexivity.
  split; [exact Hd|]. split; [exact kernel_at_13_of_14|]. split; [exact Hs|].
  split.
  - unfold Sim.potential, Sim.normalize. rewrite convolve_sums. cbn [fst snd].
    rewrite Rsum_zero; [unfold Rdiv; apply Rmult_0_l|].
    intros v Hv. apply in_map_iff in Hv as ([dx dy] & <- & Ho).
    apply filter_In in Ho as [Ho _]. apply In_offsets in Ho as [Hdx _].
    cbn [fst snd]. rewrite spot_field_dark_in_loop by exact Hdx. lra.
  - unfold disc_potential. apply Rdiv_lt_0_compat; [|apply normalize_denominator_pos].
    apply Rlt_le_trans with (1 * kernel (offset_dist 13 0 / 14)).
    + pose proof kernel_at_13_of_14. lra.
    + apply Rsum_ge_member.
      * intros v Hv. apply in_map_iff in Hv as ([dx dy] & <- & _).
        cbn [fst snd]. apply Rmult_le_pos;
          [apply spot_field_state_nonneg | apply kernel_nonneg].
      * apply in_map_iff. exists (13, 0)%Z. split.
        -- cbn [fst snd]. rewrite Hs. reflexivity.
        -- apply disc_offsets_complete. exact Hd.
Qed.

(** ** Toroidal and clamped sampling *)

Lemma repeat_reads_torus (t : texture) :
  repeat_wrapped t -> complete t = true -> reads_torus t.
Proof.
  intros [Hs Ht] Hc i j. rewrite texture2D_complete by exact Hc.
  rewrite Hs, Ht. reflexivity.
Qed.

Lemma clamped_reads_edge (t : texture) :
  edge_clamped t -> complete t = true -> reads_edge t.
Proof.
  intros [Hs Ht] Hc i j. rewrite texture2D_complete by exact Hc.
  rewrite Hs, Ht. reflexivity.
Qed.

Lemma convolve_ext (b : Z) (radius : R) (s1 s2 : Z -> Z -> R) :
  (forall dx dy, s1 dx dy = s2 dx dy) ->
  Sim.convolve b radius s1 = Sim.convolve b radius s2.
Proof.
  intros H. rewrite !convolve_sums. f_equal. f_equal.
  apply map_ext. intros o. rewrite H. reflexivity.
Qed.

Lemma texture2D_torus_shift (a b : Z) (t : texture) (i j : Z) :
  repeat_wrapped t ->
  texture2D (torus_shift a b t) i j = texture2D t (i + a) (j + b).
Proof.
  intros [Hs Ht]. unfold texture2D.
  change (complete (torus_shift a b t)) with (complete t).
  destruct (complete t); [|reflexivity].
  unfold torus_shift. cbn [wrap_s wrap_t width height texels]. rewrite Hs, Ht.
  cbn [wrap_coord]. rewrite !Zplus_mod_idemp_l. reflexivity.
Qed.

(** The update rule cannot tell where the torus is cut: moving the field
    cyclically moves the result of the shader with it. *)
Lemma main_torus_shift (u : Sim.uniforms) (a b : Z) (t : texture) (x y : Z) :
  repeat_wrapped t ->
  Sim.main u (torus_shift a b t) x y = Sim.main u t (x + a) (y + b).
Proof.
  intros Hw. rewrite !main_texel. cbv zeta.
  assert (HU : Sim.potential u (torus_shift a b t) x y
               = Sim.potential u t (x + a) (y + b)).
  { unfold Sim.potential. apply (f_equal Sim.normalize).
    apply convolve_ext. intros dx dy.
    rewrite texture2D_torus_shift by exact Hw.
    replace (x + dx + a)%Z with (x + a + dx)%Z by lia.
    replace (y + dy + b)%Z with (y + b + dy)%Z by lia. reflexivity. }
  rewrite HU, texture2D_torus_shift by exact Hw. reflexivity.
Qed.

Section ShapeInvariant.
Import Engine.

Lemma same_shape_refl (t : texture) : same_shape t t.
Proof. repeat split. Qed.

Lemma same_shape_trans (t1 t2 t3 : texture) :
  same_shape t1 t2 -> same_shape t2 t3 -> same_shape t1 t3.
Proof.
  intros (A1 & A2 & A3 & A4) (B1 & B2 & B3 & B4).
  repeat split; congruence.
Qed.

Lemma same_shape_complete (t t' : texture) :
  same_shape t t' -> complete t' = complete t.
Proof. intros (Hs & Ht & Hw & Hh). apply complete_same; assumption. Qed.

(** A tick draws into one of the two textures and changes the shape of
    neither. *)
Lemma engine_step_shape (d : Draws) (e e' : Lenia) :
  step d e = Returned e' ->
  same_shape (fst (textures e)) (fst (textures e'))
  /\ same_shape (snd (textures e)) (snd (textures e')).
Proof.
  unfold step. destruct (step_params d e) as [params|]; [|discriminate].
  intros [= <-]. cbn [textures].
  destruct (tick_state_fields d e) as (_ & HT & HB & _).
  unfold texture_at. rewrite HT, HB.
  destruct (currentBuffer e); cbn [negb fst snd]; split;
    repeat split; reflexivity.
Qed.

Lemma engine_run_shape (ds : list Draws) :
  forall e e' : Lenia,
    run ds e = Returned e' ->
    same_shape (fst (textures e)) (fst (textures e'))
    /\ same_shape (snd (textures e)) (snd (textures e')).
Proof.
  induction ds as [|d ds IH]; intros e e' Hrun; simpl in Hrun.
  - injection Hrun as <-. split; apply same_shape_refl.
  - destruct (step d e) as [e1|] eqn:Hstep; [|discriminate].
    destruct (engine_step_shape d e e1 Hstep) as [H1 H2].
    destruct (IH e1 e' Hrun) as [H3 H4].
    split; eapply same_shape_trans; eassumption.
Qed.

(** After any number of ticks the current texture of [new Lenia] is REPEAT
    on both axes and has the size of the canvas. *)
Lemma engine_new_run_shape (w h : Z) (seed : Z -> Z -> vec4)
    (ds : list Draws) (e' : Lenia) :
  run ds (new w h seed) = Returned e' ->
  same_shape (createTexture w h) (current_texture e').
Proof.
  intros Hrun. destruct (engine_run_shape ds _ _ Hrun) as [H1 H2].
  unfold current_texture, texture_at.
  destruct (currentBuffer e'); [exact H2 | exact H1].
Qed.

End ShapeInvariant.

Lemma ecosystem_run_shape (n : nat) :
  forall e : Ecosystem.LeniaEcosystem,
    same_shape (fst (Ecosystem.textures e))
               (fst (Ecosystem.textures (Ecosystem.run n e)))
    /\ same_shape (snd (Ecosystem.textures e))
                  (snd (Ecosystem.textures (Ecosystem.run n e))).
Proof.
  induction n as [|n IH]; intros e; cbn [Ecosystem.run].
  - split; apply same_shape_refl.
  - destruct (IH (Ecosystem.step e)) as [H1 H2].
    split; (eapply same_shape_trans; [|eassumption]);
      unfold Ecosystem.step, Ecosystem.texture_at; cbn [Ecosystem.textures];
      destruct (Ecosystem.currentBuffer e); cbn [negb fst snd];
      repeat split; reflexivity.
Qed.

Lemma ecosystem_new_run_shape (w h : Z) (seed : Z -> Z -> vec4) (n : nat) :
  same_shape (Ecosystem.createTexture w h)
             (Ecosystem.current_texture
                (Ecosystem.run n (Ecosystem.new w h seed))).
Proof.
  destruct (ecosystem_run_shape n (Ecosystem.new w h seed)) as [H1 H2].
  unfold Ecosystem.current_texture, Ecosystem.texture_at.
  destruct (Ecosystem.currentBuffer _); [exact H2 | exact H1].
Qed.

Lemma torus_reentry (n i : Z) :
  ((n <= i < 2 * n -> i mod n = i - n)
   /\ (- n <= i < 0 -> i mod n = i + n))%Z.
Proof.
  split; intros H.
  - symmetry. apply (Z.mod_unique i n 1); lia.
  - symmetry. apply (Z.mod_unique i n (-1)); lia.
Qed.

(** C3, as the code has it.  In the single-species engine every texture is
    created with REPEAT on both axes; on a canvas whose width and height are
    powers of two, after any number of ticks a sample at coordinates
    [(i, j)] reads the cell [(i mod W, j mod H)]: an offset that leaves the
    grid on the right or top re-enters at [i - W] or [j - H], one that leaves
    on the left or bottom at [i + W] or [j + H]; the shader's result moves
    along with any cyclic translation of the field.  In the ecosystem engine
    the textures are created with CLAMP_TO_EDGE, and after any number of
    ticks a sample outside the grid reads the nearest edge cell. *)
Theorem sampling_torus_single_edge_ecosystem :
  (forall (w h : Z) (seed : Z -> Z -> vec4) (ds : list Engine.Draws)
          (e' : Engine.Lenia),
      is_pow2 w = true -> is_pow2 h = true ->
      Engine.run ds (Engine.new w h seed) = Returned e' ->
      reads_torus (Engine.current_texture e')
      /\ forall (u : Sim.uniforms) (a b x y : Z),
           Sim.main u (torus_shift a b (Engine.current_texture e')) x y
           = Sim.main u (Engine.current_texture e') (x + a) (y + b))
  /\ (forall (t : texture) (x y dx dy : Z),
        reads_torus t ->
        in_grid t x y = true ->
        texture2D t (x + dx) (y + dy)
        = texels t ((x + dx) mod width t)%Z ((y + dy) mod height t)%Z
        /\ in_grid t ((x + dx) mod width t)%Z ((y + dy) mod height t)%Z = true
        /\ ((width t <= x + dx < 2 * width t)%Z ->
            ((x + dx) mod width t = x + dx - width t)%Z)
        /\ ((- width t <= x + dx < 0)%Z ->
            ((x + dx) mod width t = x + dx + width t)%Z)
        /\ ((height t <= y + dy < 2 * height t)%Z ->
            ((y + dy) mod height t = y + dy - height t)%Z)
        /\ ((- height t <= y + dy < 0)%Z ->
            ((y + dy) mod height t = y + dy + height t)%Z))
  /\ (forall (w h : Z) (seed : Z -> Z -> vec4) (n : nat),
        (0 < w)%Z -> (0 < h)%Z ->
        reads_edge (Ecosystem.current_texture
                      (Ecosystem.run n (Ecosystem.new w h seed)))).
Proof.
  split; [|split].
  - intros w h seed ds e' Hw Hh Hrun.
    pose proof (engine_new_run_shape w h seed ds e' Hrun) as Hshape.
    assert (Hwrap : repeat_wrapped (Engine.current_texture e'))
      by (destruct Hshape as (Hs & Ht & _); split; assumption).
    split; [|intros u a b x y; apply main_torus_shift, Hwrap].
    apply repeat_reads_torus; [exact Hwrap|].
    rewrite (same_shape_complete _ _ Hshape).
    apply complete_pow2; assumption.
  - intros t x y dx dy Htorus Hgrid.
    apply in_grid_spec in Hgrid as [Hx Hy].
    split; [apply Htorus|]. split.
    + apply in_grid_spec.
      split; apply Z.mod_pos_bound; lia.
    + repeat split; intros H; apply torus_reentry; exact H.
  - intros w h seed n Hw Hh.
    pose proof (ecosystem_new_run_shape w h seed n) as Hshape.
    apply clamped_reads_edge.
    + destruct Hshape as (Hs & Ht & _); split; assumption.
    + rewrite (same_shape_complete _ _ Hshape).
      apply complete_clamped; first [reflexivity | assumption].
Qed.

Lemma spot_field_torus : reads_torus spot_field.
Proof. apply repeat_reads_torus; [split|]; reflexivity. Qed.

Lemma sampling_torus_single_edge_ecosystem_witness :
  (exists e', Engine.run [mid_draws] engine0 = Returned e'
              /\ reads_torus (Engine.current_texture e'))
  /\ texture2D spot_field (60 + 12) (0 + 0)
     = texels spot_field ((60 + 12) mod 64)%Z ((0 + 0) mod 64)%Z
  /\ ((60 + 12) mod 64 = 60 + 12 - 64)%Z
  /\ reads_edge (Ecosystem.current_texture (Ecosystem.run 2 ecosystem0)).
Proof.
  destruct sampling_torus_single_edge_ecosystem as (Hrun & Hread & Hedge).
  split; [|split; [|split]].
  - destruct (step_returned mid_draws engine0 Engine.orbium eq_refl)
      as (e' & Hstep & _).
    exists e'.
    assert (Hr : Engine.run [mid_draws] engine0 = Returned e')
      by (cbn [Engine.run]; rewrite Hstep; reflexivity).
    split; [exact Hr|].
    exact (proj1 (Hrun 64%Z 64%Z grey_seed [mid_draws] e' eq_refl eq_refl Hr)).
  - exact (proj1 (Hread spot_field 60%Z 0%Z 12%Z 0%Z spot_field_torus eq_refl)).
  - destruct (Hread spot_field 60%Z 0%Z 12%Z 0%Z spot_field_torus eq_refl)
      as (_ & _ & H2 & _).
    apply H2. cbn [width spot_field texImage2D Engine.createTexture]. lia.
  - apply (Hedge 64%Z 64%Z grey_seed 2%nat); lia.
Defined.

(** C3 as stated fails in the ecosystem engine: at the right edge cell
    (3, 0) of a 4 x 4 field the neighbour offset (1, 0) reads the edge cell
    (3, 0) itself, not the cell (0, 0) that re-enters from the left edge. *)
Lemma ecosystem_sampling_does_not_wrap :
  let t := Ecosystem.current_texture corner_ecosystem in
  in_grid t 3 0 = true
  /\ texture2D t (3 + 1) (0 + 0) = texels t 3 0
  /\ texture2D t (3 + 1) (0 + 0)
     <> texels t ((3 + 1) mod width t)%Z ((0 + 0) mod height t)%Z.
Proof.
  split; [reflexivity|]. split; [reflexivity|].
  intros H. apply (f_equal cr) in H. vm_compute in H. lra.
Qed.

(** ** The ecosystem shader, channel by channel *)

Lemma offset_dist_origin : offset_dist 0 0 = 0.
Proof. rewrite offset_dist_axis by lia. reflexivity. Qed.

Lemma sim_accumulate_origin (radius : R) (state : Z -> Z -> R) (acc : R * R) :
  Sim.accumulate radius state acc 0 0 = acc.
Proof.
  unfold Sim.accumulate. cbv zeta. rewrite offset_dist_origin.
  destruct (Rgt_dec 0 radius); [reflexivity|].
  replace (0 / radius) with 0 by (unfold Rdiv; rewrite Rmult_0_l; reflexivity).
  destruct (kernel_outside 0) as [-> _]. destruct acc as [a b]. simpl.
  f_equal; lra.
Qed.

Ltac eco_accumulate_cases :=
  unfold Eco.accumulate, Sim.accumulate; cbv zeta;
  repeat match goal with
         | |- context [Rle_dec ?a ?b] => destruct (Rle_dec a b)
         | |- context [Rgt_dec ?a ?b] => destruct (Rgt_dec a b)
         end;
  cbn [fst snd vx vy vz]; try reflexivity; exfalso; lra.

Lemma eco_accumulate_prey (radii : vec3) (nb : Z -> Z -> vec4)
    (acc : vec3 * vec3) (dx dy : Z) :
  (vx (fst (Eco.accumulate radii nb acc dx dy)),
   vx (snd (Eco.accumulate radii nb acc dx dy)))
  = Sim.accumulate (vx radii) (fun dx dy => cr (nb dx dy))
      (vx (fst acc), vx (snd acc)) dx dy.
Proof.
  destruct (Rlt_dec (offset_dist dx dy) 0.5) as [Hsmall | Hfar].
  - destruct (offset_dist_small dx dy Hsmall) as [-> ->].
    rewrite sim_accumulate_origin. unfold Eco.accumulate. cbv zeta.
    destruct (Rlt_dec _ _); [reflexivity | contradiction].
  - unfold Eco.accumulate at 1 2. cbv zeta.
    destruct (Rlt_dec _ _); [contradiction|]. clear Hfar.
    eco_accumulate_cases.
Qed.

Lemma eco_accumulate_pred (radii : vec3) (nb : Z -> Z -> vec4)
    (acc : vec3 * vec3) (dx dy : Z) :
  (vy (fst (Eco.accumulate radii nb acc dx dy)),
   vy (snd (Eco.accumulate radii nb acc dx dy)))
  = Sim.accumulate (vy radii) (fun dx dy => cg (nb dx dy))
      (vy (fst acc), vy (snd acc)) dx dy.
Proof.
  destruct (Rlt_dec (offset_dist dx dy) 0.5) as [Hsmall | Hfar].
  - destruct (offset_dist_small dx dy Hsmall) as [-> ->].
    rewrite sim_accumulate_origin. unfold Eco.accumulate. cbv zeta.
    destruct (Rlt_dec _ _); [reflexivity | contradiction].
  - unfold Eco.accumulate at 1 2. cbv zeta.
    destruct (Rlt_dec _ _); [contradiction|]. clear Hfar.
    eco_accumulate_cases.
Qed.

Lemma eco_accumulate_apex (radii : vec3) (nb : Z -> Z -> vec4)
    (acc : vec3 * vec3) (dx dy : Z) :
  (vz (fst (Eco.accumulate radii nb acc dx dy)),
   vz (snd (Eco.accumulate radii nb acc dx dy)))
  = Sim.accumulate (vz radii) (fun dx dy => cb (nb dx dy))
      (vz (fst acc), vz (snd acc)) dx dy.
Proof.
  destruct (Rlt_dec (offset_dist dx dy) 0.5) as [Hsmall | Hfar].
  - destruct (offset_dist_small dx dy Hsmall) as [-> ->].
    rewrite sim_accumulate_origin. unfold Eco.accumulate. cbv zeta.
    destruct (Rlt_dec _ _); [reflexivity | contradiction].
  - unfold Eco.accumulate at 1 2. cbv zeta.
    destruct (Rlt_dec _ _); [contradiction|]. clear Hfar.
    eco_accumulate_cases.
Qed.

Section EcoChannels.
Variables (radii : vec3) (nb : Z -> Z -> vec4).

Lemma eco_convolve_flat :
  Eco.convolve radii nb
  = fold_left (fun acc o => Eco.accumulate radii nb acc (fst o) (snd o))
              (offsets Eco.LOOP_BOUND) (Vec3 0 0 0, Vec3 0 0 0).
Proof.
  unfold Eco.convolve.
  rewrite (fold_left_nested (fun acc dx dy => Eco.accumulate radii nb acc dx dy)).
  reflexivity.
Qed.

Lemma sim_convolve_flat (b : Z) (radius : R) (state : Z -> Z -> R) :
  Sim.convolve b radius state
  = fold_left (fun acc o => Sim.accumulate radius state acc (fst o) (snd o))
              (offsets b) (0, 0).
Proof.
  unfold Sim.convolve.
  rewrite (fold_left_nested (fun acc dx dy => Sim.accumulate radius state acc dx dy)).
  reflexivity.
Qed.

(** Each channel of the ecosystem's accumulators is the single-species
    convolution of that channel alone, over the ecosystem's loop bound. *)
Lemma eco_convolve_channels :
  let acc := Eco.convolve radii nb in
  (vx (fst acc), vx (snd acc))
    = Sim.convolve Eco.LOOP_BOUND (vx radii) (fun dx dy => cr (nb dx dy))
  /\ (vy (fst acc), vy (snd acc))
    = Sim.convolve Eco.LOOP_BOUND (vy radii) (fun dx dy => cg (nb dx dy))
  /\ (vz (fst acc), vz (snd acc))
    = Sim.convolve Eco.LOOP_BOUND (vz radii) (fun dx dy => cb (nb dx dy)).
Proof.
  cbv zeta. rewrite eco_convolve_flat, !sim_convolve_flat.
  repeat split.
  - apply (fold_left_related (fun a a' => (vx (fst a), vx (snd a)) = a'));
      [|reflexivity].
    intros a a' o <-. apply eco_accumulate_prey.
  - apply (fold_left_related (fun a a' => (vy (fst a), vy (snd a)) = a'));
      [|reflexivity].
    intros a a' o <-. apply eco_accumulate_pred.
  - apply (fold_left_related (fun a a' => (vz (fst a), vz (snd a)) = a'));
      [|reflexivity].
    intros a a' o <-. apply eco_accumulate_apex.
Qed.

End EcoChannels.

Lemma normalize_disc (b : Z) (radius : R) (state : Z -> Z -> R) :
  radius <= IZR b -> (0 <= b)%Z ->
  Sim.normalize (Sim.convolve b radius state) = disc_potential radius state.
Proof.
  intros Hr Hb. unfold Sim.normalize, disc_potential.
  rewrite convolve_sums. cbn [fst snd].
  rewrite (disc_offsets_in_square radius b Hr Hb). reflexivity.
Qed.

(** The three potentials of the ecosystem shader are the disc averages of
    the three channels, each over its own radius, as long as the radius
    does not exceed the loop bound 15. *)
Lemma eco_potentials_disc (u : Eco.uniforms) (t : texture) (x y : Z) :
  vx (Eco.u_R u) <= 15 -> vy (Eco.u_R u) <= 15 -> vz (Eco.u_R u) <= 15 ->
  Eco.potentials u t x y
  = Vec3 (disc_potential (vx (Eco.u_R u))
            (fun dx dy => cr (texture2D t (x + dx) (y + dy))))
         (disc_potential (vy (Eco.u_R u))
            (fun dx dy => cg (texture2D t (x + dx) (y + dy))))
         (disc_potential (vz (Eco.u_R u))
            (fun dx dy => cb (texture2D t (x + dx) (y + dy)))).
Proof.
  intros Hx Hy Hz. unfold Eco.potentials, Eco.normalize.
  destruct (eco_convolve_channels (Eco.u_R u)
              (fun dx dy => texture2D t (x + dx) (y + dy))) as (Ex & Ey & Ez).
  cbv zeta in Ex, Ey, Ez.
  rewrite <- (normalize_disc Eco.LOOP_BOUND (vx (Eco.u_R u)))
    by (unfold Eco.LOOP_BOUND; first [lra | lia]).
  rewrite <- (normalize_disc Eco.LOOP_BOUND (vy (Eco.u_R u)))
    by (unfold Eco.LOOP_BOUND; first [lra | lia]).
  rewrite <- (normalize_disc Eco.LOOP_BOUND (vz (Eco.u_R u)))
    by (unfold Eco.LOOP_BOUND; first [lra | lia]).
  rewrite <- Ex, <- Ey, <- Ez. reflexivity.
Qed.

(** ** The ecosystem update of one cell *)

Lemma eco_main_texel (u : Eco.uniforms) (t : texture) (x y : Z) :
  Eco.main u t x y =
  let c := texture2D t x y in
  let U := Eco.potentials u t x y in
  let crowding := crowding_of c in
  Vec4
    (clamp (cr c + growth (vx U) (vx (Eco.u_mu u)) (vx (Eco.u_sigma u))
                   * Eco.u_dt u / vx (Eco.u_T u)
            - cg c * Eco.u_predation u * cr c
            - crowding * cr c) 0 1 * 0.9995)
    (clamp (cg c + growth (vy U) (vy (Eco.u_mu u)) (vy (Eco.u_sigma u))
                   * Eco.u_dt u / vy (Eco.u_T u)
            + cr c * Eco.u_benefit u * cg c * 0.5
            - cb c * Eco.u_predation u * cg c
            - crowding * cg c) 0 1 * 0.9993)
    (clamp (cb c + growth (vz U) (vz (Eco.u_mu u)) (vz (Eco.u_sigma u))
                   * Eco.u_dt u / vz (Eco.u_T u)
            + cg c * Eco.u_benefit u * cb c * 0.3
            - crowding * cb c) 0 1 * 0.9990)
    1.
Proof. reflexivity. Qed.

Lemma crowding_formula (x : R) :
  smoothstep 0.5 1.5 x = let t := clamp (x - 0.5) 0 1 in t * t * (3 - 2 * t).
Proof.
  unfold smoothstep. cbv zeta.
  replace (1.5 - 0.5) with 1 by lra. rewrite Rdiv_1_r.
  reflexivity.
Qed.

Lemma clamp_below (x lo hi : R) : lo <= hi -> x <= lo -> clamp x lo hi = lo.
Proof.
  intros H1 H2. unfold clamp, Rmin, Rmax.
  destruct (Rle_dec x lo); destruct (Rle_dec _ hi); lra.
Qed.

Lemma clamp_above (x lo hi : R) : lo <= hi -> hi <= x -> clamp x lo hi = hi.
Proof.
  intros H1 H2. unfold clamp, Rmin, Rmax.
  destruct (Rle_dec x lo); destruct (Rle_dec _ hi); lra.
Qed.

Lemma crowding_sparse (c : vec4) : cr c + cg c + cb c <= 0.5 -> crowding_of c = 0.
Proof.
  intros H. unfold crowding_of. rewrite crowding_formula. cbv zeta.
  rewrite clamp_below by lra. lra.
Qed.

Lemma crowding_dense (c : vec4) : 1.5 <= cr c + cg c + cb c -> crowding_of c = 0.1.
Proof.
  intros H. unfold crowding_of. rewrite crowding_formula. cbv zeta.
  rewrite clamp_above by lra. lra.
Qed.

Lemma crowding_nonneg (c : vec4) : 0 <= crowding_of c.
Proof.
  unfold crowding_of. rewrite crowding_formula. cbv zeta.
  match goal with |- context [clamp ?a 0 1] =>
    pose proof (clamp_unit a); set (t := clamp a 0 1) in * end.
  assert (0 <= t * t) by nra. nra.
Qed.

Lemma eco_step_texel (e : Ecosystem.LeniaEcosystem) (x y : Z) :
  in_grid (Ecosystem.texture_at e (negb (Ecosystem.currentBuffer e))) x y = true ->
  texels (Ecosystem.current_texture (Ecosystem.step e)) x y
  = Eco.main (Ecosystem.step_uniforms e) (Ecosystem.current_texture e) x y.
Proof.
  intros H. rewrite eco_step_current, drawArrays_texel by exact H. reflexivity.
Qed.

Lemma step_uniforms_radii (e : Ecosystem.LeniaEcosystem) :
  vx (Eco.u_R (Ecosystem.step_uniforms e)) <= 15
  /\ vy (Eco.u_R (Ecosystem.step_uniforms e)) <= 15
  /\ vz (Eco.u_R (Ecosystem.step_uniforms e)) <= 15.
Proof. simpl. lra. Qed.

(** The colour the ecosystem shader outputs for a cell when predation and
    benefit strength are 0. *)
Lemma neutral_shader_output (e : Ecosystem.LeniaEcosystem) (x y : Z) :
  Ecosystem.predationStrength e = 0 ->
  Ecosystem.benefitStrength e = 0 ->
  complete (Ecosystem.current_texture e) = true ->
  in_grid (Ecosystem.current_texture e) x y = true ->
  Eco.main (Ecosystem.step_uniforms e) (Ecosystem.current_texture e) x y
  = Vec4
      (clamp (cr (texels (Ecosystem.current_texture e) x y)
              + growth (disc_potential (Ecosystem.radius Ecosystem.prey)
                          (fun dx dy => cr (texture2D (Ecosystem.current_texture e)
                                                      (x + dx) (y + dy))))
                       (Ecosystem.mu Ecosystem.prey) (Ecosystem.sigma Ecosystem.prey)
                * Ecosystem.timeScale e / Ecosystem.timescale Ecosystem.prey
              - crowding_of (texels (Ecosystem.current_texture e) x y)
                * cr (texels (Ecosystem.current_texture e) x y)) 0 1 * 0.9995)
      (clamp (cg (texels (Ecosystem.current_texture e) x y)
              + growth (disc_potential (Ecosystem.radius Ecosystem.predator)
                          (fun dx dy => cg (texture2D (Ecosystem.current_texture e)
                                                      (x + dx) (y + dy))))
                       (Ecosystem.mu Ecosystem.predator)
                       (Ecosystem.sigma Ecosystem.predator)
                * Ecosystem.timeScale e / Ecosystem.timescale Ecosystem.predator
              - crowding_of (texels (Ecosystem.current_texture e) x y)
                * cg (texels (Ecosystem.current_texture e) x y)) 0 1 * 0.9993)
      (clamp (cb (texels (Ecosystem.current_texture e) x y)
              + growth (disc_potential (Ecosystem.radius Ecosystem.apex)
                          (fun dx dy => cb (texture2D (Ecosystem.current_texture e)
                                                      (x + dx) (y + dy))))
                       (Ecosystem.mu Ecosystem.apex) (Ecosystem.sigma Ecosystem.apex)
                * Ecosystem.timeScale e / Ecosystem.timescale Ecosystem.apex
              - crowding_of (texels (Ecosystem.current_texture e) x y)
                * cb (texels (Ecosystem.current_texture e) x y)) 0 1 * 0.9990)
      1.
Proof.
  intros Hpred Hben Hcomplete Hcur.
  rewrite eco_main_texel. cbv zeta.
  destruct (step_uniforms_radii e) as (Hx & Hy & Hz).
  rewrite (eco_potentials_disc _ _ _ _ Hx Hy Hz).
  rewrite (texture2D_in_grid _ _ _ Hcomplete Hcur).
  cbn [vx vy vz Ecosystem.step_uniforms Eco.u_R Eco.u_T Eco.u_mu Eco.u_sigma
       Eco.u_dt Eco.u_predation Eco.u_benefit].
  rewrite Hpred, Hben.
  f_equal; f_equal; f_equal; lra.
Qed.

(** C2, as the code has it.  With predation and benefit strength 0 the
    predation-loss and benefit-gain terms vanish, and the colour the
    ecosystem step draws for a cell of its CLAMP_TO_EDGE texture holds, in
    each channel, the decay factor
    (0.9995, 0.9993, 0.9990) times
    [clamp(current + G * dt / T - crowding * current, 0, 1)], where [G] is the
    growth of the channel's own disc potential with the channel's own R, mu
    and sigma, and [crowding] is computed from the sum of the three
    densities of the cell.  At a cell whose total density is at most 0.5 the
    crowding term is 0 and the value is the decay factor times the
    single-species update of that channel. *)
Theorem neutral_ecosystem_step_per_channel
    (e : Ecosystem.LeniaEcosystem) (x y : Z) :
  Ecosystem.predationStrength e = 0 ->
  Ecosystem.benefitStrength e = 0 ->
  edge_clamped (Ecosystem.current_texture e) ->
  in_grid (Ecosystem.current_texture e) x y = true ->
  let t := Ecosystem.current_texture e in
  let c := texels t x y in
  let dt := Ecosystem.timeScale e in
  let U (sp : Ecosystem.SpeciesDef) (channel : vec4 -> R) :=
    disc_potential (Ecosystem.radius sp)
      (fun dx dy => channel (texture2D t (x + dx) (y + dy))) in
  let next (sp : Ecosystem.SpeciesDef) (channel : vec4 -> R) :=
    clamp (channel c
           + growth (U sp channel) (Ecosystem.mu sp) (Ecosystem.sigma sp)
             * dt / Ecosystem.timescale sp
           - crowding_of c * channel c) 0 1 in
  let frag := Eco.main (Ecosystem.step_uniforms e) t in
  Ecosystem.current_texture (Ecosystem.step e)
  = drawArrays (Ecosystem.texture_at e (negb (Ecosystem.currentBuffer e))) frag
  /\ frag x y
     = Vec4 (next Ecosystem.prey cr * 0.9995)
            (next Ecosystem.predator cg * 0.9993)
            (next Ecosystem.apex cb * 0.9990) 1
  /\ (cr c + cg c + cb c <= 0.5 ->
      frag x y
      = Vec4 (single_species_update (cr c) (U Ecosystem.prey cr)
                (Ecosystem.mu Ecosystem.prey) (Ecosystem.sigma Ecosystem.prey)
                dt (Ecosystem.timescale Ecosystem.prey) * 0.9995)
             (single_species_update (cg c) (U Ecosystem.predator cg)
                (Ecosystem.mu Ecosystem.predator)
                (Ecosystem.sigma Ecosystem.predator)
                dt (Ecosystem.timescale Ecosystem.predator) * 0.9993)
             (single_species_update (cb c) (U Ecosystem.apex cb)
                (Ecosystem.mu Ecosystem.apex) (Ecosystem.sigma Ecosystem.apex)
                dt (Ecosystem.timescale Ecosystem.apex) * 0.9990)
             1).
Proof.
  intros Hpred Hben [Hs Ht] Hcur. cbv zeta.
  assert (Hcomplete : complete (Ecosystem.current_texture e) = true).
  { apply in_grid_spec in Hcur as Hxy.
    apply complete_clamped; [exact Hs | exact Ht | lia | lia]. }
  pose proof (neutral_shader_output e x y Hpred Hben Hcomplete Hcur) as Hout.
  split; [apply eco_step_current|]. split; [exact Hout|].
  intros Hsparse. rewrite Hout. unfold single_species_update.
  rewrite (crowding_sparse _ Hsparse).
  f_equal; f_equal; f_equal; lra.
Qed.

Lemma neutral_ecosystem_step_per_channel_witness :
  cr (Eco.main
        (Ecosystem.step_uniforms (neutral_ecosystem 64 64 (cell_seed sparse_cell)))
        (Ecosystem.current_texture
           (neutral_ecosystem 64 64 (cell_seed sparse_cell)))
        32 32)
  = single_species_update 0.2
      (disc_potential 10
         (fun dx dy =>
            cr (texture2D (Ecosystem.current_texture
                             (neutral_ecosystem 64 64 (cell_seed sparse_cell)))
                          (32 + dx) (32 + dy))))
      0.14 0.015 0.5 15 * 0.9995.
Proof.
  destruct (neutral_ecosystem_step_per_channel
              (neutral_ecosystem 64 64 (cell_seed sparse_cell)) 32 32
              eq_refl eq_refl (conj eq_refl eq_refl) eq_refl) as (_ & _ & H).
  rewrite H; [reflexivity|].
  change (texels (Ecosystem.current_texture
                    (neutral_ecosystem 64 64 (cell_seed sparse_cell))) 32 32)
    with sparse_cell.
  unfold sparse_cell; cbn [cr cg cb]. lra.
Defined.

Lemma clamp_lower (x v : R) : 0 <= v <= 1 -> v <= x -> v <= clamp x 0 1.
Proof.
  intros Hv Hx. unfold clamp, Rmin, Rmax.
  destruct (Rle_dec x 0); destruct (Rle_dec _ 1); lra.
Qed.

Lemma disc_potential_ext (radius : R) (s1 s2 : Z -> Z -> R) :
  (forall dx dy, s1 dx dy = s2 dx dy) ->
  disc_potential radius s1 = disc_potential radius s2.
Proof.
  intros H. unfold disc_potential. f_equal. f_equal.
  apply map_ext. intros o. rewrite H. reflexivity.
Qed.

Lemma growth_step_bounds (U mu sigma dt T : R) :
  0 < dt -> 0 < T ->
  - (dt / T) < growth U mu sigma * dt / T <= dt / T.
Proof.
  intros Hdt HT.
  pose proof (growth_lower U mu sigma) as Hlo.
  pose proof (growth_upper U mu sigma) as Hhi.
  assert (Hq : 0 < dt / T) by (apply Rdiv_lt_0_compat; assumption).
  replace (growth U mu sigma * dt / T) with (growth U mu sigma * (dt / T))
    by (unfold Rdiv; ring).
  split; nra.
Qed.

(** C2 as stated fails.  With predation and benefit strength 0, on the
    field whose only non-zero cell (32, 32) holds (0.4, 1, 1): the ecosystem
    step differs at that cell from three single-species steps (the predator
    channel comes out below 0.93, the single-species step gives at least
    0.975); and the new prey value depends on the other channels, since the
    field that holds (0.4, 0, 0) in the same cell has the same prey channel
    everywhere and yet a different new prey value. *)
Lemma neutral_ecosystem_not_three_single_steps :
  let eA := neutral_ecosystem 64 64 (cell_seed crowded_cell) in
  let eB := neutral_ecosystem 64 64 (cell_seed lone_prey_cell) in
  Ecosystem.predationStrength eA = 0
  /\ Ecosystem.benefitStrength eA = 0
  /\ texels (Ecosystem.current_texture (Ecosystem.step eA)) 32 32
     <> three_single_steps eA 32 32
  /\ (forall i j : Z,
        cr (texels (Ecosystem.current_texture eA) i j)
        = cr (texels (Ecosystem.current_texture eB) i j))
  /\ cr (texels (Ecosystem.current_texture (Ecosystem.step eA)) 32 32)
     <> cr (texels (Ecosystem.current_texture (Ecosystem.step eB)) 32 32).
Proof.
  cbv zeta.
  set (eA := neutral_ecosystem 64 64 (cell_seed crowded_cell)).
  set (eB := neutral_ecosystem 64 64 (cell_seed lone_prey_cell)).
  pose proof (eco_step_texel eA 32 32 eq_refl) as HA.
  pose proof (eco_step_texel eB 32 32 eq_refl) as HB.
  rewrite (neutral_shader_output eA 32 32 eq_refl eq_refl eq_refl eq_refl) in HA.
  rewrite (neutral_shader_output eB 32 32 eq_refl eq_refl eq_refl eq_refl) in HB.
  change (texels (Ecosystem.current_texture eA) 32 32) with crowded_cell in HA.
  change (texels (Ecosystem.current_texture eB) 32 32) with lone_prey_cell in HB.
  rewrite (crowding_dense crowded_cell) in HA
    by (unfold crowded_cell; cbn [cr cg cb]; lra).
  rewrite (crowding_sparse lone_prey_cell) in HB
    by (unfold lone_prey_cell; cbn [cr cg cb]; lra).
  assert (Hsame : forall i j : Z,
             cr (texels (Ecosystem.current_texture eA) i j)
             = cr (texels (Ecosystem.current_texture eB) i j)).
  { intros i j. unfold eA, eB, neutral_ecosystem, Ecosystem.current_texture,
      Ecosystem.texture_at, Ecosystem.new, texImage2D, cell_seed.
    cbn [Ecosystem.textures Ecosystem.currentBuffer fst texels].
    destruct ((i =? 32) && (j =? 32))%Z; reflexivity. }
  split; [reflexivity|]. split; [reflexivity|]. split; [|split].
  - intros Heq. apply (f_equal cg) in Heq. rewrite HA in Heq.
    unfold three_single_steps in Heq. cbv zeta in Heq. cbn [cg] in Heq.
    rewrite main_texel in Heq. cbv zeta in Heq. cbn [cr] in Heq.
    change (cr (texture2D (channel_field cg (Ecosystem.current_texture eA)) 32 32))
      with 1 in Heq.
    unfold crowded_cell in Heq.
    cbn [cg Ecosystem.timeScale eA neutral_ecosystem Ecosystem.timescale
         Ecosystem.predator species_uniforms Sim.u_dt Sim.u_T Sim.u_trail
         Sim.u_mu Sim.u_sigma Ecosystem.mu Ecosystem.sigma] in Heq.
    match type of Heq with
    | context [growth (disc_potential ?r ?s) ?m ?sg] =>
        pose proof (growth_step_bounds (disc_potential r s) m sg 0.5 20) as Ha;
        set (a := growth (disc_potential r s) m sg * 0.5 / 20) in *
    end.
    match type of Heq with
    | context [growth (Sim.potential ?u ?t ?x ?y) ?m ?sg] =>
        pose proof (growth_step_bounds (Sim.potential u t x y) m sg 0.5 20) as Hb;
        set (b := growth (Sim.potential u t x y) m sg * 0.5 / 20) in *
    end.
    assert (H05 : 0 < 0.5) by lra. assert (H20 : 0 < 20) by lra.
    specialize (Ha H05 H20). specialize (Hb H05 H20).
    rewrite (clamp_id (1 + a - 0.1 * 1)) in Heq by lra.
    pose proof (clamp_lower (1 + b) 0.97) as Hl.
    lra.
  - exact Hsame.
  - rewrite HA, HB. cbn [cr].
    rewrite (disc_potential_ext _ _
               (fun dx dy => cr (texture2D (Ecosystem.current_texture eB)
                                           (32 + dx) (32 + dy)))).
    2:{ intros dx dy. unfold texture2D. apply Hsame. }
    unfold crowded_cell, lone_prey_cell.
    cbn [cr Ecosystem.timeScale eA eB neutral_ecosystem Ecosystem.timescale
         Ecosystem.prey Ecosystem.mu Ecosystem.sigma Ecosystem.radius].
    match goal with
    | |- context [growth ?U ?m ?s * 0.5 / 15] =>
        pose proof (growth_step_bounds U m s 0.5 15) as Ha;
        set (a := growth U m s * 0.5 / 15) in *
    end.
    assert (H05 : 0 < 0.5) by lra. assert (H15 : 0 < 15) by lra.
    specialize (Ha H05 H15).
    rewrite (clamp_id (0.4 + a - 0.1 * 0.4)) by lra.
    rewrite (clamp_id (0.4 + a - 0 * 0.4)) by lra. lra.
Qed.

Lemma eco_potentials_predation (p : R) (u : Eco.uniforms) (t : texture) (x y : Z) :
  Eco.potentials (with_predation p u) t x y = Eco.potentials u t x y.
Proof. reflexivity. Qed.

(** C10: in the ecosystem shader the predation loss [other * predation * own]
    is subtracted from the prey channel (eaten by the predator) and from the
    predator channel (eaten by the apex), and no such term is subtracted from
    the apex channel: its new value is
    [clamp(apex + G * dt / T + gain - crowding * apex, 0, 1) * 0.9990], the
    same for every predation strength.  The only term subtracted in it is the
    crowding term and the only factor applied is 0.9990; the benefit gain,
    the one term in which another species' density enters directly, is not
    negative when the benefit strength is not negative. *)
Theorem apex_has_no_predation_loss
    (u : Eco.uniforms) (t : texture) (x y : Z) :
  0 <= Eco.u_benefit u ->
  unit_vec4 (texture2D t x y) ->
  let c := texture2D t x y in
  let U := Eco.potentials u t x y in
  let preyLoss := cg c * Eco.u_predation u * cr c in
  let predLoss := cb c * Eco.u_predation u * cg c in
  let predGain := cr c * Eco.u_benefit u * cg c * 0.5 in
  let apexGain := cg c * Eco.u_benefit u * cb c * 0.3 in
  cr (Eco.main u t x y)
  = clamp (cr c + growth (vx U) (vx (Eco.u_mu u)) (vx (Eco.u_sigma u))
                  * Eco.u_dt u / vx (Eco.u_T u)
           - preyLoss - crowding_of c * cr c) 0 1 * 0.9995
  /\ cg (Eco.main u t x y)
     = clamp (cg c + growth (vy U) (vy (Eco.u_mu u)) (vy (Eco.u_sigma u))
                     * Eco.u_dt u / vy (Eco.u_T u)
              + predGain - predLoss - crowding_of c * cg c) 0 1 * 0.9993
  /\ cb (Eco.main u t x y)
     = clamp (cb c + growth (vz U) (vz (Eco.u_mu u)) (vz (Eco.u_sigma u))
                     * Eco.u_dt u / vz (Eco.u_T u)
              + apexGain - crowding_of c * cb c) 0 1 * 0.9990
  /\ 0 <= apexGain
  /\ 0 <= crowding_of c * cb c
  /\ (forall p : R,
        cb (Eco.main (with_predation p u) t x y) = cb (Eco.main u t x y)).
Proof.
  intros Hben (Hr & Hg & Hb). cbv zeta.
  rewrite eco_main_texel. cbv zeta. cbn [cr cg cb].
  split; [reflexivity|]. split; [reflexivity|]. split; [reflexivity|].
  split; [|split].
  - assert (0 <= cg (texture2D t x y) * Eco.u_benefit u) by nra.
    assert (0 <= cg (texture2D t x y) * Eco.u_benefit u * cb (texture2D t x y))
      by nra.
    lra.
  - pose proof (crowding_nonneg (texture2D t x y)). nra.
  - intros p. rewrite eco_main_texel. cbv zeta. cbn [cb].
    rewrite eco_potentials_predation. reflexivity.
Qed.

Lemma apex_has_no_predation_loss_witness :
  0 <= cg (grey_seed 3 5) * 0.12 * cb (grey_seed 3 5) * 0.3
  /\ forall p : R,
       cb (Eco.main (with_predation p (Ecosystem.step_uniforms ecosystem0))
                    (Ecosystem.current_texture ecosystem0) 3 5)
       = cb (Eco.main (Ecosystem.step_uniforms ecosystem0)
                      (Ecosystem.current_texture ecosystem0) 3 5).
Proof.
  assert (Hben : 0 <= Eco.u_benefit (Ecosystem.step_uniforms ecosystem0))
    by (cbn [Eco.u_benefit Ecosystem.step_uniforms Ecosystem.benefitStrength
             ecosystem0 Ecosystem.new]; lra).
  assert (Hunit : unit_vec4 (texture2D (Ecosystem.current_texture ecosystem0) 3 5)).
  { change (texture2D (Ecosystem.current_texture ecosystem0) 3 5)
      with (grey_seed 3 5).
    unfold unit_vec4, grey_seed; cbn [cr cg cb]. lra. }
  destruct (apex_has_no_predation_loss (Ecosystem.step_uniforms ecosystem0)
              (Ecosystem.current_texture ecosystem0) 3 5 Hben Hunit)
    as (_ & _ & _ & Hgain & _ & Hindep).
  split; [exact Hgain | exact Hindep].
Defined.

(** ** The preset gallery *)

Section PresetFacts.
Import Presets.

Lemma get_truthy_own (o : JsObject) (id : string) (p : Preset) :
  own o !! id = Some p -> get_truthy o id = true.
Proof. intros H. unfold get_truthy. rewrite H. reflexivity. Qed.

Lemma get_truthy_fresh (o : JsObject) (id : string) :
  own o !! id = None -> proto o = None -> id ∉ object_prototype_names ->
  get_truthy o id = false.
Proof.
  intros Hown Hproto Hname. unfold get_truthy. rewrite Hown, Hproto.
  apply bool_decide_eq_false. exact Hname.
Qed.

(** Saving under an id the store holds succeeds whatever the number of
    presets, and overwrites that entry. *)
Lemma savePreset_overwrites (now : Z) (quota_ok : bool) (id : string)
    (ps : PresetParams) (g : PresetGallery) (old : Preset) :
  own (presets g) !! id = Some old ->
  exists g',
    savePreset now quota_ok id ps g = (Returned tt, g')
    /\ own (presets g') = <[id := {| params := ps; created := now |}]> (own (presets g))
    /\ (quota_ok = true -> stored g' = Some (own (presets g'))).
Proof.
  intros Hold. unfold savePreset.
  rewrite (get_truthy_own _ _ _ Hold), andb_false_r.
  eexists. split; [reflexivity|].
  unfold assign. rewrite Hold.
  destruct quota_ok; split; try reflexivity; discriminate.
Qed.

(** At the limit, saving under an id that is neither in the store nor a
    property name of [Object.prototype] throws and changes nothing. *)
Lemma savePreset_full_throws (now : Z) (quota_ok : bool) (id : string)
    (ps : PresetParams) (g : PresetGallery) :
  (maxPresets g <= keys_length (presets g))%nat ->
  own (presets g) !! id = None ->
  proto (presets g) = None ->
  id ∉ object_prototype_names ->
  savePreset now quota_ok id ps g
  = (Threw ("Maximum " +:+ pretty (maxPresets g) +:+ " presets reached"), g).
Proof.
  intros Hfull Hown Hproto Hname. unfold savePreset.
  rewrite (get_truthy_fresh _ _ Hown Hproto Hname).
  apply Nat.leb_le in Hfull. rewrite Hfull. reflexivity.
Qed.

End PresetFacts.

Lemma full_gallery_size :
  Presets.keys_length (Presets.presets full_gallery) = 20%nat.
Proof. vm_compute. reflexivity. Qed.

(** C9 at the id [constructor]: the gallery holds 20 presets, none of them
    under [constructor], and yet [savePreset] returns normally and the
    gallery then holds 21, because [this.presets[id]] finds the inherited
    [Object.prototype.constructor] and the limit check is skipped. *)
Theorem savePreset_inherited_name_passes_limit :
  Presets.maxPresets full_gallery = 20%nat
  /\ Presets.keys_length (Presets.presets full_gallery) = 20%nat
  /\ Presets.own (Presets.presets full_gallery) !! "constructor" = None
  /\ exists g',
       Presets.savePreset 2 true "constructor" (user_params "Constructor")
                          full_gallery
       = (Returned tt, g')
       /\ Presets.keys_length (Presets.presets g') = 21%nat.
Proof.
  split; [reflexivity|]. split; [exact full_gallery_size|].
  split; [vm_compute; reflexivity|].
  eexists. split; [vm_compute; reflexivity|]. vm_compute. reflexivity.
Qed.

(** ** A canvas whose size is no power of two *)

Lemma normalize_convolve_zero (b : Z) (radius : R) (state : Z -> Z -> R) :
  (forall dx dy, state dx dy = 0) ->
  Sim.normalize (Sim.convolve b radius state) = 0.
Proof.
  intros Hs. unfold Sim.normalize. rewrite convolve_sums. cbn [fst snd].
  rewrite Rsum_zero; [unfold Rdiv; apply Rmult_0_l|].
  intros v Hv. apply in_map_iff in Hv as (o & <- & _). rewrite Hs. lra.
Qed.

Lemma exp_neg_half (x : R) : 1 <= x -> exp (- x) <= / 2.
Proof.
  intros Hx. rewrite exp_Ropp.
  apply Rinv_le_contravar; [lra|].
  pose proof (exp_ineq1 x). lra.
Qed.

(** Far from the growth centre, at least [sqrt 2] widths away, the growth
    is not positive. *)
Lemma growth_far_nonpos (U mu sigma : R) :
  2 <= ((U - mu) / sigma) * ((U - mu) / sigma) -> growth U mu sigma <= 0.
Proof.
  intros Hfar. unfold growth. cbv zeta.
  set (d := (U - mu) / sigma) in *.
  replace (- d * d / 2) with (- (d * d / 2)) by lra.
  pose proof (exp_neg_half (d * d / 2)). lra.
Qed.

(** On a texture that is not complete the shader reads 0 for the cell and
    for all its neighbours, whatever the texture holds. *)
Lemma main_incomplete (u : Sim.uniforms) (t : texture) (x y : Z) :
  complete t = false ->
  Sim.main u t x y =
  let v := clamp (0 + growth 0 (Sim.u_mu u) (Sim.u_sigma u)
                      * Sim.u_dt u / Sim.u_T u) 0 1 * Sim.u_trail u in
  Vec4 v v v 1.
Proof.
  intros Hc. rewrite main_texel. cbv zeta. unfold Sim.potential.
  rewrite normalize_convolve_zero
    by (intros dx dy; rewrite texture2D_incomplete by exact Hc; reflexivity).
  rewrite texture2D_incomplete by exact Hc. reflexivity.
Qed.



(** ** Further facts: the kernel *)

Lemma kernel_arg_bounds (r : R) : 0 <= r <= 1 -> 0 <= 4 * r * (1 - r) <= 1.
Proof.
  intros Hr. pose proof (Rle_0_sqr (2 * r - 1)) as Hs. unfold Rsqr in Hs.
  split; nra.
Qed.

Lemma kernel_unit (r : R) : 0 <= r <= 1 -> 0 <= kernel r <= 1.
Proof.
  intros Hr. split; [apply kernel_nonneg|].
  unfold kernel. cbv zeta.
  pose proof (kernel_arg_bounds r Hr). nra.
Qed.

(** X1: The weight bump [w(r) = (4r(1-r))^2]: it lies in [0,1] on [0,1],
    vanishes at both ends, equals 1 exactly in the middle, and is symmetric
    about the middle. *)
Theorem kernel_bump (r : R) :
  0 <= r <= 1 ->
  0 <= kernel r <= 1
  /\ kernel 0 = 0 /\ kernel 1 = 0
  /\ kernel 0.5 = 1
  /\ kernel (1 - r) = kernel r
  /\ (kernel r = 1 -> r = 0.5).
Proof.
  intros Hr. split; [apply kernel_unit, Hr|].
  destruct (kernel_outside 0) as [K0 K1].
  split; [exact K0|]. split; [exact K1|].
  unfold kernel. cbv zeta.
  split; [lra|]. split; [ring|].
  intros H.
  pose proof (kernel_arg_bounds r Hr) as [H0 H1].
  assert (H2 : 4 * r * (1 - r) = 1) by nra.
  assert (H3 : (2 * r - 1) * (2 * r - 1) = 0) by nra.
  apply Rmult_integral in H3. lra.
Qed.

Lemma kernel_bump_witness :
  0 <= kernel 0.25 <= 1 /\ kernel (1 - 0.25) = kernel 0.25.
Proof.
  assert (H : 0 <= 0.25 <= 1) by lra.
  destruct (kernel_bump 0.25 H) as (Hu & _ & _ & _ & Hs & _).
  split; [exact Hu | exact Hs].
Defined.

(** ** Further facts: potentials *)

Lemma wrap_coord_grid (m : WrapMode) (n i : Z) :
  (0 < n)%Z -> (0 <= wrap_coord m n i < n)%Z.
Proof.
  intros Hn. destruct m; cbn [wrap_coord].
  - apply Z.mod_pos_bound. exact Hn.
  - lia.
Qed.

Lemma texture2D_in_field (t : texture) (i j : Z) :
  complete t = true ->
  exists i' j', in_grid t i' j' = true /\ texture2D t i j = texels t i' j'.
Proof.
  intros Hc.
  assert (Hpos : (0 < width t)%Z /\ (0 < height t)%Z).
  { unfold complete in Hc. apply andb_true_iff in Hc as [Hc _].
    apply andb_true_iff in Hc as [HW HH].
    apply Z.ltb_lt in HW, HH. split; assumption. }
  destruct Hpos as [HW HH].
  exists (wrap_coord (wrap_s t) (width t) i), (wrap_coord (wrap_t t) (height t) j).
  split; [|apply texture2D_complete, Hc].
  apply in_grid_spec. split; apply wrap_coord_grid; assumption.
Qed.

(** A sample is a texel of the field, or the colour [(0, 0, 0, 1)] of a
    texture that is not complete. *)
Lemma texture2D_cases (t : texture) (i j : Z) :
  (exists i' j', in_grid t i' j' = true /\ texture2D t i j = texels t i' j')
  \/ texture2D t i j = Vec4 0 0 0 1.
Proof.
  destruct (complete t) eqn:Hc.
  - left. apply texture2D_in_field, Hc.
  - right. apply texture2D_incomplete, Hc.
Qed.

Lemma texture2D_unit (t : texture) (i j : Z) :
  (0 < width t)%Z -> (0 < height t)%Z -> unit_range t ->
  unit_vec4 (texture2D t i j).
Proof.
  intros HW HH Hu.
  destruct (texture2D_cases t i j) as [(i' & j' & Hg & ->) | ->].
  - apply Hu, Hg.
  - unfold unit_vec4. cbn [cr cg cb]. lra.
Qed.

Lemma Rsum_le_pointwise {T : Type} (f g : T -> R) (l : list T) :
  (forall x, In x l -> f x <= g x) -> Rsum (map f l) <= Rsum (map g l).
Proof.
  induction l as [|x l IH]; intros H; simpl; [lra|].
  assert (f x <= g x) by (apply H; left; reflexivity).
  assert (Rsum (map f l) <= Rsum (map g l))
    by (apply IH; intros z Hz; apply H; right; exact Hz).
  lra.
Qed.

Lemma Rsum_map_nonneg {T : Type} (f : T -> R) (l : list T) :
  (forall x, In x l -> 0 <= f x) -> 0 <= Rsum (map f l).
Proof.
  intros H. apply Rsum_nonneg. intros v Hv.
  apply in_map_iff in Hv as (x & <- & Hx). apply H, Hx.
Qed.

Lemma Rsum_scale {T : Type} (c : R) (f : T -> R) (l : list T) :
  Rsum (map (fun x => c * f x) l) = c * Rsum (map f l).
Proof. induction l as [|x l IH]; simpl; [lra | rewrite IH; lra]. Qed.

Lemma disc_weight_nonneg (radius : R) (o : Z * Z) : 0 <= disc_weight radius o.
Proof. apply kernel_nonneg. Qed.

(** A weighted average of values in [0,1], with the denominator kept
    above the epsilon, lies in [0,1]. *)
Lemma normalize_convolve_unit (b : Z) (radius : R) (state : Z -> Z -> R) :
  (forall dx dy, 0 <= state dx dy <= 1) ->
  0 <= Sim.normalize (Sim.convolve b radius state) <= 1.
Proof.
  intros Hs. unfold Sim.normalize. rewrite convolve_sums. cbn [fst snd].
  set (l := List.filter (within radius) (offsets b)).
  set (total := Rsum (map (fun o => state (fst o) (snd o) * disc_weight radius o) l)).
  set (ksum := Rsum (map (disc_weight radius) l)).
  assert (H0 : 0 <= total).
  { apply Rsum_map_nonneg. intros o _. apply Rmult_le_pos;
      [apply Hs | apply disc_weight_nonneg]. }
  assert (H1 : total <= ksum).
  { apply Rsum_le_pointwise. intros o _.
    pose proof (Hs (fst o) (snd o)). pose proof (disc_weight_nonneg radius o). nra. }
  pose proof (normalize_denominator_pos ksum) as HD.
  pose proof (Rmax_l ksum 0.001) as HM.
  split.
  - apply Rmult_le_pos; [exact H0 | left; apply Rinv_0_lt_compat, HD].
  - apply (Rmult_le_reg_r (Rmax ksum 0.001)); [exact HD|].
    unfold Rdiv. rewrite Rmult_assoc, Rinv_l by lra. lra.
Qed.

(** X2: In a field with values in [0,1] every potential lies in [0,1]: the one
    of the single-species shader and the three of the ecosystem shader. *)
Theorem potentials_in_unit_interval (t : texture) (x y : Z) :
  (0 < width t)%Z -> (0 < height t)%Z -> unit_range t ->
  (forall u : Sim.uniforms, 0 <= Sim.potential u t x y <= 1)
  /\ (forall u : Eco.uniforms,
        0 <= vx (Eco.potentials u t x y) <= 1
        /\ 0 <= vy (Eco.potentials u t x y) <= 1
        /\ 0 <= vz (Eco.potentials u t x y) <= 1).
Proof.
  intros HW HH Hu.
  assert (Hcell : forall i j, unit_vec4 (texture2D t i j))
    by (intros i j; apply texture2D_unit; assumption).
  split.
  - intros u. unfold Sim.potential. apply normalize_convolve_unit.
    intros dx dy. apply Hcell.
  - intros u. unfold Eco.potentials, Eco.normalize. cbn [vx vy vz].
    destruct (eco_convolve_channels (Eco.u_R u)
                (fun dx dy => texture2D t (x + dx) (y + dy))) as (Ex & Ey & Ez).
    cbv zeta in Ex, Ey, Ez.
    pose proof (normalize_convolve_unit Eco.LOOP_BOUND (vx (Eco.u_R u))
                  (fun dx dy => cr (texture2D t (x + dx) (y + dy)))
                  (fun dx dy => proj1 (Hcell _ _))) as Hx.
    pose proof (normalize_convolve_unit Eco.LOOP_BOUND (vy (Eco.u_R u))
                  (fun dx dy => cg (texture2D t (x + dx) (y + dy)))
                  (fun dx dy => proj1 (proj2 (Hcell _ _)))) as Hy.
    pose proof (normalize_convolve_unit Eco.LOOP_BOUND (vz (Eco.u_R u))
                  (fun dx dy => cb (texture2D t (x + dx) (y + dy)))
                  (fun dx dy => proj2 (proj2 (Hcell _ _)))) as Hz.
    rewrite <- Ex in Hx. rewrite <- Ey in Hy. rewrite <- Ez in Hz.
    unfold Sim.normalize in Hx, Hy, Hz. cbn [fst snd] in Hx, Hy, Hz.
    repeat split; tauto.
Qed.

Lemma potentials_in_unit_interval_witness :
  0 <= Sim.potential radius14 (Engine.current_texture engine0) 3 5 <= 1.
Proof.
  destruct (potentials_in_unit_interval (Engine.current_texture engine0) 3 5)
    as [H _].
  - reflexivity.
  - reflexivity.
  - apply grey_seed_unit.
  - apply H.
Defined.

(** ** Further facts: one tick of the single-species engine *)

Section TickFacts.
Import Engine.

Lemma step_fields (d : Draws) (e e' : Lenia) :
  step d e = Returned e' ->
  SPECIES e' = SPECIES e
  /\ currentSpecies e' = currentSpecies e
  /\ mutationMode e' = mutationMode e
  /\ mutatedParams e' = mutatedParams (tick_state d e)
  /\ mutationSpeed e' = mutationSpeed e
  /\ timeScale e' = timeScale e
  /\ trailEnabled e' = trailEnabled e
  /\ trailAmount e' = trailAmount e
  /\ currentBuffer e' = negb (currentBuffer e)
  /\ texture_at e' (negb (currentBuffer e')) = current_texture e
  /\ exists params,
       step_params d e = Some params
       /\ current_texture e' =
            drawArrays (texture_at e (negb (currentBuffer e)))
                       (Sim.main (step_uniforms params (tick_state d e))
                                 (current_texture e)).
Proof.
  intros Hstep. unfold step in Hstep.
  destruct (step_params d e) as [params|] eqn:Hp; [|discriminate].
  injection Hstep as <-.
  pose proof (mutate_fields d e) as (_ & _ & _ & _ & Hmm & Hms & _).
  assert (Hmode : mutationMode (tick_state d e) = mutationMode e)
    by (unfold tick_state; destruct (mutationMode e) eqn:E;
        [rewrite Hmm; reflexivity | exact E]).
  assert (Hspeed : mutationSpeed (tick_state d e) = mutationSpeed e)
    by (unfold tick_state; destruct (mutationMode e); [exact Hms | reflexivity]).
  destruct (tick_state_fields d e) as (HS & HT & HB & HC & HTS & HTE & HTA).
  rewrite current_texture_swap.
  unfold texture_at, current_texture, texture_at.
  cbn [SPECIES currentSpecies mutationMode mutatedParams mutationSpeed
       timeScale trailEnabled trailAmount currentBuffer textures].
  rewrite HT, HB.
  repeat split; try assumption; try reflexivity.
  - destruct (currentBuffer e); reflexivity.
  - exists params. split; reflexivity.
Qed.

Lemma step_well_sized (d : Draws) (e e' : Lenia) :
  step d e = Returned e' -> well_sized e -> well_sized e'.
Proof.
  intros Hstep (HW & HH & HW' & HH').
  destruct (step_fields d e e' Hstep)
    as (_ & _ & _ & _ & _ & _ & _ & _ & _ & Hother & params & _ & Hcur).
  unfold well_sized, sized. rewrite Hother, Hcur.
  cbn [width height drawArrays]. rewrite HW', HH'. repeat split; assumption.
Qed.

Lemma step_in_grid (d : Draws) (e e' : Lenia) (i j : Z) :
  step d e = Returned e' -> well_sized e ->
  in_grid (current_texture e') i j = in_grid (current_texture e) i j
  /\ in_grid (texture_at e (negb (currentBuffer e))) i j
     = in_grid (current_texture e) i j.
Proof.
  intros Hstep (_ & _ & HW' & HH').
  destruct (step_fields d e e' Hstep)
    as (_ & _ & _ & _ & _ & _ & _ & _ & _ & _ & params & _ & Hcur).
  rewrite Hcur. unfold in_grid. cbn [width height drawArrays].
  rewrite HW', HH'. split; reflexivity.
Qed.

End TickFacts.

Lemma clamp_moves_less (c a : R) :
  0 <= c <= 1 -> Rabs (clamp (c + a) 0 1 - c) <= Rabs a.
Proof.
  intros Hc. unfold clamp, Rmin, Rmax.
  destruct (Rle_dec (c + a) 0); destruct (Rle_dec _ 1);
    unfold Rabs; repeat destruct (Rcase_abs _); lra.
Qed.

Lemma growth_abs (U mu sigma : R) : Rabs (growth U mu sigma) <= 1.
Proof.
  pose proof (growth_lower U mu sigma). pose proof (growth_upper U mu sigma).
  unfold Rabs. destruct (Rcase_abs _); lra.
Qed.

Lemma setSpeed_range (scale : R) (e : Engine.Lenia) :
  0.1 <= Engine.timeScale (Engine.setSpeed scale e) <= 5.
Proof. cbn [Engine.setSpeed Engine.timeScale]. apply js_clamp_range. lra. Qed.

(** X3: Whatever speed is requested, [setSpeed] leaves a time step in [0.1, 5].
    With the trail effect off, parameters with a positive [T] and a complete
    texture, the following tick returns, and the colour it draws for a cell
    whose state is in [0,1] differs from that state by at most
    [timeStep / T], hence by at most [5 / T]. *)
Theorem tick_change_bounded
    (scale : R) (d : Engine.Draws) (e : Engine.Lenia)
    (params : Engine.Species) (x y : Z) :
  Engine.step_params d (Engine.setSpeed scale e) = Some params ->
  Engine.trailEnabled e = false ->
  0 < Engine.timescale params ->
  complete (Engine.current_texture e) = true ->
  in_grid (Engine.current_texture e) x y = true ->
  0 <= cr (texels (Engine.current_texture e) x y) <= 1 ->
  exists e' frag,
    Engine.step d (Engine.setSpeed scale e) = Returned e'
    /\ Engine.current_texture e'
       = drawArrays (Engine.texture_at e (negb (Engine.currentBuffer e))) frag
    /\ 0.1 <= Engine.timeScale e' <= 5
    /\ Rabs (cr (frag x y) - cr (texels (Engine.current_texture e) x y))
       <= Engine.timeScale e' / Engine.timescale params
    /\ Engine.timeScale e' / Engine.timescale params
       <= 5 / Engine.timescale params.
Proof.
  intros Hp Htrail HT Hcomplete Hcur Hunit.
  set (e1 := Engine.setSpeed scale e) in *.
  destruct (step_returned d e1 params Hp) as (e' & Hstep & Htex & _).
  destruct (step_fields d e1 e' Hstep)
    as (_ & _ & _ & _ & _ & HTS & _).
  pose proof (setSpeed_range scale e) as Hrange. fold e1 in Hrange.
  exists e', (Sim.main (Engine.step_uniforms params (Engine.tick_state d e1))
                       (Engine.current_texture e)).
  split; [exact Hstep|]. split; [exact Htex|].
  rewrite HTS. split; [exact Hrange|].
  assert (HTinv : 0 < / Engine.timescale params) by (apply Rinv_0_lt_compat, HT).
  split.
  - rewrite main_texel. cbv zeta. cbn [cr].
    rewrite (texture2D_in_grid _ _ _ Hcomplete Hcur).
    destruct (tick_state_fields d e1) as (_ & _ & _ & _ & HTS1 & HTE1 & _).
    cbn [Engine.step_uniforms Sim.u_trail Sim.u_dt Sim.u_T Sim.u_mu Sim.u_sigma].
    rewrite HTE1, HTS1.
    change (Engine.trailEnabled e1) with (Engine.trailEnabled e).
    rewrite Htrail, Rmult_1_r.
    match goal with |- Rabs (clamp (_ + ?a) 0 1 - _) <= _ =>
      apply Rle_trans with (Rabs a); [apply clamp_moves_less, Hunit|] end.
    match goal with |- context [growth ?U ?m ?s] =>
      pose proof (growth_abs U m s) as HG; set (G := growth U m s) in * end.
    unfold Rdiv. rewrite !Rabs_mult.
    rewrite (Rabs_pos_eq (Engine.timeScale e1)) by lra.
    rewrite (Rabs_pos_eq (/ Engine.timescale params)) by lra.
    assert (0 <= Engine.timeScale e1 * / Engine.timescale params) by nra.
    rewrite Rmult_assoc. nra.
  - unfold Rdiv. nra.
Qed.

Lemma tick_change_bounded_witness :
  exists e' frag,
    Engine.step mid_draws (Engine.setSpeed 100 engine0) = Returned e'
    /\ Engine.current_texture e'
       = drawArrays (Engine.texture_at engine0 true) frag
    /\ Rabs (cr (frag 3%Z 5%Z) - 0.5) <= 5 / 10.
Proof.
  assert (HT : 0 < Engine.timescale Engine.orbium)
    by (cbn [Engine.timescale Engine.orbium]; lra).
  assert (Hu : 0 <= cr (texels (Engine.current_texture engine0) 3 5) <= 1)
    by (change (texels (Engine.current_texture engine0) 3 5) with (grey_seed 3 5);
        unfold grey_seed; cbn [cr]; lra).
  destruct (tick_change_bounded 100 mid_draws engine0 Engine.orbium 3 5
              eq_refl eq_refl HT eq_refl eq_refl Hu)
    as (e' & frag & Hstep & Htex & _ & Hmove & Hcap).
  exists e', frag. split; [exact Hstep|]. split; [exact Htex|].
  change (cr (texels (Engine.current_texture engine0) 3 5)) with 0.5 in Hmove.
  cbn [Engine.timescale Engine.orbium] in Hmove, Hcap. lra.
Defined.

(** ** Further facts: empty and uniform fields *)

Lemma channel_zero_read (channel : vec4 -> R) (t : texture) (i j : Z) :
  channel (Vec4 0 0 0 1) = 0 ->
  (0 < width t)%Z -> (0 < height t)%Z -> channel_zero channel t ->
  channel (texture2D t i j) = 0.
Proof.
  intros Hblack HW HH Hz.
  destruct (texture2D_cases t i j) as [(i' & j' & Hg & ->) | ->].
  - apply Hz, Hg.
  - exact Hblack.
Qed.

Lemma main_empty (u : Sim.uniforms) (t : texture) (x y : Z) :
  (0 < width t)%Z -> (0 < height t)%Z -> channel_zero cr t ->
  growth 0 (Sim.u_mu u) (Sim.u_sigma u) <= 0 ->
  0 <= Sim.u_dt u -> 0 < Sim.u_T u ->
  Sim.main u t x y = Vec4 0 0 0 1.
Proof.
  intros HW HH Hz HG Hdt HT. rewrite main_texel. cbv zeta.
  unfold Sim.potential.
  rewrite normalize_convolve_zero
    by (intros dx dy; apply channel_zero_read; [reflexivity | assumption ..]).
  rewrite (channel_zero_read cr t x y eq_refl HW HH Hz).
  assert (Hinv : 0 < / Sim.u_T u) by (apply Rinv_0_lt_compat, HT).
  assert (Hstep : 0 + growth 0 (Sim.u_mu u) (Sim.u_sigma u) * Sim.u_dt u / Sim.u_T u <= 0).
  { unfold Rdiv.
    assert (growth 0 (Sim.u_mu u) (Sim.u_sigma u) * Sim.u_dt u <= 0) by nra.
    nra. }
  rewrite (clamp_below _ 0 1) by (lra || exact Hstep).
  rewrite Rmult_0_l. reflexivity.
Qed.

Section EmptyField.
Import Engine.

Lemma quiet_step_params (d : Draws) (e : Lenia) :
  mutationMode e = false -> mutatedParams e = None ->
  tick_state d e = e /\ step_params d e = SPECIES e !! currentSpecies e.
Proof.
  intros Hm Hp. unfold step_params, tick_state. rewrite Hm, Hp. split; reflexivity.
Qed.

Lemma run_empty (sp : Species) (ds : list Draws) :
  growth 0 (mu (growthParams sp)) (sigma (growthParams sp)) <= 0 ->
  0 < timescale sp ->
  forall e : Lenia,
    well_sized e -> mutationMode e = false -> mutatedParams e = None ->
    SPECIES e !! currentSpecies e = Some sp ->
    0 <= timeScale e ->
    empty_field (current_texture e) ->
    exists e', run ds e = Returned e' /\ empty_field (current_texture e').
Proof.
  intros HG HT.
  induction ds as [|d ds IH]; intros e Hsz Hm Hp Hsp Hdt Hempty.
  - exists e. split; [reflexivity | exact Hempty].
  - destruct (quiet_step_params d e Hm Hp) as [Htick Hparams].
    rewrite Hsp in Hparams.
    destruct (step_returned d e sp Hparams) as (e1 & Hstep & _).
    destruct (step_fields d e e1 Hstep)
      as (HS & HC & HM & HP & _ & HTS & _ & _ & _ & _ & params & Hparams' & Hcur).
    rewrite Hparams in Hparams'. injection Hparams' as <-.
    cbn [run]. rewrite Hstep. apply IH.
    + apply (step_well_sized d e e1 Hstep Hsz).
    + rewrite HM. exact Hm.
    + rewrite HP, Htick. exact Hp.
    + rewrite HS, HC. exact Hsp.
    + rewrite HTS. exact Hdt.
    + assert (Hcell : forall i j, in_grid (current_texture e1) i j = true ->
                                  texels (current_texture e1) i j = Vec4 0 0 0 1).
      { intros i j Hij.
        destruct (step_in_grid d e e1 i j Hstep Hsz) as [Hg1 Hg2].
        rewrite Hcur, drawArrays_texel by (rewrite Hg2, <- Hg1; exact Hij).
        destruct Hsz as (HW & HH & _). destruct Hempty as (Hr & _).
        rewrite Htick.
        apply main_empty; try assumption;
          cbn [step_uniforms Sim.u_mu Sim.u_sigma Sim.u_dt Sim.u_T]; assumption. }
      repeat split; intros i j Hij; rewrite (Hcell i j Hij); reflexivity.
Qed.

Lemma clear_fields (e : Lenia) :
  well_sized e ->
  well_sized (LeniaOps.clear e)
  /\ empty_field (current_texture (LeniaOps.clear e))
  /\ texture_at (LeniaOps.clear e) (negb (currentBuffer e))
     = texture_at e (negb (currentBuffer e)).
Proof.
  intros Hsz. unfold well_sized, sized, empty_field, channel_zero,
    LeniaOps.clear, current_texture, texture_at in *.
  cbn [textures currentBuffer] in *.
  destruct (currentBuffer e); cbn [negb fst snd texImage2D width height texels cr cg cb] in *;
    repeat split; try tauto.
Qed.

End EmptyField.

(** X4: After [clear()], with mutation off, a time step that is not
    negative and a current species with a positive [T] whose growth at
    potential 0 is not positive (as for every species of the catalogue), the
    field stays empty for any number of ticks: nothing appears out of
    nothing. *)
Theorem empty_field_stays_empty
    (ds : list Engine.Draws) (e : Engine.Lenia) (sp : Engine.Species) :
  well_sized e ->
  Engine.mutationMode e = false ->
  Engine.mutatedParams e = None ->
  Engine.SPECIES e !! Engine.currentSpecies e = Some sp ->
  growth 0 (Engine.mu (Engine.growthParams sp))
           (Engine.sigma (Engine.growthParams sp)) <= 0 ->
  0 < Engine.timescale sp ->
  0 <= Engine.timeScale e ->
  exists e',
    Engine.run ds (LeniaOps.clear e) = Returned e'
    /\ empty_field (Engine.current_texture e').
Proof.
  intros Hsz Hm Hp Hsp HG HT Hdt.
  destruct (clear_fields e Hsz) as (Hsz' & Hempty & _).
  apply (run_empty sp ds HG HT (LeniaOps.clear e)); assumption.
Qed.

(** The five species of the catalogue have non-positive growth at
    potential 0 and a positive time scale. *)
Lemma catalogue_dormant (key : string) (sp : Engine.Species) :
  Engine.SPECIES0 !! key = Some sp ->
  growth 0 (Engine.mu (Engine.growthParams sp))
           (Engine.sigma (Engine.growthParams sp)) <= 0
  /\ 0 < Engine.timescale sp.
Proof.
  unfold Engine.SPECIES0. intros H.
  repeat (apply lookup_insert_Some in H as [[_ <-] | [_ H]];
          [split; [apply growth_far_nonpos|]; cbn; lra|]).
  rewrite lookup_empty in H. discriminate.
Qed.

Lemma engine0_well_sized : well_sized engine0.
Proof. unfold well_sized, sized. repeat split; reflexivity. Qed.

Lemma empty_field_stays_empty_witness :
  exists e',
    Engine.run [mid_draws; high_draws] (LeniaOps.clear engine0) = Returned e'
    /\ empty_field (Engine.current_texture e').
Proof.
  destruct (catalogue_dormant "orbium" Engine.orbium eq_refl) as [HG HT].
  apply (empty_field_stays_empty [mid_draws; high_draws] engine0 Engine.orbium).
  - exact engine0_well_sized.
  - reflexivity.
  - reflexivity.
  - reflexivity.
  - exact HG.
  - exact HT.
  - cbn [Engine.timeScale engine0 Engine.new]. lra.
Defined.

Lemma kernel_near_centre (radius : R) :
  2 <= radius <= 20 -> 0.01 <= kernel (offset_dist 1 0 / radius).
Proof.
  intros Hr. rewrite offset_dist_axis by lia.
  assert (Hinv : / 20 <= / radius <= / 2).
  { split; apply Rinv_le_contravar; lra. }
  unfold Rdiv. rewrite Rmult_1_l. unfold kernel. cbv zeta.
  set (r := / radius) in *.
  assert (H1 : 0.1 <= 4 * r * (1 - r)) by nra.
  nra.
Qed.

Lemma kernel_sum_above_epsilon (b : Z) (radius : R) :
  (1 <= b)%Z -> 2 <= radius <= 20 ->
  0.001 <= Rsum (map (disc_weight radius) (List.filter (within radius) (offsets b))).
Proof.
  intros Hb Hr.
  apply Rle_trans with (disc_weight radius (1, 0)%Z).
  - unfold disc_weight. cbn [fst snd]. pose proof (kernel_near_centre radius Hr). lra.
  - apply Rsum_ge_member.
    + intros v Hv. apply in_map_iff in Hv as (o & <- & _). apply disc_weight_nonneg.
    + apply in_map_iff. exists (1, 0)%Z. split; [reflexivity|].
      apply filter_In. split.
      * apply In_offsets. lia.
      * apply within_spec. cbn [fst snd]. rewrite offset_dist_axis by lia. lra.
Qed.

Lemma normalize_convolve_uniform (b : Z) (radius c : R) (state : Z -> Z -> R) :
  (1 <= b)%Z -> 2 <= radius <= 20 ->
  (forall dx dy, state dx dy = c) ->
  Sim.normalize (Sim.convolve b radius state) = c.
Proof.
  intros Hb Hr Hs. unfold Sim.normalize. rewrite convolve_sums. cbn [fst snd].
  pose proof (kernel_sum_above_epsilon b radius Hb Hr) as Hsum.
  set (l := List.filter (within radius) (offsets b)) in *.
  rewrite (map_ext (fun o => state (fst o) (snd o) * disc_weight radius o)
                   (fun o => c * disc_weight radius o))
    by (intros o; rewrite Hs; reflexivity).
  rewrite Rsum_scale.
  rewrite Rmax_left by exact Hsum.
  field. lra.
Qed.

(** X5: A uniform field stays uniform.  On a complete texture that holds the
    same value [c] in every cell, for a kernel radius in [2, 20], the
    potential of every cell is [c] itself and the shader outputs
    [clamp(c + growth(c) * dt / T, 0, 1) * trail] for every cell.  On a texture
    that is not complete the shader reads 0 everywhere, whatever the field
    holds: the potential is 0 and the output is
    [clamp(growth(0) * dt / T, 0, 1) * trail] for every cell. *)
Theorem uniform_field_steps_uniformly
    (u : Sim.uniforms) (t : texture) (c : R) (x y : Z) :
  uniform_field c t ->
  2 <= Sim.u_R u <= 20 ->
  (complete t = true ->
   Sim.potential u t x y = c
   /\ Sim.main u t x y
      = let v := clamp (c + growth c (Sim.u_mu u) (Sim.u_sigma u)
                            * Sim.u_dt u / Sim.u_T u) 0 1 * Sim.u_trail u in
        Vec4 v v v 1)
  /\ (complete t = false ->
      Sim.potential u t x y = 0
      /\ Sim.main u t x y
         = let v := clamp (0 + growth 0 (Sim.u_mu u) (Sim.u_sigma u)
                               * Sim.u_dt u / Sim.u_T u) 0 1 * Sim.u_trail u in
           Vec4 v v v 1).
Proof.
  intros Hu Hr. split; intros Hc.
  - assert (Hread : forall i j, cr (texture2D t i j) = c).
    { intros i j. destruct (texture2D_in_field t i j Hc) as (i' & j' & Hg & ->).
      apply Hu, Hg. }
    assert (HU : Sim.potential u t x y = c).
    { unfold Sim.potential. apply normalize_convolve_uniform;
        [unfold Sim.LOOP_BOUND; lia | exact Hr | intros dx dy; apply Hread]. }
    split; [exact HU|].
    rewrite main_texel. cbv zeta. rewrite HU, Hread. reflexivity.
  - split; [|apply main_incomplete, Hc].
    unfold Sim.potential. apply normalize_convolve_zero.
    intros dx dy. rewrite texture2D_incomplete by exact Hc. reflexivity.
Qed.

Lemma uniform_field_steps_uniformly_witness :
  Sim.potential radius14 (Engine.current_texture engine0) 3 5 = 0.5
  /\ Sim.potential radius14 (Engine.current_texture engine60) 3 5 = 0.
Proof.
  destruct (uniform_field_steps_uniformly radius14
              (Engine.current_texture engine0) 0.5 3 5) as [H64 _].
  - intros i j _. reflexivity.
  - cbn [Sim.u_R radius14]. lra.
  - destruct (uniform_field_steps_uniformly radius14
                (Engine.current_texture engine60) 0.5 3 5) as [_ H60].
    + intros i j _. reflexivity.
    + cbn [Sim.u_R radius14]. lra.
    + split; [exact (proj1 (H64 eq_refl)) | exact (proj1 (H60 eq_refl))].
Defined.

(** ** Further facts: the ecosystem *)

Lemma eco_channel_potential_zero (u : Eco.uniforms) (t : texture) (x y : Z) :
  (0 < width t)%Z -> (0 < height t)%Z ->
  (channel_zero cr t -> vx (Eco.potentials u t x y) = 0)
  /\ (channel_zero cg t -> vy (Eco.potentials u t x y) = 0)
  /\ (channel_zero cb t -> vz (Eco.potentials u t x y) = 0).
Proof.
  intros HW HH. unfold Eco.potentials, Eco.normalize. cbn [vx vy vz].
  destruct (eco_convolve_channels (Eco.u_R u)
              (fun dx dy => texture2D t (x + dx) (y + dy))) as (Ex & Ey & Ez).
  cbv zeta in Ex, Ey, Ez.
  repeat split; intros Hz.
  - pose proof (normalize_convolve_zero Eco.LOOP_BOUND (vx (Eco.u_R u))
                  (fun dx dy => cr (texture2D t (x + dx) (y + dy)))
                  (fun dx dy => channel_zero_read cr t _ _ eq_refl HW HH Hz)) as H.
    rewrite <- Ex in H. exact H.
  - pose proof (normalize_convolve_zero Eco.LOOP_BOUND (vy (Eco.u_R u))
                  (fun dx dy => cg (texture2D t (x + dx) (y + dy)))
                  (fun dx dy => channel_zero_read cg t _ _ eq_refl HW HH Hz)) as H.
    rewrite <- Ey in H. exact H.
  - pose proof (normalize_convolve_zero Eco.LOOP_BOUND (vz (Eco.u_R u))
                  (fun dx dy => cb (texture2D t (x + dx) (y + dy)))
                  (fun dx dy => channel_zero_read cb t _ _ eq_refl HW HH Hz)) as H.
    rewrite <- Ez in H. exact H.
Qed.

Lemma growth_step_nonpos (G dt T : R) :
  G <= 0 -> 0 <= dt -> 0 < T -> G * dt / T <= 0.
Proof.
  intros HG Hdt HT.
  assert (Hinv : 0 < / T) by (apply Rinv_0_lt_compat, HT).
  assert (G * dt <= 0) by nra. unfold Rdiv. nra.
Qed.

Lemma ecosystem_species_dormant :
  growth 0 (Ecosystem.mu Ecosystem.prey) (Ecosystem.sigma Ecosystem.prey) <= 0
  /\ growth 0 (Ecosystem.mu Ecosystem.predator)
              (Ecosystem.sigma Ecosystem.predator) <= 0
  /\ growth 0 (Ecosystem.mu Ecosystem.apex) (Ecosystem.sigma Ecosystem.apex) <= 0.
Proof. repeat split; apply growth_far_nonpos; cbn; lra. Qed.

(** One ecosystem tick keeps a channel that is 0 everywhere at 0. *)
Lemma eco_main_extinct (e : Ecosystem.LeniaEcosystem) (x y : Z) :
  0 <= Ecosystem.timeScale e ->
  let t := Ecosystem.current_texture e in
  let c := Eco.main (Ecosystem.step_uniforms e) t x y in
  (0 < width t)%Z -> (0 < height t)%Z ->
  (channel_zero cr t -> cr c = 0)
  /\ (channel_zero cg t -> cg c = 0)
  /\ (channel_zero cb t -> cb c = 0).
Proof.
  intros Hdt t c HW HH. subst c. rewrite eco_main_texel. cbv zeta. cbn [cr cg cb].
  destruct (eco_channel_potential_zero (Ecosystem.step_uniforms e) t x y HW HH)
    as (Ux & Uy & Uz).
  destruct ecosystem_species_dormant as (Gx & Gy & Gz).
  cbn [Ecosystem.step_uniforms Eco.u_mu Eco.u_sigma Eco.u_T Eco.u_dt
       Eco.u_predation Eco.u_benefit vx vy vz].
  repeat split; intros Hz.
  - rewrite (Ux Hz), (channel_zero_read cr t x y eq_refl HW HH Hz).
    pose proof (growth_step_nonpos _ (Ecosystem.timeScale e)
                  (Ecosystem.timescale Ecosystem.prey) Gx Hdt) as Hs.
    rewrite clamp_below; [lra | lra |].
    cbn [Ecosystem.timescale Ecosystem.prey] in *. lra.
  - rewrite (Uy Hz), (channel_zero_read cg t x y eq_refl HW HH Hz).
    pose proof (growth_step_nonpos _ (Ecosystem.timeScale e)
                  (Ecosystem.timescale Ecosystem.predator) Gy Hdt) as Hs.
    rewrite clamp_below; [lra | lra |].
    cbn [Ecosystem.timescale Ecosystem.predator] in *. lra.
  - rewrite (Uz Hz), (channel_zero_read cb t x y eq_refl HW HH Hz).
    pose proof (growth_step_nonpos _ (Ecosystem.timeScale e)
                  (Ecosystem.timescale Ecosystem.apex) Gz Hdt) as Hs.
    rewrite clamp_below; [lra | lra |].
    cbn [Ecosystem.timescale Ecosystem.apex] in *. lra.
Qed.

Section EcoRun.
Import Ecosystem.

Lemma eco_step_other (e : LeniaEcosystem) :
  texture_at (step e) (negb (currentBuffer (step e))) = current_texture e
  /\ timeScale (step e) = timeScale e
  /\ predationStrength (step e) = predationStrength e
  /\ benefitStrength (step e) = benefitStrength e.
Proof.
  unfold step, texture_at, current_texture, texture_at.
  cbn [textures currentBuffer timeScale predationStrength benefitStrength].
  destruct (currentBuffer e); repeat split; reflexivity.
Qed.

Lemma eco_step_well_sized (e : LeniaEcosystem) :
  eco_well_sized e -> eco_well_sized (step e).
Proof.
  intros (HW & HH & HW' & HH'). unfold eco_well_sized, sized.
  destruct (eco_step_other e) as (-> & _). rewrite eco_step_current.
  cbn [width height drawArrays]. rewrite HW', HH'. repeat split; assumption.
Qed.

Lemma eco_step_extinct (channel : vec4 -> R) (e : LeniaEcosystem) :
  channel = cr \/ channel = cg \/ channel = cb ->
  eco_well_sized e -> 0 <= timeScale e ->
  channel_zero channel (current_texture e) ->
  channel_zero channel (current_texture (step e)).
Proof.
  intros Hch (HW & HH & HW' & HH') Hdt Hz i j Hij.
  rewrite eco_step_current in Hij |- *.
  rewrite in_grid_drawArrays in Hij. rewrite drawArrays_texel by exact Hij.
  destruct (eco_main_extinct e i j Hdt HW HH) as (Hr & Hg & Hb).
  destruct Hch as [-> | [-> | ->]]; auto.
Qed.

Lemma eco_run_extinct (channel : vec4 -> R) (n : nat) :
  channel = cr \/ channel = cg \/ channel = cb ->
  forall e : LeniaEcosystem,
    eco_well_sized e -> 0 <= timeScale e ->
    channel_zero channel (current_texture e) ->
    channel_zero channel (current_texture (run n e)).
Proof.
  intros Hch. induction n as [|n IH]; intros e Hsz Hdt Hz; cbn [run]; [exact Hz|].
  apply IH.
  - apply eco_step_well_sized, Hsz.
  - destruct (eco_step_other e) as (_ & -> & _). exact Hdt.
  - apply eco_step_extinct; assumption.
Qed.

End EcoRun.

(** X6: In the ecosystem a species that is absent from the whole field stays
    absent for any number of ticks, whatever the other two species do: a
    channel that is 0 in every cell remains 0 in every cell. *)
Theorem extinct_species_stays_extinct
    (channel : vec4 -> R) (n : nat) (e : Ecosystem.LeniaEcosystem) :
  channel = cr \/ channel = cg \/ channel = cb ->
  eco_well_sized e ->
  0 <= Ecosystem.timeScale e ->
  channel_zero channel (Ecosystem.current_texture e) ->
  channel_zero channel (Ecosystem.current_texture (Ecosystem.run n e)).
Proof. intros Hch. apply eco_run_extinct, Hch. Qed.

Lemma extinct_species_stays_extinct_witness :
  channel_zero cb
    (Ecosystem.current_texture
       (Ecosystem.run 3 (neutral_ecosystem 64 64 (cell_seed lone_prey_cell)))).
Proof.
  apply (extinct_species_stays_extinct cb 3
           (neutral_ecosystem 64 64 (cell_seed lone_prey_cell))).
  - right; right; reflexivity.
  - unfold eco_well_sized, sized. repeat split; reflexivity.
  - cbn [Ecosystem.timeScale neutral_ecosystem]. lra.
  - intros i j _.
    unfold neutral_ecosystem, Ecosystem.current_texture, Ecosystem.texture_at,
      Ecosystem.new, texImage2D, cell_seed.
    cbn [Ecosystem.textures Ecosystem.currentBuffer fst texels].
    destruct ((i =? 32) && (j =? 32))%Z; reflexivity.
Defined.

Lemma eco_potentials_benefit (b : R) (u : Eco.uniforms) (t : texture) (x y : Z) :
  Eco.potentials (with_benefit b u) t x y = Eco.potentials u t x y.
Proof. reflexivity. Qed.

(** X7: Raising the predation strength never raises the new prey or predator
    value of a cell, and raising the benefit strength never lowers the new
    predator or apex value and leaves the prey untouched (densities of the
    cell not negative). *)
Theorem predation_and_benefit_monotone
    (u : Eco.uniforms) (t : texture) (x y : Z) (p1 p2 b1 b2 : R) :
  unit_vec4 (texture2D t x y) ->
  p1 <= p2 -> b1 <= b2 ->
  cr (Eco.main (with_predation p2 u) t x y) <= cr (Eco.main (with_predation p1 u) t x y)
  /\ cg (Eco.main (with_predation p2 u) t x y) <= cg (Eco.main (with_predation p1 u) t x y)
  /\ cg (Eco.main (with_benefit b1 u) t x y) <= cg (Eco.main (with_benefit b2 u) t x y)
  /\ cb (Eco.main (with_benefit b1 u) t x y) <= cb (Eco.main (with_benefit b2 u) t x y)
  /\ cr (Eco.main (with_benefit b1 u) t x y) = cr (Eco.main (with_benefit b2 u) t x y).
Proof.
  intros (Hr & Hg & Hb) Hp Hben.
  rewrite !eco_main_texel. cbv zeta. cbn [cr cg cb].
  rewrite !eco_potentials_predation, !eco_potentials_benefit.
  cbn [with_predation with_benefit Eco.u_predation Eco.u_benefit Eco.u_dt
       Eco.u_T Eco.u_mu Eco.u_sigma].
  set (c := texture2D t x y) in *.
  assert (Hrg : 0 <= cg c * cr c) by nra.
  assert (Hgb : 0 <= cb c * cg c) by nra.
  repeat split.
  - apply Rmult_le_compat_r; [lra|]. apply clamp_mono. nra.
  - apply Rmult_le_compat_r; [lra|]. apply clamp_mono. nra.
  - apply Rmult_le_compat_r; [lra|]. apply clamp_mono. nra.
  - apply Rmult_le_compat_r; [lra|]. apply clamp_mono. nra.
Qed.

Lemma predation_and_benefit_monotone_witness :
  cr (Eco.main (with_predation 0.3 (Ecosystem.step_uniforms ecosystem0))
               (Ecosystem.current_texture ecosystem0) 3 5)
  <= cr (Eco.main (with_predation 0.15 (Ecosystem.step_uniforms ecosystem0))
                  (Ecosystem.current_texture ecosystem0) 3 5).
Proof.
  assert (Hunit : unit_vec4 (texture2D (Ecosystem.current_texture ecosystem0) 3 5)).
  { change (texture2D (Ecosystem.current_texture ecosystem0) 3 5)
      with (grey_seed 3 5).
    unfold unit_vec4, grey_seed; cbn [cr cg cb]. lra. }
  assert (Hp : 0.15 <= 0.3) by lra.
  assert (Hb : 0 <= 1) by lra.
  exact (proj1 (predation_and_benefit_monotone
                  (Ecosystem.step_uniforms ecosystem0)
                  (Ecosystem.current_texture ecosystem0) 3 5
                  0.15 0.3 0 1 Hunit Hp Hb)).
Defined.

(** ** Further facts: the working copy of the parameters *)

Section WorkingCopy.
Import Engine.

Lemma run_fields (ds : list Draws) :
  forall e e' : Lenia,
    run ds e = Returned e' ->
    SPECIES e' = SPECIES e
    /\ currentSpecies e' = currentSpecies e
    /\ mutationMode e' = mutationMode e
    /\ timeScale e' = timeScale e
    /\ trailEnabled e' = trailEnabled e.
Proof.
  induction ds as [|d ds IH]; intros e e' Hrun; cbn [run] in Hrun.
  - injection Hrun as <-. repeat split.
  - destruct (step d e) as [e1|] eqn:Hstep; [|discriminate].
    destruct (step_fields d e e1 Hstep) as (HS & HC & HM & _ & _ & HT & HE & _).
    destruct (IH e1 e' Hrun) as (HS' & HC' & HM' & HT' & HE').
    rewrite HS', HC', HM', HT', HE'. repeat split; assumption.
Qed.

Lemma toggleMutation_off (e : Lenia) :
  mutationMode e = true ->
  exists e',
    toggleMutation e = Returned e'
    /\ mutationMode e' = false /\ mutatedParams e' = None
    /\ SPECIES e' = SPECIES e /\ currentSpecies e' = currentSpecies e.
Proof.
  intros Hm. unfold toggleMutation. rewrite Hm. cbn [negb].
  eexists. split; [reflexivity|]. repeat split.
Qed.

Lemma toggleMutation_on (e e' : Lenia) :
  mutationMode e = false -> toggleMutation e = Returned e' ->
  mutationMode e' = true
  /\ SPECIES e' = SPECIES e /\ currentSpecies e' = currentSpecies e
  /\ exists sp, SPECIES e !! currentSpecies e = Some sp
       /\ exists m, mutatedParams e' = Some m
            /\ radius m = radius sp /\ timescale m = timescale sp
            /\ growthParams m = growthParams sp.
Proof.
  intros Hm. unfold toggleMutation. rewrite Hm. cbn [negb].
  destruct (SPECIES e !! currentSpecies e) as [sp|]; [|discriminate].
  intros [= <-]. cbn [mutationMode SPECIES currentSpecies mutatedParams].
  repeat split. exists sp. split; [reflexivity|].
  eexists. split; [reflexivity|]. cbn [radius timescale growthParams].
  destruct (growthParams sp). repeat split.
Qed.

End WorkingCopy.

(** X8: Mutation works on a copy: switching it on, ticking any number of times
    and switching it off leaves the species table and the selected species
    as they were, drops the drifted copy, and the next tick uses the
    table's entry of the selected species again. *)
Theorem mutation_drift_is_discarded
    (e e1 e2 : Engine.Lenia) (ds : list Engine.Draws) :
  Engine.mutationMode e = false ->
  Engine.toggleMutation e = Returned e1 ->
  Engine.run ds e1 = Returned e2 ->
  Engine.SPECIES e2 = Engine.SPECIES e
  /\ Engine.currentSpecies e2 = Engine.currentSpecies e
  /\ exists e3,
       Engine.toggleMutation e2 = Returned e3
       /\ Engine.mutationMode e3 = false
       /\ Engine.mutatedParams e3 = None
       /\ forall d : Engine.Draws,
            Engine.step_params d e3
            = Engine.SPECIES e !! Engine.currentSpecies e.
Proof.
  intros Hm Hon Hrun.
  destruct (toggleMutation_on e e1 Hm Hon) as (Hm1 & HS1 & HC1 & _).
  destruct (run_fields ds e1 e2 Hrun) as (HS2 & HC2 & HM2 & _).
  assert (Hm2 : Engine.mutationMode e2 = true) by (rewrite HM2; exact Hm1).
  destruct (toggleMutation_off e2 Hm2) as (e3 & Hoff & Hm3 & Hp3 & HS3 & HC3).
  split; [rewrite HS2; exact HS1|]. split; [rewrite HC2; exact HC1|].
  exists e3. split; [exact Hoff|]. split; [exact Hm3|]. split; [exact Hp3|].
  intros d. destruct (quiet_step_params d e3 Hm3 Hp3) as [_ ->].
  rewrite HS3, HC3, HS2, HC2, HS1, HC1. reflexivity.
Qed.

Lemma engine_mutating_runs :
  exists e2, Engine.run [high_draws] engine_mutating = Returned e2.
Proof.
  destruct (step_params_defined high_draws engine_mutating) as [params Hp].
  - eexists. reflexivity.
  - destruct (step_returned high_draws engine_mutating params Hp)
      as (e2 & Hstep & _).
    exists e2. cbn [Engine.run]. rewrite Hstep. reflexivity.
Defined.

Lemma mutation_drift_is_discarded_witness :
  exists e2 e3,
    Engine.run [high_draws] engine_mutating = Returned e2
    /\ Engine.toggleMutation e2 = Returned e3
    /\ forall d : Engine.Draws,
         Engine.step_params d e3 = Some Engine.orbium.
Proof.
  destruct engine_mutating_runs as [e2 Hrun].
  destruct (mutation_drift_is_discarded engine0 engine_mutating e2 [high_draws]
              eq_refl toggleMutation_engine0 Hrun)
    as (_ & _ & e3 & Hoff & _ & _ & Hparams).
  exists e2, e3. split; [exact Hrun|]. split; [exact Hoff|].
  intros d. rewrite Hparams. exact engine0_species.
Defined.

(** X9: The parameters assigned with [setParameters] drive the next tick.
    The call returns and stores and selects the species [custom]: name
    'Custom', colour and kernel parameters of the species that was current,
    and each of R, T, mu and sigma equal to [params.X || base.X].  Without a
    working copy the next tick uses exactly that species.  With mutation on,
    the working copy keeps its name, colour and kernel parameters, takes the
    four values of [custom], and the tick uses it after one step of the
    random walk, each value clamped into its mutation range.  A working copy
    left behind while mutation is off is used as it is. *)
Theorem assigned_parameters_drive_next_tick
    (params : Engine.Params) (d : Engine.Draws)
    (e : Engine.Lenia) (base : Engine.Species) :
  Engine.SPECIES e !! Engine.currentSpecies e = Some base ->
  exists e' custom,
    Engine.setParameters params e = Returned e'
    /\ Engine.SPECIES e' !! Engine.currentSpecies e' = Some custom
    /\ custom
       = {| Engine.name := "Custom";
            Engine.color := Engine.color base;
            Engine.radius :=
              Engine.js_or (Engine.p_R params) (Engine.radius base);
            Engine.timescale :=
              Engine.js_or (Engine.p_T params) (Engine.timescale base);
            Engine.beta := Engine.beta base;
            Engine.growthParams :=
              {| Engine.mu :=
                   Engine.js_or (Engine.p_mu params)
                                (Engine.mu (Engine.growthParams base));
                 Engine.sigma :=
                   Engine.js_or (Engine.p_sigma params)
                                (Engine.sigma (Engine.growthParams base)) |} |}
    /\ (Engine.mutatedParams e = None ->
        Engine.step_params d e' = Some custom)
    /\ (forall m, Engine.mutationMode e = false ->
                  Engine.mutatedParams e = Some m ->
        Engine.step_params d e' = Some m)
    /\ (forall m, Engine.mutationMode e = true ->
                  Engine.mutatedParams e = Some m ->
        let speed := Engine.mutationSpeed e in
        let p' :=
          {| Engine.name := Engine.name m;
             Engine.color := Engine.color m;
             Engine.radius :=
               Rmax 5 (Rmin 20 (Engine.radius custom
                                + (Engine.rand_R d - 0.5) * speed * 100));
             Engine.timescale :=
               Rmax 5 (Rmin 20 (Engine.timescale custom
                                + (Engine.rand_T d - 0.5) * speed * 100));
             Engine.beta := Engine.beta m;
             Engine.growthParams :=
               {| Engine.mu :=
                    Rmax 0.05
                      (Rmin 0.3 (Engine.mu (Engine.growthParams custom)
                                 + (Engine.rand_mu d - 0.5) * speed));
                  Engine.sigma :=
                    Rmax 0.005
                      (Rmin 0.05 (Engine.sigma (Engine.growthParams custom)
                                  + (Engine.rand_sigma d - 0.5) * speed * 0.1))
               |} |} in
        Engine.step_params d e' = Some p' /\ in_mutation_range p').
Proof.
  intros Hbase.
  destruct (setParameters_returns params e base Hbase)
    as (e' & Hret & Hcur & _ & Hcustom).
  eexists e', _. split; [exact Hret|].
  split; [rewrite Hcur; exact Hcustom|].
  split; [reflexivity|].
  unfold Engine.setParameters in Hret. rewrite Hbase in Hret.
  injection Hret as Hret.
  split; [|split].
  - intros Hp. unfold Engine.step_params, Engine.tick_state, Engine.mutate.
    rewrite <- Hret.
    cbn [Engine.mutationMode Engine.mutatedParams Engine.SPECIES
         Engine.currentSpecies].
    rewrite Hp.
    destruct (Engine.mutationMode e);
      cbn [Engine.mutatedParams]; apply lookup_insert_eq.
  - intros m Hm Hp. unfold Engine.step_params, Engine.tick_state.
    rewrite <- Hret.
    cbn [Engine.mutationMode Engine.mutatedParams Engine.SPECIES
         Engine.currentSpecies].
    rewrite Hm, Hp. reflexivity.
  - intros m Hm Hp. cbv zeta. split.
    + unfold Engine.step_params, Engine.tick_state, Engine.mutate.
      rewrite <- Hret.
      cbn [Engine.mutationMode Engine.mutatedParams Engine.mutationSpeed
           Engine.SPECIES Engine.currentSpecies].
      rewrite Hm, Hp.
      cbn [Engine.set_mutatedParams Engine.mutatedParams Engine.name
           Engine.color Engine.radius Engine.timescale Engine.beta
           Engine.growthParams Engine.mu Engine.sigma].
      reflexivity.
    + unfold in_mutation_range.
      cbn [Engine.radius Engine.timescale Engine.growthParams Engine.mu
           Engine.sigma].
      repeat split; apply js_clamp_range; lra.
Qed.

Lemma assigned_parameters_drive_next_tick_witness :
  exists e' custom,
    Engine.setParameters negative_params engine0 = Returned e'
    /\ Engine.step_params mid_draws e' = Some custom
    /\ Engine.radius custom = -3
    /\ Engine.mu (Engine.growthParams custom) = 0.15.
Proof.
  destruct (assigned_parameters_drive_next_tick negative_params mid_draws
              engine0 Engine.orbium engine0_species)
    as (e' & custom & Hret & _ & Hrec & Hquiet & _).
  exists e', custom. split; [exact Hret|].
  split; [exact (Hquiet eq_refl)|].
  rewrite Hrec.
  cbn [Engine.radius Engine.growthParams Engine.mu Engine.p_R Engine.p_mu
       negative_params].
  split; apply js_or_nonzero; lra.
Defined.

(** ** Further facts: the preset gallery *)

Section PresetOpsFacts.
Import Presets PresetOps.

Lemma proto_name : "__proto__" ∈ object_prototype_names.
Proof. unfold object_prototype_names. set_solver. Qed.

Lemma assign_own (o : JsObject) (id : string) (v : Preset) :
  id <> "__proto__" \/ is_Some (own o !! id) ->
  own (assign o id v) = <[id := v]> (own o) /\ proto (assign o id v) = proto o.
Proof.
  intros H. unfold assign.
  destruct (own o !! id) as [old|] eqn:E; [split; reflexivity|].
  destruct H as [H | [? H]]; [|discriminate].
  rewrite bool_decide_eq_false_2 by exact H. split; reflexivity.
Qed.

Lemma assign_proto (o : JsObject) (v : Preset) :
  own o !! "__proto__" = None ->
  own (assign o "__proto__" v) = own o /\ proto (assign o "__proto__" v) = Some v.
Proof. intros H. unfold assign. rewrite H. split; reflexivity. Qed.

Lemma savePresetsToStorage_presets (quota_ok : bool) (g : PresetGallery) :
  presets (savePresetsToStorage quota_ok g) = presets g
  /\ maxPresets (savePresetsToStorage quota_ok g) = maxPresets g
  /\ (quota_ok = true ->
      stored (savePresetsToStorage quota_ok g) = Some (own (presets g)))
  /\ (quota_ok = false -> stored (savePresetsToStorage quota_ok g) = stored g).
Proof. destruct quota_ok; repeat split; intros; try reflexivity; discriminate. Qed.

(** The outcome of [savePreset] in terms of the limit test. *)
Lemma savePreset_cases (now : Z) (quota_ok : bool) (id : string)
    (ps : PresetParams) (g : PresetGallery) :
  (savePreset now quota_ok id ps g
   = (Threw ("Maximum " +:+ pretty (maxPresets g) +:+ " presets reached"), g)
   /\ (maxPresets g <= keys_length (presets g))%nat
   /\ get_truthy (presets g) id = false)
  \/ (exists g',
        savePreset now quota_ok id ps g = (Returned tt, g')
        /\ presets g' = assign (presets g) id {| params := ps; created := now |}
        /\ maxPresets g' = maxPresets g
        /\ (quota_ok = true -> stored g' = Some (own (presets g')))
        /\ ((keys_length (presets g) < maxPresets g)%nat
            \/ get_truthy (presets g) id = true)).
Proof.
  unfold savePreset.
  destruct (maxPresets g <=? keys_length (presets g))%nat eqn:Hfull;
    destruct (get_truthy (presets g) id) eqn:Htruthy; cbn [andb negb].
  - right. eexists. split; [reflexivity|].
    destruct quota_ok; repeat split;
      try (intros; discriminate); try reflexivity; auto.
  - left. apply Nat.leb_le in Hfull. repeat split; assumption.
  - right. apply Nat.leb_gt in Hfull. eexists. split; [reflexivity|].
    destruct quota_ok; repeat split;
      try (intros; discriminate); try reflexivity; auto.
  - right. apply Nat.leb_gt in Hfull. eexists. split; [reflexivity|].
    destruct quota_ok; repeat split;
      try (intros; discriminate); try reflexivity; auto.
Qed.

Lemma get_own (o : JsObject) (id : string) (p : Preset) :
  own o !! id = Some p -> get o id = VPreset p.
Proof. intros H. unfold get. rewrite H. reflexivity. Qed.

Lemma get_truthy_get (o : JsObject) (id : string) :
  get_truthy o id = truthy (get o id).
Proof.
  unfold get_truthy, get.
  destruct (own o !! id); [reflexivity|].
  assert (Hobj : bool_decide (id ∈ object_prototype_names)
                 = truthy (object_prototype_get id)).
  { unfold object_prototype_get. destruct (bool_decide _); reflexivity. }
  destruct (proto o) as [p|]; [|exact Hobj].
  unfold preset_property_truthy, preset_property.
  destruct (bool_decide (id = "name")); [reflexivity|].
  destruct (bool_decide (id = "R")); [reflexivity|].
  destruct (bool_decide (id = "T")); [reflexivity|].
  destruct (bool_decide (id = "mu")); [reflexivity|].
  destruct (bool_decide (id = "sigma")); [reflexivity|].
  destruct (bool_decide (id = "description")); [reflexivity|].
  destruct (bool_decide (id = "created"));
    [cbn [truthy]; destruct (Req_dec_T (IZR (created p)) 0) as [Hz | Hz];
     [apply eq_IZR in Hz; rewrite Hz; reflexivity
     |destruct (bool_decide (created p = 0%Z)) eqn:E;
      [apply bool_decide_eq_true in E; rewrite E in Hz; contradiction
      |reflexivity]]|].
  destruct (bool_decide (id = "__proto__")) eqn:E; [|exact Hobj].
  apply bool_decide_eq_true in E. subst id.
  apply bool_decide_eq_true. exact proto_name.
Qed.

Lemma get_assign_other (o : JsObject) (id id' : string) (v : Preset) :
  id <> "__proto__" \/ is_Some (own o !! id) ->
  id' <> id -> get (assign o id v) id' = get o id'.
Proof.
  intros H Hne. destruct (assign_own o id v H) as [Hown Hproto].
  unfold get. rewrite Hown, Hproto, lookup_insert_ne by congruence.
  reflexivity.
Qed.

End PresetOpsFacts.

(** X10: What [savePreset] stores under an id other than [__proto__] is what
    [loadPreset] returns for that id, with the time of saving; every other
    id reads as before, and with a working localStorage the stored item
    holds the presets and a gallery constructed from it holds the same. *)
Theorem saved_preset_loads_back
    (now now' : Z) (quota_ok : bool) (id : string)
    (ps : Presets.PresetParams) (g g' : Presets.PresetGallery) :
  id <> "__proto__" ->
  Presets.savePreset now quota_ok id ps g = (Returned tt, g') ->
  PresetOps.loadPreset id g'
  = PresetOps.VPreset {| Presets.params := ps; Presets.created := now |}
  /\ (forall id', id' <> id ->
        PresetOps.get (Presets.presets g') id'
        = PresetOps.get (Presets.presets g) id')
  /\ (quota_ok = true ->
      Presets.stored g' = Some (Presets.own (Presets.presets g'))
      /\ Presets.own (Presets.presets (Presets.new now' quota_ok (Presets.stored g')))
         = Presets.own (Presets.presets g')).
Proof.
  intros Hid Hsave.
  destruct (savePreset_cases now quota_ok id ps g)
    as [(Hthrew & _) | (g1 & Hret & Hpresets & _ & Hstored & _)].
  { rewrite Hthrew in Hsave. discriminate. }
  rewrite Hret in Hsave. injection Hsave as <-.
  destruct (assign_own (Presets.presets g) id
              {| Presets.params := ps; Presets.created := now |} (or_introl Hid))
    as [Hown Hproto].
  assert (Hlook : Presets.own (Presets.presets g1) !! id
                  = Some {| Presets.params := ps; Presets.created := now |})
    by (rewrite Hpresets, Hown; apply lookup_insert_eq).
  split; [|split].
  - unfold PresetOps.loadPreset. rewrite (get_own _ _ _ Hlook). reflexivity.
  - intros id' Hne. rewrite Hpresets.
    apply get_assign_other; [left; exact Hid | exact Hne].
  - intros Hq. specialize (Hstored Hq). split; [exact Hstored|].
    rewrite Hstored. unfold Presets.new. cbn [Presets.presets Presets.own].
    assert (Hsize : Presets.keys_length
                      {| Presets.own := Presets.own (Presets.presets g1);
                         Presets.proto := None |} <> 0%nat).
    { unfold Presets.keys_length. cbn [Presets.own]. intros Hz.
      apply map_size_empty_iff in Hz. rewrite Hz, lookup_empty in Hlook.
      discriminate. }
    apply Nat.eqb_neq in Hsize. rewrite Hsize. reflexivity.
Qed.

Lemma saved_preset_loads_back_witness :
  exists g',
    Presets.savePreset 7 true "mine" (user_params "Mine")
                       (Presets.new 0 true None) = (Returned tt, g')
    /\ PresetOps.loadPreset "mine" g'
       = PresetOps.VPreset {| Presets.params := user_params "Mine";
                              Presets.created := 7 |}.
Proof.
  destruct (savePreset_cases 7 true "mine" (user_params "Mine")
              (Presets.new 0 true None))
    as [(_ & Hfull & _) | (g' & Hret & _)].
  - exfalso. vm_compute in Hfull. lia.
  - exists g'. split; [exact Hret|].
    refine (proj1 (saved_preset_loads_back 7 0 true "mine" (user_params "Mine")
                     (Presets.new 0 true None) g' _ Hret)).
    discriminate.
Defined.

Section PresetLimit.
Import Presets PresetOps.

Lemma ordinary_not_proto (id : string) : ordinary_id id -> id <> "__proto__".
Proof. intros H ->. apply H, proto_name. Qed.

Lemma get_truthy_ordinary (o : JsObject) (id : string) :
  proto o = None -> ordinary_id id ->
  get_truthy o id = true -> is_Some (own o !! id).
Proof.
  intros Hproto Hid. unfold get_truthy. rewrite Hproto.
  destruct (own o !! id); [eauto|].
  rewrite bool_decide_eq_false_2 by exact Hid. discriminate.
Qed.

Lemma savePreset_keeps_limit (now : Z) (quota_ok : bool) (id : string)
    (ps : PresetParams) (g : PresetGallery) :
  proto (presets g) = None -> ordinary_id id ->
  (keys_length (presets g) <= maxPresets g)%nat ->
  let g' := snd (savePreset now quota_ok id ps g) in
  proto (presets g') = None
  /\ maxPresets g' = maxPresets g
  /\ (keys_length (presets g') <= maxPresets g)%nat.
Proof.
  intros Hproto Hid Hle. cbv zeta.
  destruct (savePreset_cases now quota_ok id ps g)
    as [(-> & _) | (g1 & -> & Hpresets & Hmax & _ & Hroom)];
    cbn [snd]; [auto|].
  destruct (assign_own (presets g) id {| params := ps; created := now |}
              (or_introl (ordinary_not_proto id Hid))) as [Hown Hp].
  rewrite Hpresets. split; [rewrite Hp; exact Hproto|]. split; [exact Hmax|].
  unfold keys_length in *. rewrite Hown.
  destruct Hroom as [Hroom | Htruthy].
  - rewrite map_size_insert. destruct (own (presets g) !! id); cbn; lia.
  - rewrite map_size_insert_Some; [exact Hle|].
    apply get_truthy_ordinary; assumption.
Qed.

End PresetLimit.

(** X11: However many presets are saved one after the other, a gallery with
    its original prototype that starts within its limit never exceeds it,
    as long as no id is the name of a member of [Object.prototype]. *)
Theorem preset_limit_holds_for_ordinary_ids
    (calls : list (Z * string * Presets.PresetParams))
    (g : Presets.PresetGallery) :
  Presets.proto (Presets.presets g) = None ->
  (Presets.keys_length (Presets.presets g) <= Presets.maxPresets g)%nat ->
  Forall (fun c => ordinary_id (snd (fst c))) calls ->
  (Presets.keys_length (Presets.presets (save_sequence calls g))
   <= Presets.maxPresets g)%nat.
Proof.
  revert g. induction calls as [|c calls IH]; intros g Hproto Hle Hids.
  - exact Hle.
  - inversion Hids as [|c' calls' Hc Hrest]; subst.
    destruct (savePreset_keeps_limit (fst (fst c)) true (snd (fst c)) (snd c) g
                Hproto Hc Hle) as (Hp & Hmax & Hle').
    unfold save_sequence. cbn [fold_left]. fold (save_sequence calls).
    rewrite <- Hmax. apply IH; [exact Hp | rewrite Hmax; exact Hle' | exact Hrest].
Qed.

Lemma ordinary_by_computation (id : string) :
  bool_decide (id ∈ Presets.object_prototype_names) = false -> ordinary_id id.
Proof. intros H. apply bool_decide_eq_false in H. exact H. Qed.

Lemma sixteen_names_ordinary :
  Forall (fun c : Z * string * Presets.PresetParams => ordinary_id (snd (fst c)))
         (map (fun n => (1%Z, n, user_params n)) ("zz" :: sixteen_names)).
Proof.
  unfold sixteen_names. cbn [map].
  repeat constructor; cbn [fst snd]; apply ordinary_by_computation; reflexivity.
Qed.

Lemma preset_limit_holds_for_ordinary_ids_witness :
  (Presets.keys_length
     (Presets.presets
        (save_sequence (map (fun n => (1%Z, n, user_params n))
                            ("zz" :: sixteen_names))
                       (Presets.new 0 true None)))
   <= 20)%nat.
Proof.
  apply (preset_limit_holds_for_ordinary_ids
           (map (fun n => (1%Z, n, user_params n)) ("zz" :: sixteen_names))
           (Presets.new 0 true None)).
  - reflexivity.
  - vm_compute. lia.
  - exact sixteen_names_ordinary.
Defined.

(** X12: A preset saved under the id [__proto__] is never refused, not even by a
    full gallery, and can be loaded back, but it is no key of the gallery:
    the number of presets and the stored item do not change, so the preset
    is gone when the gallery is constructed again. *)
Theorem preset_named_proto_is_not_kept
    (now : Z) (quota_ok : bool) (ps : Presets.PresetParams)
    (g : Presets.PresetGallery) :
  Presets.own (Presets.presets g) !! "__proto__" = None ->
  exists g',
    Presets.savePreset now quota_ok "__proto__" ps g = (Returned tt, g')
    /\ PresetOps.loadPreset "__proto__" g'
       = PresetOps.VPreset {| Presets.params := ps; Presets.created := now |}
    /\ Presets.own (Presets.presets g') = Presets.own (Presets.presets g)
    /\ Presets.keys_length (Presets.presets g')
       = Presets.keys_length (Presets.presets g)
    /\ (quota_ok = true ->
        Presets.stored g' = Some (Presets.own (Presets.presets g))).
Proof.
  intros Hown.
  assert (Htruthy : Presets.get_truthy (Presets.presets g) "__proto__" = true).
  { unfold Presets.get_truthy. rewrite Hown.
    destruct (Presets.proto (Presets.presets g)); reflexivity. }
  destruct (savePreset_cases now quota_ok "__proto__" ps g)
    as [(_ & _ & Hfalse) | (g' & Hret & Hpresets & _ & Hstored & _)].
  { rewrite Htruthy in Hfalse. discriminate. }
  destruct (assign_proto (Presets.presets g)
              {| Presets.params := ps; Presets.created := now |} Hown)
    as [Hown' Hproto'].
  rewrite <- Hpresets in Hown', Hproto'.
  exists g'. split; [exact Hret|]. split; [|split; [exact Hown'|split]].
  - unfold PresetOps.loadPreset, PresetOps.get.
    rewrite Hown', Hown, Hproto'. reflexivity.
  - unfold Presets.keys_length. rewrite Hown'. reflexivity.
  - intros Hq. rewrite (Hstored Hq), Hown'. reflexivity.
Qed.

Lemma preset_named_proto_is_not_kept_witness :
  exists g',
    Presets.savePreset 2 true "__proto__" (user_params "__proto__") full_gallery
    = (Returned tt, g')
    /\ Presets.keys_length (Presets.presets g') = 20%nat.
Proof.
  assert (H : Presets.own (Presets.presets full_gallery) !! "__proto__" = None)
    by (vm_compute; reflexivity).
  destruct (preset_named_proto_is_not_kept 2 true (user_params "__proto__")
              full_gallery H) as (g' & Hret & _ & _ & Hlen & _).
  exists g'. split; [exact Hret|].
  rewrite Hlen. exact full_gallery_size.
Defined.

(** X13: [deletePreset] removes the own key and nothing else: the id is no
    key any more, every other id reads as before, and the number of presets
    drops by one if the id was a key and is unchanged otherwise.  A read of
    the id then falls through to the prototype chain: in a gallery whose
    presets object has its original prototype, [loadPreset] gives [null] for
    an id that [Object.prototype] does not know and the inherited member for
    one it knows; after a preset was saved under [__proto__], it gives what
    that preset holds under the id.  Deleting right after saving a new id
    other than [__proto__] gives back the presets there were before. *)
Theorem deleted_preset_is_gone
    (quota_ok : bool) (id : string) (g : Presets.PresetGallery) :
  let g' := PresetOps.deletePreset quota_ok id g in
  Presets.own (Presets.presets g') !! id = None
  /\ (forall id', id' <> id ->
        PresetOps.get (Presets.presets g') id'
        = PresetOps.get (Presets.presets g) id')
  /\ PresetOps.get (Presets.presets g') id
     = PresetOps.get {| Presets.own := ∅;
                        Presets.proto := Presets.proto (Presets.presets g) |} id
  /\ (Presets.proto (Presets.presets g) = None -> ordinary_id id ->
      PresetOps.loadPreset id g' = PresetOps.VNull)
  /\ (Presets.proto (Presets.presets g) = None -> ~ ordinary_id id ->
      PresetOps.loadPreset id g' = PresetOps.VBuiltin id)
  /\ (forall p v, Presets.proto (Presets.presets g) = Some p ->
        PresetOps.preset_property p id = Some v ->
        PresetOps.get (Presets.presets g') id = v)
  /\ Presets.keys_length (Presets.presets g')
     = match Presets.own (Presets.presets g) !! id with
       | Some _ => Nat.pred (Presets.keys_length (Presets.presets g))
       | None => Presets.keys_length (Presets.presets g)
       end
  /\ (forall (now : Z) (q : bool) (ps : Presets.PresetParams)
             (g0 : Presets.PresetGallery),
        id <> "__proto__" ->
        Presets.own (Presets.presets g0) !! id = None ->
        Presets.savePreset now q id ps g0 = (Returned tt, g) ->
        Presets.own (Presets.presets g')
        = Presets.own (Presets.presets g0)).
Proof.
  cbv zeta. unfold PresetOps.loadPreset, PresetOps.deletePreset.
  destruct (savePresetsToStorage_presets quota_ok
              {| Presets.presets :=
                   {| Presets.own := delete id (Presets.own (Presets.presets g));
                      Presets.proto := Presets.proto (Presets.presets g) |};
                 Presets.maxPresets := Presets.maxPresets g;
                 Presets.stored := Presets.stored g |}) as (-> & _).
  cbn [Presets.presets Presets.own Presets.proto].
  assert (Hfall :
    PresetOps.get
      {| Presets.own := delete id (Presets.own (Presets.presets g));
         Presets.proto := Presets.proto (Presets.presets g) |} id
    = PresetOps.get {| Presets.own := ∅;
                       Presets.proto := Presets.proto (Presets.presets g) |} id).
  { unfold PresetOps.get. cbn [Presets.own Presets.proto].
    rewrite lookup_delete_eq, lookup_empty. reflexivity. }
  split; [apply lookup_delete_eq|].
  split; [|split; [exact Hfall|split; [|split; [|split; [|split]]]]].
  - intros id' Hne. unfold PresetOps.get. cbn [Presets.own Presets.proto].
    rewrite lookup_delete_ne by congruence. reflexivity.
  - intros Hproto Hid. rewrite Hfall. unfold PresetOps.get.
    cbn [Presets.own Presets.proto].
    rewrite lookup_empty, Hproto. unfold PresetOps.object_prototype_get.
    rewrite bool_decide_eq_false_2 by exact Hid. reflexivity.
  - intros Hproto Hid. rewrite Hfall. unfold PresetOps.get.
    cbn [Presets.own Presets.proto].
    rewrite lookup_empty, Hproto. unfold PresetOps.object_prototype_get.
    rewrite bool_decide_eq_true_2; [reflexivity|].
    unfold ordinary_id in Hid.
    destruct (decide (id ∈ Presets.object_prototype_names)) as [Hin | Hout];
      [exact Hin | contradiction].
  - intros p v Hproto Hv. rewrite Hfall. unfold PresetOps.get.
    cbn [Presets.own Presets.proto].
    rewrite lookup_empty, Hproto, Hv. reflexivity.
  - unfold Presets.keys_length. cbn [Presets.own].
    rewrite map_size_delete.
    destruct (Presets.own (Presets.presets g) !! id); reflexivity.
  - intros now q ps g0 Hid Hfresh Hsave.
    destruct (savePreset_cases now q id ps g0)
      as [(Hthrew & _) | (g1 & Hret & Hpresets & _)].
    { rewrite Hthrew in Hsave. discriminate. }
    rewrite Hret in Hsave. injection Hsave as <-.
    destruct (assign_own (Presets.presets g0) id
                {| Presets.params := ps; Presets.created := now |}
                (or_introl Hid)) as [Hown _].
    rewrite Hpresets, Hown. apply delete_insert_id. exact Hfresh.
Qed.

Lemma deleted_preset_is_gone_witness :
  PresetOps.loadPreset "glider"
    (PresetOps.deletePreset true "glider" (Presets.new 0 true None))
  = PresetOps.VNull.
Proof.
  destruct (deleted_preset_is_gone true "glider" (Presets.new 0 true None))
    as (_ & _ & _ & Hnull & _).
  apply Hnull; [reflexivity|].
  apply ordinary_by_computation. reflexivity.
Defined.

(** X14: [importPresets] on a parse error throws
    ['Invalid preset JSON: ' + message] and changes nothing.  On an object of
    presets it returns the number of imported entries; every imported entry
    replaces or adds its id, every other preset is kept, and no limit is
    applied, so the gallery holds at least as many presets as before and at
    least as many as were imported.  On a number or a boolean it returns 0
    and keeps the presets.  On [null] it keeps the presets, has already
    written them to storage, and then throws 'Invalid preset JSON: ' with the
    message of the TypeError of [Object.keys(null)].  Whenever the text
    parses, the presets object is a fresh one with the original prototype,
    and it is what storage holds when the write succeeds. *)
Theorem import_merges_by_id
    (quota_ok : bool) (null_message : string)
    (parsed : string + PresetOps.JsonValue) (g : Presets.PresetGallery) :
  let result := PresetOps.importPresets quota_ok null_message parsed g in
  let fresh (g' : Presets.PresetGallery) :=
    Presets.proto (Presets.presets g') = None
    /\ Presets.maxPresets g' = Presets.maxPresets g
    /\ (quota_ok = true ->
        Presets.stored g' = Some (Presets.own (Presets.presets g')))
    /\ (quota_ok = false -> Presets.stored g' = Presets.stored g) in
  match parsed with
  | inl message =>
      result = (Threw ("Invalid preset JSON: " +:+ message), g)
  | inr PresetOps.JNull =>
      exists g',
        result = (Threw ("Invalid preset JSON: " +:+ null_message), g')
        /\ Presets.own (Presets.presets g') = Presets.own (Presets.presets g)
        /\ fresh g'
  | inr PresetOps.JPrimitive =>
      exists g',
        result = (Returned 0%nat, g')
        /\ Presets.own (Presets.presets g') = Presets.own (Presets.presets g)
        /\ fresh g'
  | inr (PresetOps.JPresets imported) =>
      exists g',
        result = (Returned (size imported), g')
        /\ (forall id p, imported !! id = Some p ->
              PresetOps.loadPreset id g' = PresetOps.VPreset p)
        /\ (forall id, imported !! id = None ->
              Presets.own (Presets.presets g') !! id
              = Presets.own (Presets.presets g) !! id)
        /\ (Presets.keys_length (Presets.presets g)
            <= Presets.keys_length (Presets.presets g'))%nat
        /\ (size imported <= Presets.keys_length (Presets.presets g'))%nat
        /\ fresh g'
  end.
Proof.
  cbv zeta. destruct parsed as [message | imported]; [reflexivity|].
  unfold PresetOps.importPresets.
  set (g1 := {| Presets.presets :=
                  {| Presets.own :=
                       PresetOps.spread imported ∪ Presets.own (Presets.presets g);
                     Presets.proto := None |};
                Presets.maxPresets := Presets.maxPresets g;
                Presets.stored := Presets.stored g |}).
  assert (Hfresh :
    Presets.presets (Presets.savePresetsToStorage quota_ok g1)
    = Presets.presets g1
    /\ Presets.proto (Presets.presets (Presets.savePresetsToStorage quota_ok g1))
       = None
    /\ Presets.maxPresets (Presets.savePresetsToStorage quota_ok g1)
       = Presets.maxPresets g
    /\ (quota_ok = true ->
        Presets.stored (Presets.savePresetsToStorage quota_ok g1)
        = Some (Presets.own
                  (Presets.presets (Presets.savePresetsToStorage quota_ok g1))))
    /\ (quota_ok = false ->
        Presets.stored (Presets.savePresetsToStorage quota_ok g1)
        = Presets.stored g)).
  { unfold Presets.savePresetsToStorage. destruct quota_ok; cbn;
      repeat split; try reflexivity; intros; discriminate. }
  destruct Hfresh as (Hp & Hproto & Hmax & Hs & Hs').
  destruct imported as [| | imported]; cbn [PresetOps.keys_count];
    eexists; (split; [reflexivity|]).
  - split; [|repeat split; assumption].
    rewrite Hp. cbn [g1 Presets.presets Presets.own PresetOps.spread].
    apply (left_id_L ∅ (∪)).
  - split; [|repeat split; assumption].
    rewrite Hp. cbn [g1 Presets.presets Presets.own PresetOps.spread].
    apply (left_id_L ∅ (∪)).
  - rewrite Hp in *. cbn [g1 Presets.presets Presets.own PresetOps.spread] in *.
    split; [|split; [|split; [|split; [|repeat split; assumption]]]].
    + intros id p Hin. unfold PresetOps.loadPreset, PresetOps.get.
      rewrite Hp. cbn [g1 Presets.presets Presets.own PresetOps.spread].
      rewrite (lookup_union_Some_l _ _ _ _ Hin). reflexivity.
    + intros id Hout. apply lookup_union_r, Hout.
    + unfold Presets.keys_length. cbn [Presets.own].
      rewrite <- !(size_dom (D := gset string)).
      apply subseteq_size. rewrite dom_union_L. set_solver.
    + unfold Presets.keys_length. cbn [Presets.own].
      apply map_subseteq_size, map_union_subseteq_l.
Qed.

Lemma import_merges_by_id_witness :
  exists g',
    PresetOps.importPresets true "Cannot convert undefined or null to object"
      (inr PresetOps.JNull) (Presets.new 0 true None)
    = (Threw ("Invalid preset JSON: "
              +:+ "Cannot convert undefined or null to object"), g')
    /\ Presets.own (Presets.presets g')
       = Presets.own (Presets.presets (Presets.new 0 true None)).
Proof.
  destruct (import_merges_by_id true
              "Cannot convert undefined or null to object"
              (inr PresetOps.JNull) (Presets.new 0 true None))
    as (g' & Hres & Hown & _).
  exists g'. split; [exact Hres | exact Hown].
Defined.

(** X15: [getAllPresets] lists every entry once, newest first, and leaves a
    list that is already in that order as it is. *)
Theorem getAllPresets_sorted_newest_first
    (entries : list (string * Presets.Preset)) :
  Sorted newer_or_equal (PresetOps.getAllPresets entries)
  /\ Permutation entries (PresetOps.getAllPresets entries)
  /\ (StronglySorted newer_or_equal entries ->
      PresetOps.getAllPresets entries = entries).
Proof.
  assert (Hperm : forall x l, Permutation (x :: l) (PresetOps.insert_newest x l)).
  { intros x l. induction l as [|y l IH]; cbn [PresetOps.insert_newest];
      [reflexivity|].
    destruct (Presets.created (snd y) <=? Presets.created (snd x))%Z;
      [reflexivity|].
    rewrite perm_swap. constructor. exact IH. }
  assert (Hsorted : forall x l, Sorted newer_or_equal l ->
                                Sorted newer_or_equal (PresetOps.insert_newest x l)).
  { intros x l Hl. induction l as [|y l IH]; cbn [PresetOps.insert_newest].
    - repeat constructor.
    - destruct (Presets.created (snd y) <=? Presets.created (snd x))%Z eqn:E.
      + constructor; [exact Hl|]. constructor. apply Z.leb_le in E. exact E.
      + apply Z.leb_gt in E. inversion Hl as [|y' l' Hl' Hhd]; subst.
        constructor; [apply IH, Hl'|].
        destruct l as [|z l]; cbn [PresetOps.insert_newest].
        * constructor. unfold newer_or_equal. lia.
        * destruct (Presets.created (snd z) <=? Presets.created (snd x))%Z.
          -- constructor. unfold newer_or_equal. lia.
          -- inversion Hhd; subst. constructor. assumption. }
  split; [|split].
  - induction entries as [|x l IH]; cbn [PresetOps.getAllPresets fold_right].
    + constructor.
    + apply Hsorted, IH.
  - induction entries as [|x l IH]; cbn [PresetOps.getAllPresets fold_right].
    + reflexivity.
    + rewrite <- Hperm. constructor. exact IH.
  - induction entries as [|x l IH]; intros Hs;
      cbn [PresetOps.getAllPresets fold_right]; [reflexivity|].
    inversion Hs as [|x' l' Hl Hall]; subst.
    fold (PresetOps.getAllPresets l). rewrite (IH Hl).
    destruct l as [|y l]; [reflexivity|]. cbn [PresetOps.insert_newest].
    inversion Hall as [|y' l' Hy _]; subst. unfold newer_or_equal in Hy.
    apply Z.leb_le in Hy. rewrite Hy. reflexivity.
Qed.

Lemma getAllPresets_sorted_newest_first_witness :
  PresetOps.getAllPresets
    [("a", Presets.with_created 5 Presets.glider);
     ("b", Presets.with_created 3 Presets.pulse)]
  = [("a", Presets.with_created 5 Presets.glider);
     ("b", Presets.with_created 3 Presets.pulse)].
Proof.
  apply (getAllPresets_sorted_newest_first
           [("a", Presets.with_created 5 Presets.glider);
            ("b", Presets.with_created 3 Presets.pulse)]).
  repeat constructor; unfold newer_or_equal; cbn; lia.
Defined.

(** ** Further facts: the creature templates *)

Lemma fold_left_preserves {A B : Type} (P : A -> Prop) (f : A -> B -> A)
    (l : list B) :
  (forall a x, P a -> P (f a x)) -> forall a, P a -> P (fold_left f l a).
Proof.
  intros Hstep. induction l as [|x l IH]; intros a Ha; cbn [fold_left];
    [exact Ha | apply IH, Hstep, Ha].
Qed.

Lemma exp_nonpos_unit (x : R) : x <= 0 -> 0 <= exp x <= 1.
Proof.
  intros Hx. split; [left; apply exp_pos|].
  destruct (Req_dec x 0) as [-> | Hne]; [rewrite exp_0; lra|].
  left. rewrite <- exp_0. apply exp_increasing. lra.
Qed.

Lemma bell_unit (a : R) : 0 <= exp (- a ^ 2) <= 1.
Proof. apply exp_nonpos_unit. simpl. nra. Qed.

Lemma Rmax_unit (a b : R) : 0 <= a <= 1 -> 0 <= b <= 1 -> 0 <= Rmax a b <= 1.
Proof. intros Ha Hb. unfold Rmax. destruct (Rle_dec a b); lra. Qed.

Lemma pow15_unit (edge : R) : 0 < edge <= 1 -> 0 <= Templates.pow15 edge <= 1.
Proof.
  intros [H0 H1]. unfold Templates.pow15, Rpower. apply exp_nonpos_unit.
  assert (Hln : ln edge <= 0).
  { destruct (Req_dec edge 1) as [-> | Hne]; [rewrite ln_1; lra|].
    left. rewrite <- ln_1. apply ln_increasing; lra. }
  nra.
Qed.

Lemma fraction_unit (a b : R) : 0 < a < b -> 0 < a / b < 1.
Proof.
  intros [Ha Hb]. assert (Hinv : 0 < / b) by (apply Rinv_0_lt_compat; lra).
  split.
  - apply Rmult_lt_0_compat; assumption.
  - apply (Rmult_lt_reg_r b); [lra|].
    unfold Rdiv. rewrite Rmult_assoc, Rinv_l by lra. lra.
Qed.

Section TemplateCells.
Import Templates.
Variables size x y : Z.

Lemma orbium_unit : 0 <= orbium_cell size x y <= 1.
Proof.
  unfold orbium_cell. cbv zeta.
  destruct (Rlt_dec _ _); [apply bell_unit | lra].
Qed.

Lemma geminium_unit : 0 <= geminium_cell size x y <= 1.
Proof.
  unfold geminium_cell. cbv zeta.
  apply Rmax_unit; destruct (Rlt_dec _ _); solve [apply bell_unit | lra].
Qed.

Lemma trilobite_unit : 0 <= trilobite_cell size x y <= 1.
Proof.
  unfold trilobite_cell.
  apply (fold_left_preserves (fun v => 0 <= v <= 1)); [|lra].
  intros v s Hv. unfold trilobite_segment. cbv zeta.
  destruct (Rlt_dec _ _); [|exact Hv].
  apply Rmax_unit; [exact Hv | apply bell_unit].
Qed.

Lemma scutium_unit : 0 <= scutium_cell size x y <= 1.
Proof.
  unfold scutium_cell. cbv zeta.
  destruct (Rlt_dec _ 1) as [Hd|]; [|lra].
  destruct (Rlt_dec _ 1) as [Hy|]; [|lra].
  apply pow15_unit.
  match goal with |- 0 < 1 - Rmax ?a ?b <= 1 =>
    assert (Hb : 0 <= b)
      by (apply Rmult_le_pos; [apply Rabs_pos | lra]);
    pose proof (Rmax_r a b); unfold Rmax in *; destruct (Rle_dec a b); lra
  end.
Qed.

Lemma pulsar_unit : 0 <= pulsar_cell size x y <= 1.
Proof.
  unfold pulsar_cell. cbv zeta.
  destruct (Rge_dec _ _).
  - destruct (Rle_dec _ _); [|lra].
    match goal with |- 0 <= (sin ?a * 0.5 + 0.5) * exp (- ?b ^ 2) <= 1 =>
      pose proof (SIN_bound a); pose proof (bell_unit b) end.
    split; nra.
  - match goal with |- 0 <= exp (- ?b ^ 2) * 0.5 <= 1 =>
      pose proof (bell_unit b) end.
    lra.
Qed.

Lemma swimmer_unit : 0 <= swimmer_cell size x y <= 1.
Proof.
  unfold swimmer_cell. cbv zeta.
  match goal with
  | |- 0 <= (if Rlt_dec 0 ?dy then _ else ?v) <= 1 =>
      assert (Hv : 0 <= v <= 1);
      [|destruct (Rlt_dec 0 dy) as [Hpos|]; [|exact Hv]]
  end.
  - destruct (Rlt_dec _ 0); [|lra].
    destruct (Rlt_dec _ _); [apply bell_unit | lra].
  - destruct (Rlt_dec _ (IZR size * 0.5)) as [Hlow|]; [|exact Hv].
    apply (fold_left_preserves (fun v => 0 <= v <= 1)); [|exact Hv].
    intros v t Hvt. unfold swimmer_tentacle. cbv zeta.
    match goal with |- 0 <= (if Rlt_dec ?a ?w then _ else _) <= 1 =>
      destruct (Rlt_dec a w); [|exact Hvt] end.
    match goal with |- 0 <= (if Rlt_dec ?a ?w then _ else _) <= 1 =>
      destruct (Rlt_dec a w); [|exact Hvt] end.
    apply Rmax_unit; [exact Hvt|].
    match goal with |- 0 <= exp (- ?b ^ 2) * (1 - ?q) * 0.7 <= 1 =>
      pose proof (bell_unit b);
      assert (Hq : 0 < q < 1) by (apply fraction_unit; split; assumption)
    end.
    split; nra.
Qed.

End TemplateCells.

(** X16: Every creature template generates densities: whatever the size, each
    cell of the pattern holds a value in [0,1]. *)
Theorem template_patterns_are_densities
    (key : string) (tpl : Templates.Template) (size x y : Z) :
  In (key, tpl) Templates.CREATURE_TEMPLATES ->
  (0 <= x < size)%Z -> (0 <= y < size)%Z ->
  0 <= Templates.generate tpl size x y <= 1.
Proof.
  intros Hin _ _. unfold Templates.CREATURE_TEMPLATES in Hin.
  cbn [In] in Hin.
  repeat (destruct Hin as [Hin | Hin];
          [injection Hin as _ <-; cbn [Templates.generate];
           first [apply orbium_unit | apply geminium_unit | apply trilobite_unit
                 | apply scutium_unit | apply pulsar_unit | apply swimmer_unit]|]).
  destruct Hin.
Qed.

Lemma template_patterns_are_densities_witness :
  0 <= Templates.swimmer_cell 64 30 40 <= 1.
Proof.
  refine (template_patterns_are_densities "swimmer"
            (Templates.Build_Template _ _ _ Templates.swimmer_cell)
            64 30 40 _ _ _).
  - unfold Templates.CREATURE_TEMPLATES. cbn [In].
    right; right; right; right; right; left. reflexivity.
  - lia.
  - lia.
Defined.

(** ** Further facts: the pixel loops of paint and spawnCreature *)

Lemma write_same (d : PixelOps.bytes) (i v : Z) : PixelOps.write d i v i = v.
Proof. unfold PixelOps.write. rewrite Z.eqb_refl. reflexivity. Qed.

Lemma write_other (d : PixelOps.bytes) (i v k : Z) :
  k <> i -> PixelOps.write d i v k = d k.
Proof.
  intros H. unfold PixelOps.write.
  destruct (Z.eqb_spec k i); [contradiction | reflexivity].
Qed.

Lemma Int_part_ge (z : Z) (r : R) : IZR z <= r -> (z <= Int_part r)%Z.
Proof.
  intros H. destruct (base_Int_part r) as [_ Hb].
  assert (Hlt : IZR z < IZR (Int_part r + 1)) by (rewrite plus_IZR; lra).
  apply lt_IZR in Hlt. lia.
Qed.

Lemma Int_part_le (z : Z) (r : R) : r <= IZR z -> (Int_part r <= z)%Z.
Proof.
  intros H. destruct (base_Int_part r) as [Hb _]. apply le_IZR. lra.
Qed.

Lemma ToUint8_between (lo : Z) (r : R) :
  (0 <= lo)%Z -> IZR lo <= r <= 255 -> (lo <= PixelOps.ToUint8 r <= 255)%Z.
Proof.
  intros Hlo [H1 H2]. apply IZR_le in Hlo as Hlo'.
  unfold PixelOps.ToUint8, PixelOps.trunc.
  destruct (Rle_dec 0 r) as [_ | Hneg]; [|exfalso; apply Hneg; lra].
  pose proof (Int_part_ge lo r H1). pose proof (Int_part_le 255 r H2).
  rewrite Z.mod_small by lia. lia.
Qed.

Lemma out_of_grid_false (w h nx ny : Z) :
  ((nx <? 0) || (nx >=? w) || (ny <? 0) || (ny >=? h))%Z = false
  <-> (0 <= nx < w)%Z /\ (0 <= ny < h)%Z.
Proof.
  rewrite !orb_false_iff, !Z.geb_leb, !Z.ltb_ge, !Z.leb_gt. lia.
Qed.

Lemma pixel_index_inj (w i j i' j' : Z) :
  (0 <= i < w)%Z -> (0 <= i' < w)%Z ->
  (j * w + i = j' * w + i')%Z -> i = i' /\ j = j'.
Proof.
  intros Hi Hi' H.
  destruct (Zdiv_mod_unique w j j' i i') as [Hj Hi''];
    [rewrite Z.abs_eq by lia; lia | rewrite Z.abs_eq by lia; lia | lia |].
  split; assumption.
Qed.

Lemma NoDup_zrange (n : nat) : forall lo, List.NoDup (zrange lo n).
Proof.
  induction n as [|n IH]; intros lo; cbn [zrange]; constructor.
  - rewrite In_zrange. lia.
  - apply IH.
Qed.

Lemma NoDup_row (y : Z) (xs : list Z) :
  List.NoDup xs -> List.NoDup (map (fun x => (x, y)) xs).
Proof.
  induction 1 as [|x xs Hx _ IH]; cbn [map]; constructor; [|exact IH].
  intros Hin. apply in_map_iff in Hin as (x' & Heq & Hx').
  injection Heq as ->. contradiction.
Qed.

Lemma NoDup_grid (xs ys : list Z) :
  List.NoDup xs -> List.NoDup ys ->
  List.NoDup (flat_map (fun y => map (fun x => (x, y)) xs) ys).
Proof.
  intros Hxs. induction 1 as [|y ys Hy _ IH]; cbn [flat_map]; [constructor|].
  apply Stdlib.Lists.List.NoDup_app; [apply NoDup_row, Hxs | exact IH |].
  intros [a b] Ha Hb.
  apply in_map_iff in Ha as (x & Heq & _). injection Heq as _ <-.
  apply in_flat_map in Hb as (y' & Hy' & Hb).
  apply in_map_iff in Hb as (x' & Heq' & _). injection Heq' as _ ->.
  contradiction.
Qed.

Lemma NoDup_offsets (b : Z) : List.NoDup (offsets b).
Proof. apply NoDup_grid; apply NoDup_zrange. Qed.

Section PaintLoop.
Variables (w h px py radius : Z) (intensity : R).

(** An offset leaves alone every byte that is not a colour byte of the
    pixel it lands on. *)
Lemma paint_pixel_elsewhere (data : PixelOps.bytes) (dx dy k : Z) :
  ~ ((0 <= px + dx < w)%Z /\ (0 <= py + dy < h)%Z
     /\ (pixel_index w (px + dx) (py + dy) <= k
         <= pixel_index w (px + dx) (py + dy) + 2)%Z) ->
  PixelOps.paint_pixel w h px py radius intensity data dx dy k = data k.
Proof.
  intros H. unfold PixelOps.paint_pixel. cbv zeta.
  destruct (Rgt_dec _ _); [reflexivity|].
  destruct (_ || _ || _ || _)%bool eqn:Hg; [reflexivity|].
  apply out_of_grid_false in Hg. unfold pixel_index in H.
  rewrite !write_other by lia. reflexivity.
Qed.

(** What an offset does to the pixel it lands on depends on that pixel's
    bytes only. *)
Lemma paint_pixel_local (d d' : PixelOps.bytes) (dx dy k : Z) :
  let idx := pixel_index w (px + dx) (py + dy) in
  (forall k', (idx <= k' <= idx + 3)%Z -> d k' = d' k') ->
  (idx <= k <= idx + 3)%Z ->
  PixelOps.paint_pixel w h px py radius intensity d dx dy k
  = PixelOps.paint_pixel w h px py radius intensity d' dx dy k.
Proof.
  intros idx Hd Hk. unfold PixelOps.paint_pixel. cbv zeta.
  destruct (Rgt_dec _ _); [apply Hd, Hk|].
  destruct (_ || _ || _ || _)%bool; [apply Hd, Hk|].
  fold (pixel_index w (px + dx) (py + dy)). fold idx.
  unfold PixelOps.write.
  rewrite (Hd idx) by lia.
  repeat match goal with
         | |- context [(?a =? ?b)%Z] => destruct (Z.eqb_spec a b)
         end; try reflexivity; try lia; apply Hd; lia.
Qed.

Lemma paint_fold_skip (i j : Z) (l : list (Z * Z)) :
  (0 <= i < w)%Z -> (0 <= j < h)%Z -> ~ In ((i - px)%Z, (j - py)%Z) l ->
  forall (data : PixelOps.bytes) (k : Z),
    (pixel_index w i j <= k <= pixel_index w i j + 3)%Z ->
    fold_left (fun acc o => PixelOps.paint_pixel w h px py radius intensity acc (fst o) (snd o))
              l data k = data k.
Proof.
  intros Hi Hj. induction l as [|[dx dy] l IH]; intros Hnot data k Hk;
    cbn [fold_left fst snd]; [reflexivity|].
  rewrite IH by (try exact Hk; intros Hin; apply Hnot; right; exact Hin).
  apply paint_pixel_elsewhere. intros (Hx & Hy & Hidx).
  apply Hnot. left. unfold pixel_index in Hk, Hidx.
  destruct (pixel_index_inj w (px + dx) (py + dy) i j Hx Hi) as [Ex Ey];
    [lia|].
  f_equal; lia.
Qed.

Lemma paint_fold_once (i j : Z) (l : list (Z * Z)) :
  (0 <= i < w)%Z -> (0 <= j < h)%Z ->
  List.NoDup l -> In ((i - px)%Z, (j - py)%Z) l ->
  forall (data : PixelOps.bytes) (k : Z),
    (pixel_index w i j <= k <= pixel_index w i j + 3)%Z ->
    fold_left (fun acc o => PixelOps.paint_pixel w h px py radius intensity acc (fst o) (snd o))
              l data k
    = PixelOps.paint_pixel w h px py radius intensity data (i - px) (j - py) k.
Proof.
  intros Hi Hj. induction 1 as [|o l Ho Hl IH]; intros Hin data k Hk;
    [destruct Hin|].
  cbn [fold_left]. destruct Hin as [-> | Hin].
  - cbn [fst snd]. apply (paint_fold_skip i j); assumption.
  - rewrite (IH Hin) by exact Hk.
    assert (Hne : o <> ((i - px)%Z, (j - py)%Z))
      by (intros ->; contradiction).
    assert (Hpix : pixel_index w (px + (i - px)) (py + (j - py))
                   = pixel_index w i j) by (f_equal; lia).
    apply paint_pixel_local; cbv zeta; rewrite Hpix; [|exact Hk].
    intros k' Hk'. apply paint_pixel_elsewhere. intros (Hx & Hy & Hidx).
    apply Hne. destruct o as [dx dy]. cbn [fst snd] in *.
    unfold pixel_index in Hk', Hidx.
    destruct (pixel_index_inj w (px + dx) (py + dy) i j Hx Hi) as [Ex Ey];
      [lia|].
    f_equal; lia.
Qed.

End PaintLoop.

Lemma paint_as_fold (w h : Z) (data : PixelOps.bytes) (px py radius : Z)
    (intensity : R) :
  PixelOps.paint_at w h data px py radius intensity
  = fold_left
      (fun acc o =>
         PixelOps.paint_pixel w h px py radius intensity acc (fst o) (snd o))
      (offsets radius) data.
Proof.
  unfold PixelOps.paint_at, offsets.
  apply (fold_left_nested
           (fun acc dx dy =>
              PixelOps.paint_pixel w h px py radius intensity acc dx dy)).
Qed.

(** After the loops, the bytes of a pixel of the grid are those its own
    offset from the centre of the brush gives them. *)
Lemma paint_pixel_final (w h : Z) (data : PixelOps.bytes) (px py : Z)
    (radius : Z) (intensity : R) (i j k : Z) :
  (0 <= i < w)%Z -> (0 <= j < h)%Z ->
  (pixel_index w i j <= k <= pixel_index w i j + 3)%Z ->
  PixelOps.paint_at w h data px py radius intensity k
  = PixelOps.paint_pixel w h px py radius intensity data
      (i - px) (j - py) k.
Proof.
  intros Hi Hj Hk. rewrite paint_as_fold.
  assert (Hdec : {In ((i - px)%Z, (j - py)%Z) (offsets radius)}
                 + {~ In ((i - px)%Z, (j - py)%Z) (offsets radius)}).
  { apply in_dec. decide equality; apply Z.eq_dec. }
  destruct Hdec as [Hin | Hnot].
  - apply paint_fold_once; try assumption. apply NoDup_offsets.
  - rewrite (paint_fold_skip w h px py radius intensity i j) by assumption.
    unfold PixelOps.paint_pixel. cbv zeta.
    destruct (Rgt_dec _ _) as [_ | Hle]; [reflexivity|].
    exfalso. apply Hnot. apply In_offsets.
    apply (within_bounded (IZR radius)); [lra|].
    apply within_spec. cbn [fst snd]. lra.
Qed.

Lemma paint_pixel_own (w h px py radius : Z) (intensity : R)
    (data : PixelOps.bytes) (dx dy : Z) :
  let idx := pixel_index w (px + dx) (py + dy) in
  let v := if (radius =? 0)%Z then 0%Z
           else brushed radius intensity (data idx) (offset_dist dx dy) in
  let data' := PixelOps.paint_pixel w h px py radius intensity data dx dy in
  offset_dist dx dy <= IZR radius ->
  (0 <= px + dx < w)%Z -> (0 <= py + dy < h)%Z ->
  data' idx = v /\ data' (idx + 1)%Z = v /\ data' (idx + 2)%Z = v
  /\ data' (idx + 3)%Z = data (idx + 3)%Z.
Proof.
  intros idx v data' Hd Hx Hy. subst data'.
  unfold PixelOps.paint_pixel. cbv zeta.
  destruct (Rgt_dec _ _) as [Hgt | _]; [lra|].
  rewrite (proj2 (out_of_grid_false w h (px + dx) (py + dy)))
    by (split; assumption).
  fold (pixel_index w (px + dx) (py + dy)). fold idx.
  unfold PixelOps.write.
  repeat match goal with
         | |- context [(?a =? ?b)%Z] => destruct (Z.eqb_spec a b); try lia
         end.
  repeat split; reflexivity.
Qed.

Lemma paint_pixel_outside (w h px py radius : Z) (intensity : R)
    (data : PixelOps.bytes) (dx dy : Z) :
  IZR radius < offset_dist dx dy ->
  PixelOps.paint_pixel w h px py radius intensity data dx dy = data.
Proof.
  intros Hd. unfold PixelOps.paint_pixel. cbv zeta.
  destruct (Rgt_dec _ _) as [_ | Hle]; [reflexivity | lra].
Qed.

Lemma ToUint8_below (r : R) : 0 <= r <= 255 -> IZR (PixelOps.ToUint8 r) <= r.
Proof.
  intros [H0 H1]. unfold PixelOps.ToUint8, PixelOps.trunc.
  destruct (Rle_dec 0 r) as [_ | Hneg]; [|contradiction].
  pose proof (Int_part_ge 0 r H0). pose proof (Int_part_le 255 r H1).
  rewrite Z.mod_small by lia.
  destruct (base_Int_part r) as [Hle _]. exact Hle.
Qed.

(** The red byte [brushed] lies between the old byte and 255, and exceeds
    the old byte by no more than the intensity. *)
Lemma brushed_bounds (radius : Z) (intensity : R) (old : Z) (dist : R) :
  (0 < radius)%Z -> 0 <= intensity -> (0 <= old <= 255)%Z ->
  0 <= dist <= IZR radius ->
  (old <= brushed radius intensity old dist <= 255)%Z
  /\ IZR (brushed radius intensity old dist) <= IZR old + intensity.
Proof.
  intros Hr Hint Hold Hd. unfold brushed.
  apply IZR_lt in Hr as Hr'.
  set (f := 1 - dist / IZR radius).
  assert (Hf : 0 <= f <= 1).
  { assert (Hq : 0 <= dist / IZR radius <= 1).
    { split.
      - apply Rmult_le_pos; [lra|]. left. apply Rinv_0_lt_compat. exact Hr'.
      - apply (Rmult_le_reg_r (IZR radius)); [exact Hr'|].
        unfold Rdiv. rewrite Rmult_assoc, Rinv_l by lra. lra. }
    unfold f. lra. }
  assert (Hadd : 0 <= intensity * f * f <= intensity).
  { rewrite Rmult_assoc. assert (0 <= f * f <= 1) by nra. nra. }
  assert (Hlo : 0 <= IZR old) by (apply IZR_le; lia).
  assert (Hhi : IZR old <= 255) by (apply IZR_le; lia).
  assert (Hmin : IZR old <= Rmin 255 (IZR old + intensity * f * f) <= 255)
    by (unfold Rmin; destruct (Rle_dec _ _); lra).
  split.
  - apply ToUint8_between; [lia | exact Hmin].
  - apply Rle_trans with (Rmin 255 (IZR old + intensity * f * f)).
    + apply ToUint8_below. lra.
    + pose proof (Rmin_r 255 (IZR old + intensity * f * f)). lra.
Qed.

(** X17: [paint] brushes each pixel once.  Around the centre pixel
    [(px, py)], with a positive radius: a pixel of the canvas farther from
    the centre than the radius keeps its four bytes; a pixel within the
    radius ends grey (green and blue equal to red) with its alpha byte as it
    was; and for a byte array and an intensity that is not negative its red
    byte is not lowered, stays at most 255 and rises by less than
    [intensity + 1], however many passes the loops make. *)
Theorem paint_brushes_each_pixel_once
    (w h : Z) (data : PixelOps.bytes) (px py radius : Z) (intensity : R)
    (i j : Z) :
  (0 < radius)%Z -> (0 <= i < w)%Z -> (0 <= j < h)%Z ->
  let dist := offset_dist (i - px) (j - py) in
  let idx := pixel_index w i j in
  let data' := PixelOps.paint_at w h data px py radius intensity in
  (IZR radius < dist -> same_pixel data' data idx)
  /\ (dist <= IZR radius ->
      grey_pixel data' idx /\ data' (idx + 3)%Z = data (idx + 3)%Z
      /\ (byte_array data -> 0 <= intensity ->
          (data idx <= data' idx <= 255)%Z
          /\ IZR (data' idx) < IZR (data idx) + intensity + 1)).
Proof.
  intros Hr Hi Hj dist idx data'.
  assert (Hfin : forall k, (idx <= k <= idx + 3)%Z ->
            data' k = PixelOps.paint_pixel w h px py radius intensity data
                        (i - px) (j - py) k)
    by (intros k Hk; apply paint_pixel_final; assumption).
  assert (Hpix : pixel_index w (px + (i - px)) (py + (j - py)) = idx)
    by (unfold idx; f_equal; lia).
  split; intros Hd.
  - unfold same_pixel. rewrite !Hfin by lia.
    rewrite paint_pixel_outside by exact Hd. repeat split; reflexivity.
  - destruct (paint_pixel_own w h px py radius intensity data
                (i - px) (j - py) Hd) as (H0 & H1 & H2 & H3); [lia | lia |].
    rewrite Hpix in H0, H1, H2, H3.
    destruct (Z.eqb_spec radius 0) as [-> | _]; [lia|].
    unfold grey_pixel. rewrite !Hfin by lia.
    rewrite H0, H1, H2, H3.
    split; [split; reflexivity|]. split; [reflexivity|].
    intros Hb Hint.
    destruct (brushed_bounds radius intensity (data idx) dist Hr Hint (Hb idx))
      as [Hrange Hrise].
    { split; [apply offset_dist_nonneg | exact Hd]. }
    unfold dist in *. split; [exact Hrange | lra].
Qed.

Lemma paint_brushes_each_pixel_once_witness :
  let data := fun _ : Z => 40%Z in
  let data' := PixelOps.paint_at 64 48 data 32 24 20 200 in
  let idx := pixel_index 64 30 20 in
  let dist := offset_dist (30 - 32) (20 - 24) in
  (20 < dist -> same_pixel data' data idx)
  /\ (dist <= 20 ->
      grey_pixel data' idx /\ data' (idx + 3)%Z = data (idx + 3)%Z
      /\ (byte_array data -> 0 <= 200 ->
          (data idx <= data' idx <= 255)%Z
          /\ IZR (data' idx) < IZR (data idx) + 200 + 1)).
Proof.
  apply (paint_brushes_each_pixel_once 64 48 (fun _ => 40%Z) 32 24 20 200
           30 20); lia.
Defined.

(** X18: With a non-negative intensity, paint never darkens the red byte of
    a pixel of the grid, and leaves it a byte. *)
Theorem paint_never_darkens
    (w h : Z) (data : PixelOps.bytes) (x y : R) (radius : Z) (intensity : R)
    (i j : Z) :
  byte_array data -> 0 <= intensity -> (0 < radius)%Z ->
  (0 <= i < w)%Z -> (0 <= j < h)%Z ->
  (data (pixel_index w i j)
   <= PixelOps.paint w h data x y radius intensity (pixel_index w i j)
   <= 255)%Z.
Proof.
  intros Hb Hint Hr Hi Hj. unfold PixelOps.paint. cbv zeta.
  set (px := PixelOps.floor (x * IZR w)).
  set (py := PixelOps.floor ((1 - y) * IZR h)).
  set (idx := pixel_index w i j).
  rewrite (paint_pixel_final w h data px py radius intensity i j idx Hi Hj)
    by (unfold idx; lia).
  assert (Hpix : pixel_index w (px + (i - px)) (py + (j - py)) = idx)
    by (unfold idx; f_equal; lia).
  pose proof (Hb idx) as Hold.
  destruct (Rle_dec (offset_dist (i - px) (j - py)) (IZR radius)) as [Hd | Hd].
  - destruct (paint_pixel_own w h px py radius intensity data
                (i - px) (j - py) Hd) as (H0 & _); [lia | lia |].
    rewrite Hpix in H0. rewrite H0.
    destruct (Z.eqb_spec radius 0) as [-> | _]; [lia|].
    apply brushed_bounds; try assumption.
    split; [apply offset_dist_nonneg | exact Hd].
  - rewrite paint_pixel_outside by lra. lia.
Qed.

Lemma paint_never_darkens_witness :
  (40 <= PixelOps.paint 64 48 (fun _ => 40%Z) 0.5 0.5 20 200
           (pixel_index 64 30 20)
   <= 255)%Z.
Proof.
  apply (paint_never_darkens 64 48 (fun _ => 40%Z) 0.5 0.5 20 200 30 20);
    [intros k; lia | lra | lia | lia | lia].
Defined.

Lemma write4_other (d : PixelOps.bytes) (i v0 v1 v2 v3 k : Z) :
  (k < i \/ i + 3 < k)%Z ->
  PixelOps.write
    (PixelOps.write (PixelOps.write (PixelOps.write d i v0) (i + 1) v1)
                    (i + 2) v2) (i + 3) v3 k = d k.
Proof. intros H. rewrite !write_other by lia. reflexivity. Qed.

(** What spawnCreature has done to a pixel so far: nothing, or it is grey,
    opaque, at least as bright as it was and at least 2. *)
Lemma spawn_cell_keeps (w h px py : Z) (scale : R)
    (creature : Templates.Template) (data d : PixelOps.bytes) (sx sy : Z) :
  byte_array data ->
  (forall p : Z,
     same_pixel d data (4 * p)
     \/ ((data (4 * p) <= d (4 * p) <= 255)%Z /\ (2 <= d (4 * p))%Z
         /\ grey_pixel d (4 * p) /\ d (4 * p + 3)%Z = 255%Z)) ->
  forall p : Z,
    let d' := PixelOps.spawn_cell w h px py scale creature d sx sy in
    same_pixel d' data (4 * p)
    \/ ((data (4 * p) <= d' (4 * p) <= 255)%Z /\ (2 <= d' (4 * p))%Z
        /\ grey_pixel d' (4 * p) /\ d' (4 * p + 3)%Z = 255%Z).
Proof.
  intros Hb Hinv p. cbv zeta. unfold PixelOps.spawn_cell. cbv zeta.
  destruct (Rlt_dec _ _) as [_ | Hval]; [apply Hinv|].
  destruct (_ || _ || _ || _)%bool; [apply Hinv|].
  match goal with
  | |- context [PixelOps.write ?d0 ((?ty * w + ?tx) * 4)%Z] =>
      set (p0 := (ty * w + tx)%Z)
  end.
  replace (p0 * 4)%Z with (4 * p0)%Z by lia.
  match goal with
  | |- context [Z.max (d (4 * p0)%Z) ?nv] => set (newVal := nv)
  end.
  assert (Hnew : (2 <= newVal <= 255)%Z).
  { subst newVal.
    match goal with |- (2 <= Z.min 255 (PixelOps.floor ?r) <= 255)%Z =>
      assert (Hfl : (2 <= PixelOps.floor r)%Z)
        by (apply Int_part_ge; lra)
    end.
    lia. }
  assert (Hcur : (data (4 * p0) <= d (4 * p0) <= 255)%Z).
  { destruct (Hinv p0) as [(E & _) | (Hr & _)]; [|exact Hr].
    rewrite E. pose proof (Hb (4 * p0)%Z). lia. }
  pose proof (Hb (4 * p0)%Z) as Hold.
  assert (Hred : (Z.max (d (4 * p0)) newVal
                  <= PixelOps.ToUint8 (IZR (Z.max (d (4 * p0)) newVal))
                  <= 255)%Z).
  { apply ToUint8_between; [lia|]. split; [lra|]. apply IZR_le. lia. }
  destruct (Z.eq_dec p p0) as [-> | Hne].
  - right. unfold grey_pixel, PixelOps.write.
    repeat match goal with
           | |- context [(?a =? ?b)%Z] =>
               destruct (Z.eqb_spec a b); try (exfalso; lia)
           end.
    repeat split; try reflexivity; lia.
  - unfold same_pixel, grey_pixel.
    rewrite !write4_other by lia. apply Hinv.
Qed.

(** X20: [spawnCreature] never darkens the canvas.  Each pixel is either left
    as it was, or ends grey and opaque with a red byte that is still a byte,
    at least as large as before and at least 2. *)
Theorem spawnCreature_only_brightens
    (w h : Z) (data : PixelOps.bytes) (creature : Templates.Template)
    (x y scale : R) (p : Z) :
  byte_array data ->
  let data' := PixelOps.spawnCreature w h data creature x y scale in
  same_pixel data' data (4 * p)
  \/ ((data (4 * p) <= data' (4 * p) <= 255)%Z /\ (2 <= data' (4 * p))%Z
      /\ grey_pixel data' (4 * p) /\ data' (4 * p + 3)%Z = 255%Z).
Proof.
  intros Hb. cbv zeta. revert p. unfold PixelOps.spawnCreature. cbv zeta.
  apply (fold_left_preserves
           (fun d : PixelOps.bytes => forall p : Z,
              same_pixel d data (4 * p)
              \/ ((data (4 * p) <= d (4 * p) <= 255)%Z /\ (2 <= d (4 * p))%Z
                  /\ grey_pixel d (4 * p) /\ d (4 * p + 3)%Z = 255%Z))).
  - intros d sy Hd.
    apply (fold_left_preserves
             (fun d : PixelOps.bytes => forall p : Z,
                same_pixel d data (4 * p)
                \/ ((data (4 * p) <= d (4 * p) <= 255)%Z
                    /\ (2 <= d (4 * p))%Z
                    /\ grey_pixel d (4 * p) /\ d (4 * p + 3)%Z = 255%Z)));
      [|exact Hd].
    intros d0 sx Hd0 p. apply (spawn_cell_keeps w h _ _ scale creature data d0 sx sy Hb Hd0 p).
  - intros p. left. unfold same_pixel. repeat split; reflexivity.
Qed.

Lemma spawnCreature_only_brightens_witness :
  let data := fun _ : Z => 40%Z in
  let data' :=
    PixelOps.spawnCreature 64 48 data
      (Templates.Build_Template "Orbium" "glider"
         (Templates.Build_TemplateParams 13 10 0.15 0.015 [1; 1; 1])
         Templates.orbium_cell) 0.5 0.5 1 in
  same_pixel data' data (4 * 100)
  \/ ((data (4 * 100)%Z <= data' (4 * 100)%Z <= 255)%Z
      /\ (2 <= data' (4 * 100)%Z)%Z
      /\ grey_pixel data' (4 * 100) /\ data' (4 * 100 + 3)%Z = 255%Z).
Proof.
  apply (spawnCreature_only_brightens 64 48 (fun _ => 40%Z)
           (Templates.Build_Template "Orbium" "glider"
              (Templates.Build_TemplateParams 13 10 0.15 0.015 [1; 1; 1])
              Templates.orbium_cell) 0.5 0.5 1 100).
  intros k. lia.
Defined.

(** ** Further facts: symmetry of the templates *)

Lemma fold_left_pointwise {A B : Type} (f g : A -> B -> A) (l : list B) :
  (forall a x, f a x = g a x) -> forall a, fold_left f l a = fold_left g l a.
Proof.
  intros H. induction l as [|x l IH]; intros a; cbn [fold_left];
    [reflexivity | rewrite H; apply IH].
Qed.

Lemma mirrored_square (size x c : R) :
  (size - x - (size / 2 - c)) * (size - x - (size / 2 - c))
  = (x - (size / 2 + c)) * (x - (size / 2 + c)).
Proof. field. Qed.

(** X21: The trilobite and the twins of the geminium are mirror images of
    themselves: column [x] of the pattern equals column [size - x]. *)
Theorem templates_mirror_symmetric (size x y : Z) :
  (0 < x < size)%Z ->
  Templates.trilobite_cell size (size - x) y = Templates.trilobite_cell size x y
  /\ Templates.geminium_cell size (size - x) y
     = Templates.geminium_cell size x y.
Proof.
  intros _. split.
  - unfold Templates.trilobite_cell. apply fold_left_pointwise.
    intros v s. unfold Templates.trilobite_segment. cbv zeta.
    rewrite minus_IZR.
    replace ((IZR size - IZR x - IZR size / 2)
             * (IZR size - IZR x - IZR size / 2))
      with ((IZR x - IZR size / 2) * (IZR x - IZR size / 2)) by field.
    reflexivity.
  - unfold Templates.geminium_cell. cbv zeta. rewrite minus_IZR.
    rewrite (mirrored_square (IZR size) (IZR x) (IZR size * 0.15)).
    replace ((IZR size - IZR x - (IZR size / 2 + IZR size * 0.15))
             * (IZR size - IZR x - (IZR size / 2 + IZR size * 0.15)))
      with ((IZR x - (IZR size / 2 - IZR size * 0.15))
            * (IZR x - (IZR size / 2 - IZR size * 0.15))) by lra.
    apply Rmax_comm.
Qed.

Lemma templates_mirror_symmetric_witness :
  Templates.trilobite_cell 64 (64 - 20) 30 = Templates.trilobite_cell 64 20 30
  /\ Templates.geminium_cell 64 (64 - 20) 30
     = Templates.geminium_cell 64 20 30.
Proof. apply (templates_mirror_symmetric 64 20 30). lia. Defined.

(** ** Further facts: the brush of the ecosystem *)

Lemma channel_of_range (species : string) (c : Z) :
  EcoPixelOps.channel_of species = Some c -> (0 <= c <= 2)%Z.
Proof.
  unfold EcoPixelOps.channel_of.
  repeat destruct (bool_decide _); intros H; inversion H; lia.
Qed.

Lemma eco_paint_preserves (P : PixelOps.bytes -> Prop)
    (w h : Z) (data : PixelOps.bytes) (x y : R) (species : string)
    (radius : Z) (intensity : R) :
  (forall d px py dx dy,
     P d ->
     P (EcoPixelOps.paint_pixel w h px py radius intensity
          (EcoPixelOps.channel_of species) d dx dy)) ->
  P data ->
  P (EcoPixelOps.paint w h data x y species radius intensity).
Proof.
  intros Hstep H0. unfold EcoPixelOps.paint. cbv zeta.
  apply (fold_left_preserves P); [|exact H0].
  intros d dy Hd. apply (fold_left_preserves P); [|exact Hd].
  intros d0 dx Hd0. apply Hstep, Hd0.
Qed.

(** X22: The brush of the ecosystem paints one species: a byte that is
    neither alpha nor the byte of the painted species is never changed. *)
Theorem eco_paint_touches_one_species
    (w h : Z) (data : PixelOps.bytes) (x y : R) (species : string)
    (radius : Z) (intensity : R) (k : Z) :
  (k mod 4 <> 3)%Z ->
  EcoPixelOps.channel_of species <> Some (k mod 4)%Z ->
  EcoPixelOps.paint w h data x y species radius intensity k = data k.
Proof.
  intros Halpha Hch.
  apply (eco_paint_preserves (fun d => d k = data k)); [|reflexivity].
  intros d px py dx dy Hd. unfold EcoPixelOps.paint_pixel. cbv zeta.
  destruct (Rgt_dec _ _); [exact Hd|].
  destruct (_ || _ || _ || _)%bool; [exact Hd|].
  match goal with
  | |- context [((?ny * w + ?nx) * 4 + 3)%Z] => set (p := (ny * w + nx)%Z)
  end.
  rewrite write_other by (intros ->; apply Halpha;
    rewrite Z.add_comm, Z.mod_add by lia; reflexivity).
  destruct (EcoPixelOps.channel_of species) as [c|] eqn:Ec; [|exact Hd].
  pose proof (channel_of_range species c Ec) as Hc.
  rewrite write_other; [exact Hd|].
  intros ->. apply Hch. f_equal.
  rewrite Z.add_comm, Z.mod_add by lia. rewrite Z.mod_small by lia.
  reflexivity.
Qed.

Lemma eco_paint_touches_one_species_witness :
  EcoPixelOps.paint 64 48 (fun _ => 40%Z) 0.5 0.5 "predator" 20 180 4000%Z
  = 40%Z.
Proof.
  apply (eco_paint_touches_one_species 64 48 (fun _ => 40%Z) 0.5 0.5
           "predator" 20 180 4000%Z).
  - vm_compute. discriminate.
  - vm_compute. discriminate.
Defined.

Lemma eco_paint_bytes_grow
    (w h : Z) (data : PixelOps.bytes) (x y : R) (species : string)
    (radius : Z) (intensity : R) (k : Z) :
  byte_array data -> 0 <= intensity -> (0 < radius)%Z ->
  (data k
   <= EcoPixelOps.paint w h data x y species radius intensity k
   <= 255)%Z.
Proof.
  intros Hb Hint Hr. revert k.
  apply (eco_paint_preserves (fun d => forall k, (data k <= d k <= 255)%Z)).
  2:{ intros k. pose proof (Hb k). lia. }
  intros d px py dx dy Hd k. unfold EcoPixelOps.paint_pixel. cbv zeta.
  destruct (Rgt_dec _ _); [apply Hd|].
  destruct (_ || _ || _ || _)%bool; [apply Hd|].
  destruct (Z.eqb_spec radius 0) as [-> | _]; [lia|].
  pose proof (Hb k) as Hk. pose proof (Hd k) as Hdk.
  set (idx := (((py + dy) * w + (px + dx)) * 4)%Z).
  destruct (Z.eq_dec k (idx + 3)%Z) as [-> | Hne3];
    [rewrite write_same; lia | rewrite write_other by exact Hne3].
  destruct (EcoPixelOps.channel_of species) as [c|]; [|exact Hdk].
  destruct (Z.eq_dec k (idx + c)%Z) as [-> | Hnec];
    [rewrite write_same | rewrite write_other by exact Hnec; exact Hdk].
  subst idx.
  match goal with
  | |- (_ <= PixelOps.ToUint8 (Rmin 255 (IZR (d ?i) + Rmax ?a ?b * intensity))
        <= 255)%Z =>
      pose proof (Hd i) as Hdi; pose proof (Hb i) as Hbi;
      assert (Hval : 0 <= Rmax a b * intensity)
        by (apply Rmult_le_pos; [|exact Hint];
            apply Rle_trans with a; [left; apply exp_pos | apply Rmax_l]);
      assert (Hlo : (data i <= PixelOps.ToUint8
                                 (Rmin 255 (IZR (d i) + Rmax a b * intensity))
                     <= 255)%Z)
  end.
  { assert (Hhi : IZR (d (((py + dy) * w + (px + dx)) * 4 + c)%Z) <= 255)
      by (apply IZR_le; lia).
    match goal with
    | |- (_ <= PixelOps.ToUint8 ?r <= 255)%Z =>
        assert (Hbt : (d (((py + dy) * w + (px + dx)) * 4 + c)%Z
                       <= PixelOps.ToUint8 r <= 255)%Z)
    end.
    { apply ToUint8_between; [lia|]. unfold Rmin.
      destruct (Rle_dec _ _); lra. }
    lia. }
  exact Hlo.
Qed.

(** X23: With a non-negative intensity and a positive radius, the brush of
    the ecosystem lowers no byte of the array, and every byte stays a
    byte. *)
Theorem eco_paint_never_lowers
    (w h : Z) (data : PixelOps.bytes) (x y : R) (species : string)
    (radius : Z) (intensity : R) (k : Z) :
  byte_array data -> 0 <= intensity -> (0 < radius)%Z ->
  (data k
   <= EcoPixelOps.paint w h data x y species radius intensity k
   <= 255)%Z.
Proof. apply eco_paint_bytes_grow. Qed.

Lemma eco_paint_never_lowers_witness :
  (40 <= EcoPixelOps.paint 64 48 (fun _ => 40%Z) 0.5 0.5 "apex" 15 120 4002%Z
   <= 255)%Z.
Proof.
  apply (eco_paint_never_lowers 64 48 (fun _ => 40%Z) 0.5 0.5 "apex" 15 120
           4002%Z); [intros k; lia | lra | lia].
Defined.

(** ** Further facts: the population statistics *)

Lemma length_zrange (n : nat) : forall lo, length (zrange lo n) = n.
Proof.
  induction n as [|n IH]; intros lo; cbn [zrange length];
    [reflexivity | rewrite IH; reflexivity].
Qed.

Lemma population_sums_mono (d d' : PixelOps.bytes) (l : list Z) :
  (forall k, (d k <= d' k)%Z) ->
  forall acc acc' : Z * Z * Z,
    (fst (fst acc) <= fst (fst acc'))%Z /\ (snd (fst acc) <= snd (fst acc'))%Z
    /\ (snd acc <= snd acc')%Z ->
    let step (data : PixelOps.bytes) :=
      fun (acc : Z * Z * Z) (i : Z) =>
        let '(prey, pred, apex) := acc in
        (prey + data i, pred + data (i + 1), apex + data (i + 2))%Z in
    let r := fold_left (step d) l acc in
    let r' := fold_left (step d') l acc' in
    (fst (fst r) <= fst (fst r'))%Z /\ (snd (fst r) <= snd (fst r'))%Z
    /\ (snd r <= snd r')%Z.
Proof.
  intros Hle. induction l as [|i l IH]; intros acc acc' Hacc; cbv zeta;
    cbn [fold_left]; [exact Hacc|].
  apply IH. destruct acc as [[a b] c], acc' as [[a' b'] c'].
  cbn [fst snd] in *.
  pose proof (Hle i). pose proof (Hle (i + 1)%Z). pose proof (Hle (i + 2)%Z).
  lia.
Qed.

Lemma population_sums_bounds (d : PixelOps.bytes) (l : list Z) :
  byte_array d ->
  forall acc : Z * Z * Z,
    let r :=
      fold_left
        (fun (acc : Z * Z * Z) (i : Z) =>
           let '(prey, pred, apex) := acc in
           (prey + d i, pred + d (i + 1), apex + d (i + 2))%Z) l acc in
    (fst (fst acc) <= fst (fst r) <= fst (fst acc) + 255 * Z.of_nat (length l))%Z
    /\ (snd (fst acc) <= snd (fst r)
        <= snd (fst acc) + 255 * Z.of_nat (length l))%Z
    /\ (snd acc <= snd r <= snd acc + 255 * Z.of_nat (length l))%Z.
Proof.
  intros Hb. induction l as [|i l IH]; intros acc; cbv zeta;
    cbn [fold_left length]; [lia|].
  match goal with
  | |- context [fold_left ?f l ?a] => pose proof (IH a) as H; cbv zeta in H
  end.
  destruct acc as [[a b] c]. cbn [fst snd] in *.
  pose proof (Hb i). pose proof (Hb (i + 1)%Z). pose proof (Hb (i + 2)%Z).
  lia.
Qed.

Lemma mean_unit (a a' p : Z) :
  (0 < p)%Z -> (0 <= a <= a')%Z -> (a' <= 255 * p)%Z ->
  0 <= IZR a / IZR p / 255 <= IZR a' / IZR p / 255
  /\ IZR a' / IZR p / 255 <= 1.
Proof.
  intros Hp [H0 Hle] Hhi.
  apply IZR_lt in Hp. apply IZR_le in H0, Hle, Hhi.
  rewrite mult_IZR in Hhi.
  assert (Hinv : 0 < / IZR p) by (apply Rinv_0_lt_compat; exact Hp).
  unfold Rdiv. repeat split.
  - apply Rmult_le_pos; [apply Rmult_le_pos|]; lra.
  - apply Rmult_le_compat_r; [lra|]. apply Rmult_le_compat_r; lra.
  - apply (Rmult_le_reg_r 255); [lra|].
    apply (Rmult_le_reg_r (IZR p)); [exact Hp|].
    replace (IZR a' * / IZR p * / 255 * 255 * IZR p)
      with (IZR a' * (/ IZR p * IZR p)) by (field; lra).
    rewrite Rinv_l by lra. lra.
Qed.

(** X24: The population statistics are mean densities, and painting can only
    raise them: on a canvas with at least one pixel, each of the three
    numbers lies in [0,1], and after a brush stroke with a non-negative
    intensity and a positive radius none of them is lower. *)
Theorem population_stats_grow_with_paint
    (w h : Z) (data : PixelOps.bytes) (x y : R) (species : string)
    (radius : Z) (intensity : R) :
  (0 < w)%Z -> (0 < h)%Z -> byte_array data ->
  0 <= intensity -> (0 < radius)%Z ->
  let s := EcoStats.getPopulationStats w h data in
  let s' :=
    EcoStats.getPopulationStats w h
      (EcoPixelOps.paint w h data x y species radius intensity) in
  (0 <= EcoStats.prey s <= EcoStats.prey s' /\ EcoStats.prey s' <= 1)
  /\ (0 <= EcoStats.predator s <= EcoStats.predator s'
      /\ EcoStats.predator s' <= 1)
  /\ (0 <= EcoStats.apex s <= EcoStats.apex s' /\ EcoStats.apex s' <= 1).
Proof.
  intros Hw Hh Hb Hint Hr. cbv zeta.
  set (data' := EcoPixelOps.paint w h data x y species radius intensity).
  assert (Hgrow : forall k, (data k <= data' k)%Z)
    by (intros k; apply eco_paint_bytes_grow; assumption).
  assert (Hb' : byte_array data').
  { intros k. pose proof (Hb k).
    pose proof (eco_paint_bytes_grow w h data x y species radius intensity k
                  Hb Hint Hr). fold data' in H0. lia. }
  unfold EcoStats.getPopulationStats, EcoStats.population_sums.
  set (l := map (fun n => (4 * n)%Z) (zrange 0 (Z.to_nat (w * h)))).
  assert (Hlen : Z.of_nat (length l) = (w * h)%Z)
    by (unfold l; rewrite length_map, length_zrange; lia).
  pose proof (population_sums_mono data data' l Hgrow (0, 0, 0)%Z (0, 0, 0)%Z)
    as Hmono.
  pose proof (population_sums_bounds data l Hb (0, 0, 0)%Z) as Hlo.
  pose proof (population_sums_bounds data' l Hb' (0, 0, 0)%Z) as Hhi.
  cbv zeta in Hmono, Hlo, Hhi. cbn [fst snd] in Hmono, Hlo, Hhi.
  rewrite Hlen in Hlo, Hhi.
  destruct (fold_left _ l (0, 0, 0)%Z) as [[a b] c].
  destruct (fold_left _ l (0, 0, 0)%Z) as [[a' b'] c'].
  cbn [fst snd EcoStats.prey EcoStats.predator EcoStats.apex] in *.
  assert (Hp : (0 < w * h)%Z) by lia.
  specialize (Hmono ltac:(lia)).
  destruct (mean_unit a a' (w * h) Hp) as [[? ?] ?]; [lia | lia |].
  destruct (mean_unit b b' (w * h) Hp) as [[? ?] ?]; [lia | lia |].
  destruct (mean_unit c c' (w * h) Hp) as [[? ?] ?]; [lia | lia |].
  repeat split; assumption.
Qed.

Lemma population_stats_grow_with_paint_witness :
  let s := EcoStats.getPopulationStats 64 48 (fun _ => 40%Z) in
  let s' :=
    EcoStats.getPopulationStats 64 48
      (EcoPixelOps.paint 64 48 (fun _ => 40%Z) 0.5 0.5 "prey" 20 180) in
  (0 <= EcoStats.prey s <= EcoStats.prey s' /\ EcoStats.prey s' <= 1)
  /\ (0 <= EcoStats.predator s <= EcoStats.predator s'
      /\ EcoStats.predator s' <= 1)
  /\ (0 <= EcoStats.apex s <= EcoStats.apex s' /\ EcoStats.apex s' <= 1).
Proof.
  apply (population_stats_grow_with_paint 64 48 (fun _ => 40%Z) 0.5 0.5
           "prey" 20 180); [lia | lia | intros k; lia | lra | lia].
Defined.
